(** * grasp_selection: reachability and collision filtering of grasp candidates

    A shallow embedding of [src/grasp_selection/reaching.cpp] (class
    [Reaching]) and the properties of its specification.

    Numbers.  The C++ code computes on [double].  The embedding is written
    once, over an interface [Scalar] of the operations the code uses, with no
    law assumed; it is instantiated with the kernel's binary64 floats
    ([float_scalar], executable) and with the real numbers ([real_scalar],
    exact arithmetic).  A theorem stated for every [Scalar] holds of the
    program as it runs; a theorem stated at [real_scalar] is a statement in
    exact arithmetic and says so.

    Effects.  The IK service is an external process: calls to it thread an
    abstract world through a state-and-error monad, which also records a
    ghost trace of the calls to [solveIK] and [isCollisionFree]. *)

From Stdlib Require Import String.
From Stdlib Require Import ZArith QArith List Bool Lia.
From Stdlib Require Import Floats Reals Lra Psatz RNsatz.
From Stdlib Require Import Sorting.Sorted Sorting.Permutation.
Import ListNotations.

Set Implicit Arguments.

(** ** Scalars *)

(** The operations on [double] the program uses.  [dlit] reads a decimal
    literal of the source; [dofZ] is the conversion from [int]. *)
Class Scalar (D : Type) : Type := {
  dlit : Q -> D;
  dofZ : Z -> D;
  dadd : D -> D -> D;
  dsub : D -> D -> D;
  dmul : D -> D -> D;
  ddiv : D -> D -> D;
  dltb : D -> D -> bool;
  dleb : D -> D -> bool;
  deqb : D -> D -> bool;
  dsqrt : D -> D;
  dabs : D -> D
}.

(** [cos], [sin] of the C library and the constant [M_PI]. *)
Class Trig (D : Type) : Type := {
  dcos : D -> D;
  dsin : D -> D;
  dpi : D
}.

Declare Scope dbl_scope.
Delimit Scope dbl_scope with dbl.
Infix "+" := dadd : dbl_scope.
Infix "-" := dsub : dbl_scope.
Infix "*" := dmul : dbl_scope.
Infix "/" := ddiv : dbl_scope.
Infix "<?" := dltb : dbl_scope.
Infix "<=?" := dleb : dbl_scope.
Infix "=?" := deqb : dbl_scope.
(** C's [x > y] and [x >= y] are [y < x] and [y <= x]. *)
Notation "x >? y" := (dltb y x) (at level 70) : dbl_scope.
Notation "x >=? y" := (dleb y x) (at level 70) : dbl_scope.

(** *** binary64 *)

Definition float_of_Z (z : Z) : float :=
  match z with
  | Z0 => PrimFloat.of_uint63 (Uint63.of_Z 0)
  | Zpos _ => PrimFloat.of_uint63 (Uint63.of_Z z)
  | Zneg p => PrimFloat.opp (PrimFloat.of_uint63 (Uint63.of_Z (Zpos p)))
  end.

(** A decimal literal [n/d] with [n] and [d] below 2^53 is the correctly
    rounded quotient of two exact floats, as the C compiler reads it. *)
Definition float_lit (q : Q) : float :=
  PrimFloat.div (float_of_Z (Qnum q)) (float_of_Z (Zpos (Qden q))).

#[export] Instance float_scalar : Scalar float := {
  dlit := float_lit;
  dofZ := float_of_Z;
  dadd := PrimFloat.add;
  dsub := PrimFloat.sub;
  dmul := PrimFloat.mul;
  ddiv := PrimFloat.div;
  dltb := PrimFloat.ltb;
  dleb := PrimFloat.leb;
  deqb := PrimFloat.eqb;
  dsqrt := PrimFloat.sqrt;
  dabs := PrimFloat.abs
}.

(** *** Real numbers (exact arithmetic) *)

Definition Rltb (x y : R) : bool := if Rlt_dec x y then true else false.
Definition Rleb (x y : R) : bool := if Rle_dec x y then true else false.
Definition Reqb (x y : R) : bool := if Req_dec_T x y then true else false.

#[export] Instance real_scalar : Scalar R := {
  dlit := Q2R;
  dofZ := IZR;
  dadd := Rplus;
  dsub := Rminus;
  dmul := Rmult;
  ddiv := Rdiv;
  dltb := Rltb;
  dleb := Rleb;
  deqb := Reqb;
  dsqrt := sqrt;
  dabs := Rabs
}.

#[export] Instance real_trig : Trig R := {
  dcos := cos;
  dsin := sin;
  dpi := PI
}.

(** ** Eigen: 3-vectors and 3x3 matrices *)

Record Vec3 (D : Type) : Type := mkVec3 { vx : D; vy : D; vz : D }.

(** A [Matrix3d] by its columns, as the program reads and writes it. *)
Record Mat3 (D : Type) : Type := mkMat3 { col0 : Vec3 D; col1 : Vec3 D; col2 : Vec3 D }.

Section Eigen.
Context {D : Type} `{Scalar D}.
Local Open Scope dbl_scope.

Definition vzero : Vec3 D := mkVec3 (dlit 0) (dlit 0) (dlit 0).
Definition vadd (a b : Vec3 D) : Vec3 D :=
  mkVec3 (vx a + vx b) (vy a + vy b) (vz a + vz b).
Definition vsub (a b : Vec3 D) : Vec3 D :=
  mkVec3 (vx a - vx b) (vy a - vy b) (vz a - vz b).
Definition vscale (s : D) (a : Vec3 D) : Vec3 D :=
  mkVec3 (s * vx a) (s * vy a) (s * vz a).
Definition vdot (a b : Vec3 D) : D :=
  vx a * vx b + vy a * vy b + vz a * vz b.
Definition vcross (a b : Vec3 D) : Vec3 D :=
  mkVec3 (vy a * vz b - vz a * vy b)
         (vz a * vx b - vx a * vz b)
         (vx a * vy b - vy a * vx b).
Definition squaredNorm (a : Vec3 D) : D := vdot a a.

Definition mzero : Mat3 D := mkMat3 vzero vzero vzero.

(** Entry (row, column) of a matrix stored by columns. *)
Definition m00 (m : Mat3 D) := vx (col0 m).
Definition m10 (m : Mat3 D) := vy (col0 m).
Definition m20 (m : Mat3 D) := vz (col0 m).
Definition m01 (m : Mat3 D) := vx (col1 m).
Definition m11 (m : Mat3 D) := vy (col1 m).
Definition m21 (m : Mat3 D) := vz (col1 m).
Definition m02 (m : Mat3 D) := vx (col2 m).
Definition m12 (m : Mat3 D) := vy (col2 m).
Definition m22 (m : Mat3 D) := vz (col2 m).

Definition mat_vec (m : Mat3 D) (v : Vec3 D) : Vec3 D :=
  mkVec3 (m00 m * vx v + m01 m * vy v + m02 m * vz v)
         (m10 m * vx v + m11 m * vy v + m12 m * vz v)
         (m20 m * vx v + m21 m * vy v + m22 m * vz v).

(** [R.col(j) = v]: Eigen asserts [0 <= j < 3]; outside there is no result. *)
Definition set_col (m : Mat3 D) (j : Z) (v : Vec3 D) : option (Mat3 D) :=
  match j with
  | 0%Z => Some (mkMat3 v (col1 m) (col2 m))
  | 1%Z => Some (mkMat3 (col0 m) v (col2 m))
  | 2%Z => Some (mkMat3 (col0 m) (col1 m) v)
  | _ => None
  end.

Definition get_col (m : Mat3 D) (j : Z) : option (Vec3 D) :=
  match j with
  | 0%Z => Some (col0 m)
  | 1%Z => Some (col1 m)
  | 2%Z => Some (col2 m)
  | _ => None
  end.

Context `{Trig D}.

(** [Eigen::AngleAxis<double>(angle, axis).toRotationMatrix()]. *)
Definition toRotationMatrix (angle : D) (axis : Vec3 D) : Mat3 D :=
  let sin_axis := vscale (dsin angle) axis in
  let c := dcos angle in
  let cos1_axis := vscale (dlit 1 - c) axis in
  let t01 := vx cos1_axis * vy axis in
  let t02 := vx cos1_axis * vz axis in
  let t12 := vy cos1_axis * vz axis in
  mkMat3
    (mkVec3 (vx cos1_axis * vx axis + c) (t01 + vz sin_axis) (t02 - vy sin_axis))
    (mkVec3 (t01 - vz sin_axis) (vy cos1_axis * vy axis + c) (t12 + vx sin_axis))
    (mkVec3 (t02 + vy sin_axis) (t12 - vx sin_axis) (vz cos1_axis * vz axis + c)).

(** [Eigen::Transform<double,3,Affine> T(AngleAxis(angle, axis)); T * v]:
    the linear part applied to [v], plus the (zero) translation. *)
Definition angleAxisTransform (angle : D) (axis : Vec3 D) (v : Vec3 D) : Vec3 D :=
  vadd (mat_vec (toRotationMatrix angle axis) v) vzero.

End Eigen.

(** ** tf: quaternions *)

Record Quaternion (D : Type) : Type := mkQuat { qx : D; qy : D; qz : D; qw : D }.

Section Tf.
Context {D : Type} `{Scalar D}.
Local Open Scope dbl_scope.

Definition length2 (q : Quaternion D) : D :=
  qx q * qx q + qy q * qy q + qz q * qz q + qw q * qw q.

Definition qlength (q : Quaternion D) : D := dsqrt (length2 q).

(** [tf::Quaternion::normalize]: [*this /= length()], and [q /= s] is
    [q *= 1.0 / s]. *)
Definition normalize (q : Quaternion D) : Quaternion D :=
  let s := dlit 1 / qlength q in
  mkQuat (qx q * s) (qy q * s) (qz q * s) (qw q * s).

(** The quaternion [setValue(temp[0], temp[1], temp[2], temp[3])] where
    [temp[i] = ti], [temp[(i+1)%3] = tj], [temp[(i+2)%3] = tk]. *)
Definition quat_of_temp (i : nat) (ti tj tk t3 : D) : Quaternion D :=
  match i with
  | 0%nat => mkQuat ti tj tk t3
  | 1%nat => mkQuat tk ti tj t3
  | _ => mkQuat tj tk ti t3
  end.

(** Entry [m_el[r][c]] of a matrix. *)
Definition mentry (m : Mat3 D) (r c : nat) : D :=
  let column := match c with 0%nat => col0 m | 1%nat => col1 m | _ => col2 m end in
  match r with 0%nat => vx column | 1%nat => vy column | _ => vz column end.

(** [tf::Matrix3x3::getRotation], after [tf::matrixEigenToTF] copied the
    nine entries. *)
Definition getRotation (m : Mat3 D) : Quaternion D :=
  let trace := m00 m + m11 m + m22 m in
  if trace >? dlit 0 then
    let s := dsqrt (trace + dlit 1) in
    let t3 := s * dlit 0.5 in
    let s' := dlit 0.5 / s in
    mkQuat ((m21 m - m12 m) * s') ((m02 m - m20 m) * s') ((m10 m - m01 m) * s') t3
  else
    let i := if m00 m <? m11 m
             then (if m11 m <? m22 m then 2%nat else 1%nat)
             else (if m00 m <? m22 m then 2%nat else 0%nat) in
    let j := ((i + 1) mod 3)%nat in
    let k := ((i + 2) mod 3)%nat in
    let s := dsqrt (mentry m i i - mentry m j j - mentry m k k + dlit 1) in
    let ti := s * dlit 0.5 in
    let s' := dlit 0.5 / s in
    let t3 := (mentry m k j - mentry m j k) * s' in
    let tj := (mentry m j i + mentry m i j) * s' in
    let tk := (mentry m k i + mentry m i k) * s' in
    quat_of_temp i ti tj tk t3.

(** [QUATERNION_TOLERANCE = 0.1f], the binary32 nearest 0.1 read as a double. *)
Definition QUATERNION_TOLERANCE : D := dlit (13421773 # 134217728).

(** tf's test for a quaternion that is not properly normalized. *)
Definition not_normalized (q : Quaternion D) : bool :=
  dabs (length2 q - dlit 1) >? QUATERNION_TOLERANCE.

(** [tf::quaternionTFToMsg]: the components are copied; a quaternion that
    is not properly normalized is normalized first (with a warning). *)
Definition quaternionTFToMsg (q : Quaternion D) : Quaternion D :=
  if not_normalized q then normalize q else q.

End Tf.

(** ** ROS messages and the configuration *)

Record Pose (D : Type) : Type := mkPose {
  position : Vec3 D;
  orientation : Quaternion D
}.

Record Header : Type := mkHeader { stamp : Z; frame_id : string }.

Record PoseStamped (D : Type) : Type := mkPoseStamped {
  header : Header;
  pose : Pose D
}.

(** Modelled from the spec: the message [agile_grasp::Grasp] is declared
    outside src/; a GraspCandidate has a center, a surface center, the three
    frame vectors and an aperture width. *)
Record Grasp (D : Type) : Type := mkGrasp {
  center : Vec3 D;
  surface_center : Vec3 D;
  approach : Vec3 D;
  axis : Vec3 D;
  binormal : Vec3 D;
  width : D
}.

(** [Reaching::GraspEigen] (declared in reaching.h, outside src/): the
    fields the code reads and writes. *)
Record GraspEigen (D : Type) : Type := mkGraspEigen {
  center_ : Vec3 D;
  approach_ : Vec3 D;
  axis_ : Vec3 D;
  binormal_ : Vec3 D
}.

(** Modelled from the spec: [GraspEigen(grasp)] carries the candidate's center
    and frame vectors over to Eigen vectors. *)
Definition GraspEigen_of_msg {D} (g : Grasp D) : GraspEigen D :=
  mkGraspEigen (center g) (approach g) (axis g) (binormal g).

Record IKSolution (D : Type) : Type := mkIKSolution {
  success_ : bool;
  joint_positions_ : list D
}.

(** [GraspScored(i, pose, approach, width, joints, score)]. *)
Record GraspScored (D : Type) : Type := mkGraspScored {
  gs_index : Z;
  gs_pose : PoseStamped D;
  gs_approach : Vec3 D;
  gs_width : D;
  gs_joints : list D;
  gs_score : D
}.

Inductive PlanningLibrary : Type := MOVE_IT | OPEN_RAVE.

(** [Reaching::Parameters]: the fields reaching.cpp reads.  [workspace_] and
    [axis_order_] are indexed containers, given by their element at an
    index. *)
Record Parameters (D : Type) : Type := mkParameters {
  planning_lib_ : PlanningLibrary;
  workspace_ : nat -> D;
  min_aperture_ : D;
  max_aperture_ : D;
  num_additional_grasps_ : Z;
  axis_order_ : nat -> Z;
  hand_offset_ : D;
  planning_frame_ : string;
  move_group_ : string;
  arm_link_ : string;
  max_colliding_points_ : Z;
  ik_first_joint_index_ : Z;
  ik_last_joint_index_ : Z
}.

(** *** The IK services *)

Record GetPositionIK_Request (D : Type) : Type := mkIKRequest {
  rq_group_name : string;
  rq_attempts : Z;
  rq_timeout : D;
  rq_pose_stamped : PoseStamped D;
  rq_ik_link_name : string;
  rq_avoid_collisions : bool
}.

Record GetPositionIK_Response (D : Type) : Type := mkIKResponse {
  error_code_val : Z;
  joint_state_position : list D
}.

Record SolveIK_Response (D : Type) : Type := mkSolveIKResponse {
  resp_success : bool;
  resp_solution : list D
}.

(** [moveit_msgs::MoveItErrorCodes::NO_IK_SOLUTION]. *)
Definition NO_IK_SOLUTION : Z := (-31)%Z.

(** The service client [ik_service_] over a world [W]: a call answers and
    moves the world on; [ros_time_now] reads the clock. *)
Record ServiceClient (D W : Type) : Type := mkServiceClient {
  compute_ik : W -> GetPositionIK_Request D -> GetPositionIK_Response D * W;
  ikfast_solver : W -> Pose D -> SolveIK_Response D * W;
  ros_time_now : W -> Z
}.

(** The object [Reaching]: its members, and the default arguments
    [attempts] and [timeout] that reaching.h gives [solveIK]. *)
Record Reaching (D W : Type) : Type := mkReaching {
  params_ : Parameters D;
  cloud_ : list (Vec3 D);
  ik_service_ : ServiceClient D W;
  default_attempts : Z;
  default_timeout : D
}.

(** ** Effects: the world of the IK service, failure, and a ghost trace *)

(** The calls whose number the specification speaks of, with their results. *)
Inductive Event (D : Type) : Type :=
| EvSolveIK (p : PoseStamped D) (ik : IKSolution D)
| EvCollision (p : PoseStamped D) (approach : Vec3 D) (free : bool).

Record RunState (D W : Type) : Type := mkRunState {
  world : W;
  trace : list (Event D)
}.

(** A computation reads and updates the run state, or has no result (an
    Eigen assertion or an out-of-range read stops the program). *)
Definition M (D W A : Type) : Type := RunState D W -> option (A * RunState D W).

Definition ret {D W A} (a : A) : M D W A := fun s => Some (a, s).

Definition bind {D W A B} (c : M D W A) (k : A -> M D W B) : M D W B :=
  fun s => match c s with
           | Some (a, s') => k a s'
           | None => None
           end.

Notation "x <- c ;; k" := (bind c (fun x => k))
  (at level 61, c at next level, right associativity).

Definition lift_option {D W A} (o : option A) : M D W A :=
  fun s => match o with Some a => Some (a, s) | None => None end.

Definition call_service {D W A} (f : W -> A * W) : M D W A :=
  fun s => let (a, w') := f (world s) in Some (a, mkRunState w' (trace s)).

Definition read_world {D W A} (f : W -> A) : M D W A :=
  fun s => Some (f (world s), s).

Definition tell {D W} (e : Event D) : M D W unit :=
  fun s => Some (tt, mkRunState (world s) (trace s ++ [e])).

(** [for (...) acc = body(acc, x)] over the elements of a container. *)
Fixpoint for_each {D W A X} (body : A -> X -> M D W A) (xs : list X) (acc : A)
  : M D W A :=
  match xs with
  | [] => ret acc
  | x :: rest => acc' <- body acc x ;; for_each body rest acc'
  end.

(** The same with the loop index [i], counting from [i0]. *)
Fixpoint for_each_indexed {D W A X} (body : Z -> A -> X -> M D W A)
  (i0 : Z) (xs : list X) (acc : A) : M D W A :=
  match xs with
  | [] => ret acc
  | x :: rest => acc' <- body i0 acc x ;; for_each_indexed body (i0 + 1) rest acc'
  end.

(** ** C++ [int] *)

Definition INT_MIN : Z := (- 2 ^ 31)%Z.
Definition INT_MAX : Z := (2 ^ 31 - 1)%Z.

(** An [int] result; signed overflow has no defined result. *)
Definition int_checked (z : Z) : option Z :=
  if ((INT_MIN <=? z) && (z <=? INT_MAX))%Z then Some z else None.

(** [k++] as the hardware does it: two's complement wrap-around. *)
Definition int_wrap (z : Z) : Z := ((z + 2 ^ 31) mod 2 ^ 32 - 2 ^ 31)%Z.

(** ** Eigen: [VectorXd::LinSpaced(size, low, high)] *)

Section LinSpaced.
Context {D : Type} `{Scalar D}.
Local Open Scope dbl_scope.

(** Coefficient [i] is [low + i * step], [step = (high - low) / (size - 1)];
    a vector of size 1 holds [high]. *)
Definition LinSpaced (size : Z) (low high : D) : list D :=
  if (size =? 1)%Z then [high]
  else
    let step := (high - low) / dofZ (size - 1) in
    map (fun i => low + dofZ (Z.of_nat i) * step) (seq 0 (Z.to_nat size)).

End LinSpaced.

(** ** The class [Reaching] *)

Section ReachingMethods.
Context {D : Type} `{Scalar D} `{Trig D} {W : Type}.
Variable self : Reaching D W.
Local Open Scope dbl_scope.

Local Abbreviation params := (params_ self).

(** *** [isInWorkspace] *)
Definition isInWorkspace (x y z : D) : bool :=
  if (x >=? workspace_ params 0) && (x <=? workspace_ params 1)
     && (y >=? workspace_ params 2) && (y <=? workspace_ params 3)
     && (z >=? workspace_ params 4) && (z <=? workspace_ params 5)
  then true
  else false.

(** The aperture test of [selectFeasibleGrasps]: true when the grasp is
    skipped. *)
Definition aperture_rejected (w : D) : bool :=
  (w <? min_aperture_ params) || (w >? max_aperture_ params).

(** *** [rotateGrasp] *)
Definition rotateGrasp (grasp_in : GraspEigen D) (theta : D) : GraspEigen D :=
  let R := angleAxisTransform (theta * (dpi / dlit 180)) (binormal_ grasp_in) in
  let axis_out := R (axis_ grasp_in) in
  let approach_out := R (vscale (dlit (-1)) (approach_ grasp_in)) in
  mkGraspEigen (center_ grasp_in)
               approach_out
               axis_out
               (vcross axis_out approach_out).

(** *** [reorderHandAxes] *)
Definition reorderHandAxes (Q : Mat3 D) : option (Mat3 D) :=
  let R := mzero in
  match set_col R (axis_order_ params 0) (col0 Q) with
  | None => None
  | Some R =>
    match set_col R (axis_order_ params 1) (col1 Q) with
    | None => None
    | Some R => set_col R (axis_order_ params 2) (col2 Q)
    end
  end.

(** *** [calculateHandOrientations] *)

(** The matrix [R] of the first hand orientation. *)
Definition first_hand_matrix (grasp : GraspEigen D) : Mat3 D :=
  let c0 := vscale (dlit (-1)) (approach_ grasp) in
  let c1 := axis_ grasp in
  mkMat3 c0 c1 (vcross c0 c1).

(** The matrix [Q] of the second hand orientation. *)
Definition second_hand_matrix (grasp : GraspEigen D) : Mat3 D :=
  let T := angleAxisTransform dpi (approach_ grasp) in
  let c0 := T (approach_ grasp) in
  let c1 := T (axis_ grasp) in
  mkMat3 c0 c1 (vcross c0 c1).

Definition calculateHandOrientations (grasp : GraspEigen D)
  : option (list (Quaternion D)) :=
  let R := first_hand_matrix grasp in
  let Q := second_hand_matrix grasp in
  match reorderHandAxes R, reorderHandAxes Q with
  | Some R1, Some R2 =>
      let quat1 := normalize (getRotation R1) in
      let quat2 := normalize (getRotation R2) in
      Some ([] ++ [quat1] ++ [quat2])
  | _, _ => None
  end.

(** *** [createGraspPose] *)
Definition createGraspPose (grasp : GraspEigen D) (quat : Quaternion D) (theta : D)
  : PoseStamped D :=
  let position := center_ grasp in
  let approach := vscale (dlit (-1)) (approach_ grasp) in
  let position := vadd position (vscale (hand_offset_ params) approach) in
  mkPoseStamped (mkHeader 0 (planning_frame_ params))
                (mkPose position (quaternionTFToMsg quat)).

(** *** [extractJointPositions] *)

(** The range [begin + first, begin + first + num_joints) of the response's
    joint vector; outside the vector there is no result. *)
Definition extractJointPositions (ik_response : GetPositionIK_Response D)
  : option (list D) :=
  let first := ik_first_joint_index_ params in
  match int_checked (ik_last_joint_index_ params - first) with
  | None => None
  | Some d =>
    match int_checked (d + 1) with
    | None => None
    | Some num_joints =>
      let v := joint_state_position ik_response in
      if ((0 <=? first) && (0 <=? num_joints)
          && (first + num_joints <=? Z.of_nat (List.length v)))%Z
      then Some (firstn (Z.to_nat num_joints) (skipn (Z.to_nat first) v))
      else None
    end
  end.

(** *** [solveIKOpenRave], [solveIKMoveIt], [solveIK] *)
Definition solveIKOpenRave (target : PoseStamped D) : M D W (SolveIK_Response D) :=
  call_service (fun w => ikfast_solver (ik_service_ self) w (pose target)).

Definition solveIKMoveIt (target : PoseStamped D) (attempts : Z) (timeout : D)
  : M D W (GetPositionIK_Response D) :=
  now <- read_world (ros_time_now (ik_service_ self)) ;;
  let request :=
    mkIKRequest (move_group_ params) attempts timeout
      (mkPoseStamped (mkHeader now (frame_id (header target))) (pose target))
      (arm_link_ params) false in
  call_service (fun w => compute_ik (ik_service_ self) w request).

Definition solveIK (target : PoseStamped D) (attempts : Z) (timeout : D)
  : M D W (IKSolution D) :=
  match planning_lib_ params with
  | MOVE_IT =>
      resp <- solveIKMoveIt target attempts timeout ;;
      if (error_code_val resp =? NO_IK_SOLUTION)%Z
      then ret (mkIKSolution false [])
      else
        joints <- lift_option (extractJointPositions resp) ;;
        ret (mkIKSolution true joints)
  | OPEN_RAVE =>
      resp <- solveIKOpenRave target ;;
      ret (mkIKSolution (resp_success resp) (resp_solution resp))
  end.

(** *** [isCollisionFree] *)

Record Cylinder : Type := mkCylinder {
  cyl_r2 : D;          (* R * R *)
  cyl_c0 : Vec3 D;     (* upper cap *)
  cyl_c1 : Vec3 D;     (* lower cap *)
  cyl_c : Vec3 D;      (* midpoint of the axis *)
  cyl_n : Vec3 D;      (* normal of the supporting plane *)
  cyl_s : Vec3 D       (* point of the supporting plane *)
}.

Definition cylinder (pose_st : PoseStamped D) (approach : Vec3 D) : Cylinder :=
  let R := dlit 0.06 in
  let L := dlit 0.1 in
  let OFFSET := dlit 0.005 in
  let c0 := position (pose pose_st) in
  let c1 := vsub c0 (vscale L approach) in
  let c := vadd c0 (vscale (dlit 0.5) (vsub c1 c0)) in
  mkCylinder (R * R) c0 c1 c
             (vscale (dlit (-1)) approach)
             (vsub c (vscale OFFSET approach)).

(** The condition of the [if] in the loop over the cloud. *)
Definition inside_cylinder (cyl : Cylinder) (approach p : Vec3 D) : bool :=
  (vdot (cyl_n cyl) (vsub p (cyl_s cyl)) <? dlit 0)
  && (vdot approach (vsub p (cyl_c0 cyl)) <? dlit 0)
  && (vdot approach (vsub p (cyl_c1 cyl)) >? dlit 0)
  && (squaredNorm
        (vsub (vsub p (cyl_c cyl))
              (vscale (vdot (vsub p (cyl_c cyl)) approach) approach))
      <=? cyl_r2 cyl).

(** The loop over the cloud from a point on, with the counter [k]. *)
Fixpoint collision_scan (cyl : Cylinder) (approach : Vec3 D) (k : Z)
  (points : list (Vec3 D)) : bool :=
  match points with
  | [] => true
  | p :: rest =>
      if inside_cylinder cyl approach p then
        let k := int_wrap (k + 1) in
        if (k >? max_colliding_points_ params)%Z then false
        else collision_scan cyl approach k rest
      else collision_scan cyl approach k rest
  end.

Definition isCollisionFree (pose_st : PoseStamped D) (approach : Vec3 D) : bool :=
  collision_scan (cylinder pose_st approach) approach 0 (cloud_ self).

(** *** [selectFeasibleGrasps] *)

(** The calls of [selectFeasibleGrasps] to [solveIK] and [isCollisionFree],
    each recorded in the ghost trace. *)
Definition solveIK_traced (grasp_pose : PoseStamped D) : M D W (IKSolution D) :=
  ik <- solveIK grasp_pose (default_attempts self) (default_timeout self) ;;
  _ <- tell (EvSolveIK grasp_pose ik) ;;
  ret ik.

Definition isCollisionFree_traced (grasp_pose : PoseStamped D) (approach : Vec3 D)
  : M D W bool :=
  let free := isCollisionFree grasp_pose approach in
  _ <- tell (EvCollision grasp_pose approach free) ;;
  ret free.

(** [theta], the sampled angles. *)
Definition sample_angles : list D :=
  if (num_additional_grasps_ params >? 0)%Z
  then LinSpaced (1 + num_additional_grasps_ params) (dlit (-15)) (dlit 15)
  else [dlit 0].

(** The body of the loop over [k]: the state is the flag
    [is_collision_free] and the vector [grasps_selected]. *)
Definition orientation_body (i : Z) (grasp : Grasp D)
  (grasp_eigen_rot : GraspEigen D) (theta : D)
  (st : bool * list (GraspScored D)) (quat : Quaternion D)
  : M D W (bool * list (GraspScored D)) :=
  let '(is_collision_free, grasps_selected) := st in
  let grasp_pose := createGraspPose grasp_eigen_rot quat theta in
  ik_solution <- solveIK_traced grasp_pose ;;
  if negb (success_ ik_solution) then ret st
  else
    let grasp_scored :=
      mkGraspScored i grasp_pose (approach_ grasp_eigen_rot) (width grasp)
                    (joint_positions_ ik_solution) (dlit 0) in
    if negb is_collision_free then
      is_collision_free <-
        isCollisionFree_traced grasp_pose (approach_ grasp_eigen_rot) ;;
      if negb is_collision_free then ret (is_collision_free, grasps_selected)
      else ret (is_collision_free, grasps_selected ++ [grasp_scored])
    else ret (is_collision_free, grasps_selected ++ [grasp_scored]).

(** The body of the loop over [j]. *)
Definition angle_body (i : Z) (grasp : Grasp D) (grasp_eigen : GraspEigen D)
  (grasps_selected : list (GraspScored D)) (theta : D)
  : M D W (list (GraspScored D)) :=
  let grasp_eigen_rot := rotateGrasp grasp_eigen theta in
  quats <- lift_option (calculateHandOrientations grasp_eigen_rot) ;;
  st <- for_each (orientation_body i grasp grasp_eigen_rot theta) quats
                 (false, grasps_selected) ;;
  ret (snd st).

(** The body of the loop over [i]. *)
Definition candidate_body (i : Z) (grasps_selected : list (GraspScored D))
  (grasp : Grasp D) : M D W (list (GraspScored D)) :=
  if negb (isInWorkspace (vx (surface_center grasp)) (vy (surface_center grasp))
                         (vz (surface_center grasp)))
  then ret grasps_selected
  else if aperture_rejected (width grasp) then ret grasps_selected
  else
    let grasp_eigen := GraspEigen_of_msg grasp in
    for_each (angle_body i grasp grasp_eigen) sample_angles grasps_selected.

Definition selectFeasibleGrasps (grasps_in : list (Grasp D))
  : M D W (list (GraspScored D)) :=
  for_each_indexed candidate_body 0 grasps_in [].

End ReachingMethods.

(** * Vocabulary of the specification *)

(** The laws of [<], [<=] and [==] on [double] that the pre-filter relies
    on.  They hold of binary64 (NaN included) and of the reals. *)
Record OrderLaws (D : Type) (S : Scalar D) : Prop := mkOrderLaws {
  ltb_not_geb : forall x y : D, dltb x y = true -> dleb y x = false;
  ltb_leb : forall x y : D, dltb x y = true -> dleb x y = true;
  eqb_leb : forall x y : D, deqb x y = true -> dleb x y = true /\ dleb y x = true
}.

Section PrefilterVocabulary.
Context {D : Type} `{Scalar D} {W : Type}.
Variable self : Reaching D W.
Local Open Scope dbl_scope.

(** The point lies outside the workspace box on some axis. *)
Definition outside_workspace (p : Vec3 D) : Prop :=
  let ws := workspace_ (params_ self) in
  (vx p <? ws 0%nat) = true \/ (vx p >? ws 1%nat) = true \/
  (vy p <? ws 2%nat) = true \/ (vy p >? ws 3%nat) = true \/
  (vz p <? ws 4%nat) = true \/ (vz p >? ws 5%nat) = true.

(** [lo <= x <= hi], each bound reached or strictly passed. *)
Definition within_closed (lo x hi : D) : Prop :=
  ((lo <? x) = true \/ (x =? lo) = true) /\ ((x <? hi) = true \/ (x =? hi) = true).

Definition inside_workspace (p : Vec3 D) : Prop :=
  let ws := workspace_ (params_ self) in
  within_closed (ws 0%nat) (vx p) (ws 1%nat) /\
  within_closed (ws 2%nat) (vy p) (ws 3%nat) /\
  within_closed (ws 4%nat) (vz p) (ws 5%nat).

(** The candidate is rejected by the workspace test or the aperture test. *)
Definition prefiltered (g : Grasp D) : Prop :=
  outside_workspace (surface_center g)
  \/ (width g <? min_aperture_ (params_ self)) = true
  \/ (width g >? max_aperture_ (params_ self)) = true.

End PrefilterVocabulary.

Section OutputVocabulary.
Context {D : Type} `{Scalar D} `{Trig D} {W : Type}.
Variable self : Reaching D W.

(** The entry that [selectFeasibleGrasps] appends for candidate [i], the
    rotated frame [rot] of the angle [theta], the orientation [q] and the IK
    solution [ik]. *)
Definition scored (i : Z) (g : Grasp D) (rot : GraspEigen D) (theta : D)
  (q : Quaternion D) (ik : IKSolution D) : GraspScored D :=
  mkGraspScored i (createGraspPose self rot q theta) (approach_ rot) (width g)
                (joint_positions_ ik) (dlit 0).

(** The calls to [solveIK] in a trace, and the calls to the collision
    checker. *)
Definition is_ik_event (e : Event D) : bool :=
  match e with EvSolveIK _ _ => true | EvCollision _ _ _ => false end.

Definition is_collision_event (e : Event D) : bool :=
  match e with EvSolveIK _ _ => false | EvCollision _ _ _ => true end.

Definition ik_calls (tr : list (Event D)) : list (Event D) := filter is_ik_event tr.

Definition collision_calls (tr : list (Event D)) : list (Event D) :=
  filter is_collision_event tr.

End OutputVocabulary.

Section OrderingVocabulary.
Context {D : Type} `{Scalar D} `{Trig D} {W : Type}.
Variable self : Reaching D W.

(** The place of an output entry: candidate index, angle index, orientation
    index (0 is orientation A, 1 is orientation B). *)
Definition Key : Type := (nat * nat * nat)%type.

(** Candidate order, then angle order, then orientation order. *)
Definition key_lt (a b : Key) : Prop :=
  let '(i, j, o) := a in
  let '(i', j', o') := b in
  (i < i')%nat \/ (i = i' /\ ((j < j')%nat \/ (j = j' /\ (o < o')%nat))).

(** The candidate went through both pre-filters. *)
Definition passes_prefilter (g : Grasp D) : Prop :=
  isInWorkspace self (vx (surface_center g)) (vy (surface_center g))
                (vz (surface_center g)) = true
  /\ aperture_rejected self (width g) = false.

(** [e] is the entry of place [(i, j, o)]: built from candidate [i] of the
    batch, the [j]-th sampled angle, the [o]-th hand orientation of the
    rotated frame and a successful answer to the IK call on its pose, which
    the trace [tr] records. *)
Definition entry_of_key (grasps : list (Grasp D)) (tr : list (Event D))
  (k : Key) (e : GraspScored D) : Prop :=
  let '(i, j, o) := k in
  exists g theta quats q ik,
    nth_error grasps i = Some g
    /\ passes_prefilter g
    /\ nth_error (sample_angles self) j = Some theta
    /\ calculateHandOrientations self (rotateGrasp (GraspEigen_of_msg g) theta)
       = Some quats
    /\ nth_error quats o = Some q
    /\ (o < 2)%nat
    /\ success_ ik = true
    /\ In (EvSolveIK
             (createGraspPose self (rotateGrasp (GraspEigen_of_msg g) theta) q theta)
             ik) tr
    /\ e = scored self (Z.of_nat i) g (rotateGrasp (GraspEigen_of_msg g) theta)
                  theta q ik.

(** The output [out] is laid out along strictly increasing places. *)
Definition ordered_output (grasps : list (Grasp D)) (tr : list (Event D))
  (out : list (GraspScored D)) : Prop :=
  exists keys : list Key,
    Forall2 (entry_of_key grasps tr) keys out /\ StronglySorted key_lt keys.

(** The invariant of the three loops: the entries so far lie at increasing
    places, all before [bound]. *)
Definition laid_out_of (grasps : list (Grasp D)) (tr : list (Event D)) (bound : Key)
  (out : list (GraspScored D)) : Prop :=
  exists keys : list Key,
    Forall2 (entry_of_key grasps tr) keys out
    /\ StronglySorted key_lt keys
    /\ Forall (fun k => key_lt k bound) keys.

End OrderingVocabulary.

Section CollisionVocabulary.
Context {D : Type} `{Scalar D} {W : Type}.
Variable self : Reaching D W.

(** The number of cloud points inside the cylinder of a pose. *)
Definition count_inside (pose_st : PoseStamped D) (approach : Vec3 D) : nat :=
  length (filter (inside_cylinder (cylinder pose_st approach) approach) (cloud_ self)).

End CollisionVocabulary.

(** ** A concrete configuration: launch/select_grasps.launch *)

Section LaunchConfiguration.
Context {D : Type} `{Scalar D}.

Definition launch_parameters (lib : PlanningLibrary) : Parameters D :=
  mkParameters lib
    (fun i => nth i [dlit 0.6; dlit 1.0; dlit (-0.26); dlit 0.14; dlit (-0.23); dlit 1]
                  (dlit 0))
    (dlit 0.02) (dlit 0.07)
    0%Z
    (fun i => nth i [2%Z; 0%Z; 1%Z] 0%Z)
    (dlit 0.095)
    "/base" "right_arm" "right_gripper"
    1%Z
    8%Z 14%Z.

(** An IK service whose world counts the calls: the joint-space service
    answers with the status [code] and the joint vector [joints], the
    closed-form service with the flag [ok] and [joints]. *)
Definition counting_service (code : Z) (ok : bool) (joints : list D)
  : ServiceClient D nat :=
  mkServiceClient
    (fun w _ => (mkIKResponse code joints, S w))
    (fun w _ => (mkSolveIKResponse ok joints, S w))
    (fun w => Z.of_nat w).

Definition vec (x y z : Q) : Vec3 D := mkVec3 (dlit x) (dlit y) (dlit z).

End LaunchConfiguration.

(** A pose at the origin approached along -x and three cloud points on the
    axis of its cylinder, in binary64. *)
Definition example_cloud : list (Vec3 float) :=
  [vec 0.02 0 0; vec 0.5 0.5 0.5; vec 0.03 0 0.01; vec 0.04 0 0].

Definition example_reaching : Reaching float nat :=
  mkReaching (launch_parameters OPEN_RAVE) example_cloud
             (counting_service 1 true [dlit 0.1; dlit 0.2]) 1%Z (dlit 0.005).

Definition example_pose : PoseStamped float :=
  mkPoseStamped (mkHeader 0 "/base")
                (mkPose (vec 0 0 0) (mkQuat (dlit 0) (dlit 0) (dlit 0) (dlit 1))).

Definition example_approach : Vec3 float := vec (-1) 0 0.

(** A closed-form service that reports failure together with a joint
    vector, and the poses it is asked about. *)
Definition failing_openrave : Reaching float nat :=
  mkReaching (launch_parameters OPEN_RAVE) []
             (counting_service 1 false [dlit 0.5]) 1%Z (dlit 0.005).

(** A joint-space service that answers [SUCCESS] with a 17-joint robot
    state. *)
Definition example_joint_state : list float :=
  map (fun i => float_of_Z (Z.of_nat i)) (seq 0 17).

Definition example_moveit : Reaching float nat :=
  mkReaching (launch_parameters MOVE_IT) []
             (counting_service 1 true example_joint_state) 1%Z (dlit 0.005).

Section AxisOrderVocabulary.
Context {D : Type} `{Scalar D} {W : Type}.
Variable self : Reaching D W.

Definition axis_order_in_range : Prop :=
  forall i, (i < 3)%nat -> (0 <= axis_order_ (params_ self) i <= 2)%Z.

(** [axis_order_] maps 0, 1, 2 onto 0, 1, 2. *)
Definition axis_order_permutation : Prop :=
  axis_order_in_range
  /\ axis_order_ (params_ self) 0%nat <> axis_order_ (params_ self) 1%nat
  /\ axis_order_ (params_ self) 0%nat <> axis_order_ (params_ self) 2%nat
  /\ axis_order_ (params_ self) 1%nat <> axis_order_ (params_ self) 2%nat.

Definition axis_order_repeats : Prop :=
  exists i j, (i < j < 3)%nat
              /\ axis_order_ (params_ self) i = axis_order_ (params_ self) j.

(** Column [i] of the input, [i] in 0, 1, 2. *)
Definition input_col (Q : Mat3 D) (i : nat) : Vec3 D :=
  match i with 0%nat => col0 Q | 1%nat => col1 Q | _ => col2 Q end.

(** The last of the three assignments that writes column [c], if any. *)
Definition last_writer (c : Z) : option nat :=
  if (axis_order_ (params_ self) 2%nat =? c)%Z then Some 2%nat
  else if (axis_order_ (params_ self) 1%nat =? c)%Z then Some 1%nat
  else if (axis_order_ (params_ self) 0%nat =? c)%Z then Some 0%nat
  else None.

End AxisOrderVocabulary.

(** The launch configuration with the axis order 1, 1, 0. *)
Definition repeated_axis_order : Reaching float nat :=
  mkReaching
    (mkParameters OPEN_RAVE (fun _ => dlit 0) (dlit 0.02) (dlit 0.07) 0%Z
       (fun i => nth i [1%Z; 1%Z; 0%Z] 0%Z) (dlit 0.095)
       "/base" "right_arm" "right_gripper" 1%Z 8%Z 14%Z)
    [] (counting_service 1 true []) 1%Z (dlit 0.005).

Definition example_matrix : Mat3 float :=
  mkMat3 (vec 1 2 3) (vec 4 5 6) (vec 7 8 9).

(** ** Rotations in exact arithmetic *)

Definition vneg (v : Vec3 R) : Vec3 R := mkVec3 (- vx v)%R (- vy v)%R (- vz v)%R.

Definition deg_to_rad (theta : R) : R := (theta * (PI / 180))%R.

(** The rotation of [v] about the axis [k] by the angle [phi], in radians
    (Rodrigues' formula): [v cos phi + (k x v) sin phi + k (k.v) (1 - cos phi)]. *)
Definition rotate_about (k : Vec3 R) (phi : R) (v : Vec3 R) : Vec3 R :=
  vadd (vadd (vscale (cos phi) v) (vscale (sin phi) (vcross k v)))
       (vscale ((1 - cos phi) * vdot k v)%R k).

(** A frame and the identity orientation for [createGraspPose], in exact
    arithmetic. *)
Definition real_reaching : Reaching R nat :=
  mkReaching (launch_parameters OPEN_RAVE) [vec 0.8 0 0.03]
             (counting_service 1 true [dlit 0.1; dlit 0.2]) 1%Z (dlit 0.005).

Definition real_frame : GraspEigen R :=
  mkGraspEigen (vec 0.8 0 0) (vec 0 0 1) (vec 0 1 0) (vec 1 0 0).

Definition identity_quaternion : Quaternion R := mkQuat 0%R 0%R 0%R 1%R.

(** A candidate of the launch workspace whose surface center lies below the
    box, in exact arithmetic. *)
Definition low_grasp : Grasp R :=
  mkGrasp (vec 0.8 0 0) (vec 0.8 0 (-0.5)) (vec 0 0 1) (vec 0 1 0) (vec 1 0 0)
          (dlit 0.05).

Section ServiceVocabulary.
Context {D : Type} `{Scalar D} {W : Type}.
Variable self : Reaching D W.

(** The joint-space service upholds the boundary contract: an answer other
    than "no solution" carries a joint vector that covers the configured
    range. *)
Definition ik_responses_cover_range : Prop :=
  planning_lib_ (params_ self) = MOVE_IT ->
  forall w rq,
    error_code_val (fst (compute_ik (ik_service_ self) w rq)) <> NO_IK_SOLUTION ->
    extractJointPositions self (fst (compute_ik (ik_service_ self) w rq)) <> None.

(** The request that [solveIKMoveIt] sends. *)
Definition moveit_request (target : PoseStamped D) (attempts : Z) (timeout : D)
  (w : W) : GetPositionIK_Request D :=
  mkIKRequest (move_group_ (params_ self)) attempts timeout
    (mkPoseStamped (mkHeader (ros_time_now (ik_service_ self) w)
                             (frame_id (header target)))
                   (pose target))
    (arm_link_ (params_ self)) false.

End ServiceVocabulary.

(** A reachable candidate of the launch workspace, approached along z, and
    a cloud with two points inside the cylinder of its pose; the closed-form
    service answers every call with a solution.  In exact arithmetic. *)
Definition reachable_grasp : Grasp R :=
  mkGrasp (vec 0.8 0 0) (vec 0.8 0 0) (vec 0 0 1) (vec 0 1 0) (vec 1 0 0)
          (dlit 0.05).

Definition colliding_reaching : Reaching R nat :=
  mkReaching (launch_parameters OPEN_RAVE) [vec 0.8 0 0.1; vec 0.8 0 0.12]
             (counting_service 1 true [dlit 0.1; dlit 0.2]) 1%Z (dlit 0.005).


(** ** Variations of a configuration *)

(** The same object with another point cloud in [cloud_]. *)
Definition with_cloud {D W : Type} (self : Reaching D W) (cloud : list (Vec3 D))
  : Reaching D W :=
  mkReaching (params_ self) cloud (ik_service_ self)
             (default_attempts self) (default_timeout self).

(** The same object with another value of [max_colliding_points_]. *)
Definition with_max_colliding_points {D W : Type} (self : Reaching D W) (m : Z)
  : Reaching D W :=
  let p := params_ self in
  mkReaching
    (mkParameters (planning_lib_ p) (workspace_ p) (min_aperture_ p)
       (max_aperture_ p) (num_additional_grasps_ p) (axis_order_ p)
       (hand_offset_ p) (planning_frame_ p) (move_group_ p) (arm_link_ p)
       m (ik_first_joint_index_ p) (ik_last_joint_index_ p))
    (cloud_ self) (ik_service_ self) (default_attempts self) (default_timeout self).

(** The launch configuration with a negative tolerance, in binary64. *)
Definition negative_tolerance : Reaching float nat :=
  with_max_colliding_points example_reaching (-1).

(** The launch configuration with a prefix of the example cloud, in
    binary64. *)
Definition example_prefix : Reaching float nat :=
  with_cloud example_reaching (firstn 3 example_cloud).

(** A pose at the origin, approached along x, in exact arithmetic. *)
Definition origin_pose : PoseStamped R :=
  mkPoseStamped (mkHeader 0 "/base") (mkPose (vec 0 0 0) identity_quaternion).

Section RunVocabulary.
Context {D : Type} `{Scalar D} {W : Type}.
Variable self : Reaching D W.

(** The two pre-filters of the loop over the candidates, as one test. *)
Definition passes_prefilter_b (g : Grasp D) : bool :=
  isInWorkspace self (vx (surface_center g)) (vy (surface_center g))
                (vz (surface_center g))
  && negb (aperture_rejected self (width g)).

(** The number of rotated frames a batch is turned into: one per sampled
    angle for each candidate that passes the pre-filters. *)
Definition frames_of (grasps : list (Grasp D)) : nat :=
  length (filter passes_prefilter_b grasps) * length (sample_angles self).



End RunVocabulary.


Definition free_reaching : Reaching R nat :=
  mkReaching (launch_parameters OPEN_RAVE) []
             (counting_service 1 true [dlit 0.1; dlit 0.2]) 1%Z (dlit 0.005).

(** A joint-space service that times out ([TIMED_OUT] is -6) and returns no
    joints, in binary64. *)
Definition timed_out_moveit : Reaching float nat :=
  mkReaching (launch_parameters MOVE_IT) []
             (counting_service (-6) true []) 1%Z (dlit 0.005).

(** The calls to [solveIK] in a trace that found a solution. *)
Definition successful_ik_calls {D : Type} (tr : list (Event D)) : list (Event D) :=
  filter (fun e => match e with
                   | EvSolveIK _ ik => success_ ik
                   | EvCollision _ _ _ => false
                   end) tr.

(** An entry with its candidate index moved by [n]. *)
Definition shift_index {D : Type} (n : Z) (e : GraspScored D) : GraspScored D :=
  mkGraspScored (gs_index e + n) (gs_pose e) (gs_approach e) (gs_width e)
                (gs_joints e) (gs_score e).

(** The result of a loop that started from the entries [acc] at the index
    [i], as it comes out when the loop starts from [pre ++ map (shift_index n)
    acc] at the index [i + n]. *)
Definition moved_result {D W : Type} (pre : list (GraspScored D)) (n : Z)
  (r : option (list (GraspScored D) * RunState D W))
  : option (list (GraspScored D) * RunState D W) :=
  match r with
  | Some (out, st') => Some (pre ++ map (shift_index n) out, st')
  | None => None
  end.

(** ** The constructor: waiting for the IK service *)

(** The ROS node at startup, over a world [W]: whether a service of a name
    is advertised, and what a sleep of one second leaves of the world. *)
Record StartupNode (W : Type) : Type := mkStartupNode {
  service_exists : string -> W -> bool;
  sleep_one_second : W -> W
}.

(** The name of the service that [ik_service_] is made a client of. *)
Definition ik_service_name (lib : PlanningLibrary) : string :=
  match lib with
  | MOVE_IT => "/compute_ik"
  | OPEN_RAVE => "/ikfast_solver"
  end.

(** [while (!ik_service_.exists()) ros::Duration(1.0).sleep();] with at most
    [fuel] polls: the world when the loop is left and the number of sleeps,
    or nothing when the polls are used up. *)
Fixpoint wait_for_service {W : Type} (node : StartupNode W) (name : string)
  (fuel : nat) (w : W) : option (W * nat) :=
  match fuel with
  | O => None
  | S fuel' =>
      if service_exists node name w then Some (w, O)
      else match wait_for_service node name fuel' (sleep_one_second node w) with
           | Some (w', sleeps) => Some (w', S sleeps)
           | None => None
           end
  end.

(** The constructor [Reaching::Reaching], as far as it runs code. *)
Definition Reaching_constructor {D W : Type} (node : StartupNode W)
  (params : Parameters D) (fuel : nat) (w : W) : option (W * nat) :=
  wait_for_service node (ik_service_name (planning_lib_ params)) fuel w.

(** The world after [n] sleeps. *)
Fixpoint after_sleeps {W : Type} (node : StartupNode W) (n : nat) (w : W) : W :=
  match n with
  | O => w
  | S n' => after_sleeps node n' (sleep_one_second node w)
  end.

(** A node whose world is the time in seconds, on which the closed-form
    service comes up after three seconds. *)
Definition late_node : StartupNode nat :=
  mkStartupNode (fun name w => String.eqb name "/ikfast_solver" && (3 <=? w)%nat) S.

(** ** Frames and matrices in exact arithmetic *)

(** The three vectors have length 1 and are orthogonal to one another. *)
Definition orthonormal (u v w : Vec3 R) : Prop :=
  vdot u u = 1%R /\ vdot v v = 1%R /\ vdot w w = 1%R
  /\ vdot u v = 0%R /\ vdot u w = 0%R /\ vdot v w = 0%R.

(** The determinant of a matrix given by its columns. *)
Definition det3 (m : Mat3 R) : R := vdot (col0 m) (vcross (col1 m) (col2 m)).

(** [axis_order_] is one of the three cyclic permutations of 0, 1, 2. *)
Definition axis_order_cyclic {D W : Type} (self : Reaching D W) : Prop :=
  let ao := axis_order_ (params_ self) in
  (ao 0%nat = 0 /\ ao 1%nat = 1 /\ ao 2%nat = 2)%Z
  \/ (ao 0%nat = 1 /\ ao 1%nat = 2 /\ ao 2%nat = 0)%Z
  \/ (ao 0%nat = 2 /\ ao 1%nat = 0 /\ ao 2%nat = 1)%Z.

(** The launch configuration with the first two axes exchanged, in exact
    arithmetic. *)
Definition exchanged_axis_order : Reaching R nat :=
  mkReaching
    (mkParameters OPEN_RAVE (fun _ => dlit 0) (dlit 0.02) (dlit 0.07) 0%Z
       (fun i => nth i [1%Z; 0%Z; 2%Z] 0%Z) (dlit 0.095)
       "/base" "right_arm" "right_gripper" 1%Z 8%Z 14%Z)
    [] (counting_service 1 true []) 1%Z (dlit 0.005).

(** The launch configuration with the two apertures exchanged, in exact
    arithmetic: no width lies between 0.07 and 0.02. *)
Definition empty_aperture_interval : Reaching R nat :=
  mkReaching
    (mkParameters OPEN_RAVE
       (fun i => nth i [dlit 0.6; dlit 1.0; dlit (-0.26); dlit 0.14; dlit (-0.23); dlit 1]
                     (dlit 0))
       (dlit 0.07) (dlit 0.02) 0%Z
       (fun i => nth i [2%Z; 0%Z; 1%Z] 0%Z) (dlit 0.095)
       "/base" "right_arm" "right_gripper" 1%Z 8%Z 14%Z)
    [] (counting_service 1 true []) 1%Z (dlit 0.005).

(** ** The loop over the sampled angles *)

Section FrameVocabulary.
Context {D : Type} `{Scalar D} `{Trig D} {W : Type}.
Variable self : Reaching D W.


(** The rotated frame of the candidate [g] of index [i] and the angle
    [theta] was worked through by a run with the trace [tr] and the output
    [out]: [solveIK] was called on the poses of both hand orientations, and
    when the frame is collision-free every orientation whose IK call found a
    solution has its entry in the output. *)
Definition frame_worked (i : Z) (g : Grasp D) (theta : D)
  (tr : list (Event D)) (out : list (GraspScored D)) : Prop :=
  let rot := rotateGrasp (GraspEigen_of_msg g) theta in
  exists qa qb ika ikb,
    calculateHandOrientations self rot = Some [qa; qb]
    /\ let pa := createGraspPose self rot qa theta in
       let pb := createGraspPose self rot qb theta in
       In (EvSolveIK pa ika) tr /\ In (EvSolveIK pb ikb) tr
       /\ (isCollisionFree self pa (approach_ rot) = true ->
           (success_ ika = true -> In (scored self i g rot theta qa ika) out)
           /\ (success_ ikb = true -> In (scored self i g rot theta qb ikb) out)).

End FrameVocabulary.



(** A second reachable candidate of the launch workspace, narrower than the
    first, in exact arithmetic. *)
Definition far_grasp : Grasp R :=
  mkGrasp (vec 0.9 0.1 0) (vec 0.9 0.1 0) (vec 0 0 1) (vec 0 1 0) (vec 1 0 0)
          (dlit 0.03).

(** ** The second hand orientation, as the comment in the source has it *)

(** The matrix [m] turned by 180 degrees about the axis [k]: each of its
    columns rotated. *)
Definition half_turn_about (k : Vec3 R) (m : Mat3 R) : Mat3 R :=
  mkMat3 (rotate_about k PI (col0 m)) (rotate_about k PI (col1 m))
         (rotate_about k PI (col2 m)).

(** The second hand orientation that the comment in
    [calculateHandOrientations] announces ("rotate by 180deg around the grasp
    approach vector to get the opposite hand orientation"): the matrix of
    the first hand orientation turned by 180 degrees about the approach of the
    frame, then reordered, read as a quaternion and normalized as the code
    does with its own matrices. *)
Definition described_second_orientation {W : Type} (self : Reaching R W)
  (grasp : GraspEigen R) : option (Quaternion R) :=
  match reorderHandAxes self
          (half_turn_about (approach_ grasp) (first_hand_matrix grasp)) with
  | Some R2 => Some (normalize (getRotation R2))
  | None => None
  end.

(** * Properties *)

(** ** The order laws at the two instances *)

Lemma SFcompare_antisym (x y : spec_float) :
  SFcompare y x = option_map CompOpp (SFcompare x y).
Proof.
  destruct x as [s1|s1| |s1 m1 e1], y as [s2|s2| |s2 m2 e2]; simpl;
    try reflexivity; try (destruct s1; reflexivity); try (destruct s2; reflexivity);
    try (destruct s1, s2; reflexivity).
  destruct s1, s2; simpl; try reflexivity;
    rewrite (Z.compare_antisym e1 e2); destruct (e1 ?= e2)%Z; simpl; try reflexivity;
    repeat f_equal; exact (ZC4 m2 m1).
Qed.

Lemma float_order_laws : OrderLaws float_scalar.
Proof.
  constructor; simpl; intros x y.
  - rewrite ltb_spec, leb_spec. unfold SFltb, SFleb.
    rewrite (SFcompare_antisym (Prim2SF x) (Prim2SF y)).
    destruct (SFcompare (Prim2SF x) (Prim2SF y)) as [[]|]; simpl; congruence.
  - rewrite ltb_spec, leb_spec. unfold SFltb, SFleb.
    destruct (SFcompare (Prim2SF x) (Prim2SF y)) as [[]|]; simpl; congruence.
  - rewrite eqb_spec, !leb_spec. unfold SFeqb, SFleb.
    rewrite (SFcompare_antisym (Prim2SF x) (Prim2SF y)).
    destruct (SFcompare (Prim2SF x) (Prim2SF y)) as [[]|]; simpl;
      intros; try discriminate; split; reflexivity.
Qed.

Lemma Rltb_true (x y : R) : Rltb x y = true <-> (x < y)%R.
Proof. unfold Rltb. destruct (Rlt_dec x y); split; intros; try easy. Qed.

Lemma Rleb_true (x y : R) : Rleb x y = true <-> (x <= y)%R.
Proof. unfold Rleb. destruct (Rle_dec x y); split; intros; try easy. Qed.

Lemma Reqb_true (x y : R) : Reqb x y = true <-> x = y.
Proof. unfold Reqb. destruct (Req_dec_T x y); split; intros; try easy. Qed.

Lemma Rltb_false (x y : R) : Rltb x y = false <-> (y <= x)%R.
Proof. unfold Rltb. destruct (Rlt_dec x y); split; intros; try easy; lra. Qed.

Lemma Rleb_false (x y : R) : Rleb x y = false <-> (y < x)%R.
Proof. unfold Rleb. destruct (Rle_dec x y); split; intros; try easy; lra. Qed.

Lemma real_order_laws : OrderLaws real_scalar.
Proof.
  constructor; simpl; intros x y.
  - rewrite Rltb_true, Rleb_false. trivial.
  - rewrite Rltb_true, Rleb_true. lra.
  - rewrite Reqb_true, !Rleb_true. lra.
Qed.

(** ** The monad *)

Section MonadLemmas.
Context {D W : Type}.

Lemma bind_Some {A B} (c : M D W A) (k : A -> M D W B) s r :
  bind c k s = Some r <-> exists a s1, c s = Some (a, s1) /\ k a s1 = Some r.
Proof.
  unfold bind. destruct (c s) as [[a s1]|]; split.
  - intros Hk. exists a, s1. split; [reflexivity | exact Hk].
  - intros (a' & s1' & Heq & Hk). inversion Heq; subst. exact Hk.
  - discriminate.
  - intros (a' & s1' & Heq & _). discriminate.
Qed.

Lemma bind_eq {A B} (c : M D W A) (k : A -> M D W B) s a s1 :
  c s = Some (a, s1) -> bind c k s = k a s1.
Proof. unfold bind. intros ->. reflexivity. Qed.

Lemma bind_None {A B} (c : M D W A) (k : A -> M D W B) s :
  c s = None -> bind c k s = None.
Proof. unfold bind. intros ->. reflexivity. Qed.

Lemma for_each_app {A X} (body : A -> X -> M D W A) xs ys acc s :
  for_each body (xs ++ ys) acc s
  = match for_each body xs acc s with
    | Some (acc', s1) => for_each body ys acc' s1
    | None => None
    end.
Proof.
  revert acc s. induction xs as [|x xs IH]; intros acc s; simpl.
  - reflexivity.
  - unfold bind. destruct (body acc x s) as [[a s1]|]; [apply IH | reflexivity].
Qed.

End MonadLemmas.

Tactic Notation "inv_bind" hyp(H) "as" ident(a) ident(s1) ident(H1) :=
  apply bind_Some in H; destruct H as (a & s1 & H1 & H).

Ltac inv_ret H := unfold ret in H; inversion H; subst; clear H.

(** ** The loops of [selectFeasibleGrasps] *)

Section LoopLemmas.
Context {D : Type} `{Scalar D} `{Trig D} {W : Type}.
Variable self : Reaching D W.

Lemma solveIK_trace target a t st ik st1 :
  solveIK self target a t st = Some (ik, st1) -> trace st1 = trace st.
Proof.
  unfold solveIK, solveIKMoveIt, solveIKOpenRave, call_service, read_world.
  destruct (planning_lib_ (params_ self)); unfold bind; simpl.
  - destruct (compute_ik _ _ _) as [resp w'].
    destruct (error_code_val resp =? NO_IK_SOLUTION)%Z.
    + unfold ret. intros E; inversion E; reflexivity.
    + unfold lift_option. destruct (extractJointPositions self resp); [|discriminate].
      unfold ret. intros E; inversion E; reflexivity.
  - destruct (ikfast_solver _ _ _) as [resp w'].
    unfold ret. intros E; inversion E; reflexivity.
Qed.

(** One turn of the loop over the orientations, as a function of the answer
    of [solveIK]. *)
Lemma orientation_body_eq i g rot theta flag acc q st :
  let grasp_pose := createGraspPose self rot q theta in
  let free := isCollisionFree self grasp_pose (approach_ rot) in
  orientation_body self i g rot theta (flag, acc) q st =
  match solveIK self grasp_pose (default_attempts self) (default_timeout self) st with
  | None => None
  | Some (ik, st1) =>
      Some ((if success_ ik then flag || free else flag,
             acc ++ (if success_ ik && (flag || free)
                     then [scored self i g rot theta q ik] else [])),
            mkRunState (world st1)
              (trace st ++ [EvSolveIK grasp_pose ik]
                 ++ (if success_ ik && negb flag
                     then [EvCollision grasp_pose (approach_ rot) free] else [])))
  end.
Proof.
  intros grasp_pose free.
  unfold orientation_body, solveIK_traced, isCollisionFree_traced.
  fold grasp_pose. unfold bind at 1 2.
  destruct (solveIK self grasp_pose _ _ st) as [[ik st1]|] eqn:Eik; [|reflexivity].
  apply solveIK_trace in Eik. unfold tell at 1. simpl. unfold ret at 1.
  destruct (success_ ik); simpl.
  - destruct flag; simpl.
    + unfold ret. rewrite Eik. reflexivity.
    + unfold bind, tell, ret. simpl. fold free.
      destruct free; simpl; rewrite Eik, <- ?app_assoc, ?app_nil_r; reflexivity.
  - unfold ret. rewrite Eik, ?app_nil_r. reflexivity.
Qed.

(** The collision check reads the position of the pose and nothing else of
    it: the two orientations of a frame are checked against the same
    cylinder. *)
Lemma isCollisionFree_position p1 p2 a :
  position (pose p1) = position (pose p2) ->
  isCollisionFree self p1 a = isCollisionFree self p2 a.
Proof.
  intros E. unfold isCollisionFree, cylinder. rewrite E. reflexivity.
Qed.

Lemma createGraspPose_position rot q1 q2 theta :
  position (pose (createGraspPose self rot q1 theta))
  = position (pose (createGraspPose self rot q2 theta)).
Proof. reflexivity. Qed.

(** The loop over the two orientations of one rotated frame. *)
Lemma frame_loop_spec i g rot theta qa qb acc st res st' :
  let pa := createGraspPose self rot qa theta in
  let pb := createGraspPose self rot qb theta in
  let free := isCollisionFree self pa (approach_ rot) in
  for_each (orientation_body self i g rot theta) [qa; qb] (false, acc) st
    = Some (res, st') ->
  exists ika ikb sta stb,
    solveIK self pa (default_attempts self) (default_timeout self) st
      = Some (ika, sta)
    /\ solveIK self pb (default_attempts self) (default_timeout self)
         (mkRunState (world sta)
            (trace st ++ [EvSolveIK pa ika]
               ++ (if success_ ika then [EvCollision pa (approach_ rot) free] else [])))
      = Some (ikb, stb)
    /\ world st' = world stb
    /\ trace st' =
         trace st
         ++ ([EvSolveIK pa ika]
             ++ (if success_ ika then [EvCollision pa (approach_ rot) free] else []))
         ++ ([EvSolveIK pb ikb]
             ++ (if success_ ikb && negb (success_ ika && free)
                 then [EvCollision pb (approach_ rot) free] else []))
    /\ snd res =
         acc ++ (if success_ ika && free then [scored self i g rot theta qa ika] else [])
             ++ (if success_ ikb && free then [scored self i g rot theta qb ikb] else []).
Proof.
  intros pa pb free. cbn [for_each]. unfold bind at 1.
  rewrite orientation_body_eq. fold pa. fold free.
  destruct (solveIK self pa _ _ st) as [[ika sta]|] eqn:Ea; [|discriminate].
  unfold bind at 1. rewrite orientation_body_eq. fold pb.
  rewrite <- (isCollisionFree_position pa pb (approach_ rot)
                (createGraspPose_position rot qa qb theta)). fold free.
  cbn [world trace].
  match goal with |- context [solveIK self pb ?a ?t ?s] =>
    destruct (solveIK self pb a t s) as [[ikb stb]|] eqn:Eb; [|discriminate] end.
  unfold ret. intros E. inversion E; subst; clear E.
  exists ika, ikb, sta, stb. simpl.
  replace (success_ ika && negb false) with (success_ ika) in *
    by (destruct (success_ ika); reflexivity).
  split; [reflexivity|]. split; [exact Eb|]. split; [reflexivity|].
  split.
  - rewrite <- !app_assoc. simpl. repeat f_equal.
    destruct (success_ ika), (success_ ikb), free; reflexivity.
  - rewrite <- !app_assoc. f_equal.
    destruct (success_ ika), (success_ ikb), free; reflexivity.
Qed.

End LoopLemmas.

(** ** The layout of the output *)

Lemma StronglySorted_snoc {A} (R : A -> A -> Prop) l x :
  StronglySorted R l -> Forall (fun k => R k x) l -> StronglySorted R (l ++ [x]).
Proof.
  induction 1 as [|a l Hs IH Ha]; intros Hx; simpl.
  - constructor; constructor.
  - inversion Hx; subst. constructor.
    + apply IH. assumption.
    + apply Forall_app. split; [assumption | constructor; [assumption | constructor]].
Qed.

Section OrderingLemmas.
Context {D : Type} `{Scalar D} `{Trig D} {W : Type}.
Variable self : Reaching D W.
Variable grasps : list (Grasp D).

Local Abbreviation laid_out := (laid_out_of self grasps).

Lemma key_lt_trans a b c : key_lt a b -> key_lt b c -> key_lt a c.
Proof.
  destruct a as [[i j] o], b as [[i' j'] o'], c as [[i'' j''] o'']. simpl. lia.
Qed.

Lemma entry_of_key_mono tr evs k e :
  entry_of_key self grasps tr k e -> entry_of_key self grasps (tr ++ evs) k e.
Proof.
  destruct k as [[i j] o]. simpl.
  intros (g & theta & quats & q & ik & H1 & H2 & H3 & H4 & H5 & H6 & H7 & H8 & H9).
  exists g, theta, quats, q, ik. repeat (split; [assumption|]).
  split; [apply in_or_app; left; assumption | assumption].
Qed.

Lemma laid_out_weaken tr evs b b' out :
  (forall k, key_lt k b -> key_lt k b') ->
  laid_out tr b out -> laid_out (tr ++ evs) b' out.
Proof.
  intros Hb (keys & HF & HS & HB). exists keys. split; [|split].
  - eapply Forall2_impl; [|exact HF]. intros k e. apply entry_of_key_mono.
  - exact HS.
  - eapply Forall_impl; [|exact HB]. exact Hb.
Qed.

Lemma laid_out_snoc tr b b' out e :
  key_lt b b' ->
  laid_out tr b out -> entry_of_key self grasps tr b e ->
  laid_out tr b' (out ++ [e]).
Proof.
  intros Hb (keys & HF & HS & HB) He. exists (keys ++ [b]). split; [|split].
  - apply Forall2_app; [exact HF | constructor; [exact He | constructor]].
  - apply StronglySorted_snoc; assumption.
  - apply Forall_app. split.
    + eapply Forall_impl; [|exact HB]. intros k Hk. exact (key_lt_trans _ _ _ Hk Hb).
    + constructor; [exact Hb | constructor].
Qed.

Lemma calculateHandOrientations_two rot quats :
  calculateHandOrientations self rot = Some quats ->
  exists R1 R2,
    reorderHandAxes self (first_hand_matrix rot) = Some R1
    /\ reorderHandAxes self (second_hand_matrix rot) = Some R2
    /\ quats = [normalize (getRotation R1); normalize (getRotation R2)].
Proof.
  unfold calculateHandOrientations.
  destruct (reorderHandAxes self (first_hand_matrix rot)) as [R1|]; [|discriminate].
  destruct (reorderHandAxes self (second_hand_matrix rot)) as [R2|]; [|discriminate].
  intros E. inversion E. exists R1, R2. repeat split.
Qed.

(** One rotated frame: the loop over [k] inside the loop over [j]. *)
Lemma angle_body_laid_out i j g theta acc st out st' :
  nth_error grasps i = Some g ->
  passes_prefilter self g ->
  nth_error (sample_angles self) j = Some theta ->
  laid_out (trace st) (i, j, 0%nat) acc ->
  angle_body self (Z.of_nat i) g (GraspEigen_of_msg g) acc theta st = Some (out, st') ->
  laid_out (trace st') (i, S j, 0%nat) out
  /\ exists evs, trace st' = trace st ++ evs.
Proof.
  intros Hg Hp Ht Hinv Hrun. unfold angle_body in Hrun.
  inv_bind Hrun as quats0 s0 Hq0. unfold lift_option in Hq0.
  destruct (calculateHandOrientations self _) as [quats|] eqn:Ecalc; [|discriminate].
  inversion Hq0; subst; clear Hq0.
  destruct (calculateHandOrientations_two _ Ecalc) as (R1 & R2 & _ & _ & Hq).
  inv_bind Hrun as res s1 Hloop. rewrite Hq in Hloop. rewrite Hq in Ecalc.
  unfold ret in Hrun. injection Hrun as Hres Hst. rewrite <- Hres, <- Hst. clear Hres Hst.
  apply frame_loop_spec in Hloop.
  destruct Hloop as (ika & ikb & sta & stb & Ea & Eb & Hw & Htr & Hout).
  split; [|eexists; exact Htr].
  rewrite Hout, Htr.
  set (rot := rotateGrasp (GraspEigen_of_msg g) theta) in *.
  set (eva := [EvSolveIK _ ika] ++ _). set (evb := [EvSolveIK _ ikb] ++ _).
  assert (Ha : laid_out (trace s0 ++ eva) (i, j, 1%nat)
            (acc ++ (if success_ ika && isCollisionFree self
                        (createGraspPose self rot (normalize (getRotation R1)) theta)
                        (approach_ rot)
                     then [scored self (Z.of_nat i) g rot theta
                                  (normalize (getRotation R1)) ika] else []))).
  { destruct (success_ ika) eqn:Sa; simpl;
      [destruct (isCollisionFree self _ _); simpl|].
    - eapply laid_out_snoc with (b := (i, j, 0%nat)).
      + simpl. lia.
      + eapply laid_out_weaken; [|exact Hinv]. trivial.
      + simpl. exists g, theta, [normalize (getRotation R1); normalize (getRotation R2)],
          (normalize (getRotation R1)), ika.
        repeat (split; [first [assumption | reflexivity | lia]|]).
        split; [|reflexivity]. apply in_or_app. right. subst eva. left. reflexivity.
    - rewrite app_nil_r. eapply laid_out_weaken; [|exact Hinv].
      intros [[a b] c]; simpl; lia.
    - rewrite app_nil_r. eapply laid_out_weaken; [|exact Hinv].
      intros [[a b] c]; simpl; lia. }
  rewrite !app_assoc.
  destruct (success_ ikb) eqn:Sb; simpl;
    [destruct (isCollisionFree self _ _) eqn:Ef; simpl|].
  - eapply laid_out_snoc with (b := (i, j, 1%nat)).
    + simpl. lia.
    + eapply laid_out_weaken; [|exact Ha]. trivial.
    + simpl. exists g, theta, [normalize (getRotation R1); normalize (getRotation R2)],
        (normalize (getRotation R2)), ikb.
      repeat (split; [first [assumption | reflexivity | lia]|]).
      split; [|reflexivity]. apply in_or_app. right. subst evb. left. reflexivity.
  - rewrite app_nil_r. eapply laid_out_weaken; [|exact Ha].
    intros [[a b] c]; simpl; lia.
  - rewrite app_nil_r. eapply laid_out_weaken; [|exact Ha].
    intros [[a b] c]; simpl; lia.
Qed.

(** The loop over [j], from the angle of index [j0] on. *)
Lemma angles_loop_laid_out i g ths : forall j0 acc st out st',
  (forall n, nth_error ths n = nth_error (sample_angles self) (j0 + n)) ->
  nth_error grasps i = Some g ->
  passes_prefilter self g ->
  laid_out (trace st) (i, j0, 0%nat) acc ->
  for_each (angle_body self (Z.of_nat i) g (GraspEigen_of_msg g)) ths acc st
    = Some (out, st') ->
  laid_out (trace st') (i, (j0 + length ths)%nat, 0%nat) out
  /\ exists evs, trace st' = trace st ++ evs.
Proof.
  induction ths as [|theta ths IH]; intros j0 acc st out st' Hnth Hg Hp Hinv Hrun.
  - simpl in Hrun. inv_ret Hrun. rewrite Nat.add_0_r. split.
    + rewrite <- (app_nil_r (trace st')). eapply laid_out_weaken; [|exact Hinv]. trivial.
    + exists []. now rewrite app_nil_r.
  - cbn [for_each] in Hrun. inv_bind Hrun as acc1 s1 Hbody.
    assert (Ht : nth_error (sample_angles self) j0 = Some theta).
    { rewrite <- (Nat.add_0_r j0), <- Hnth. reflexivity. }
    edestruct angle_body_laid_out as (Hinv1 & evs1 & Htr1);
      [exact Hg | exact Hp | exact Ht | exact Hinv | exact Hbody |].
    destruct (IH (S j0) acc1 s1 out st') as (Hinv2 & evs2 & Htr2); try assumption.
    { intros n. replace (S j0 + n)%nat with (j0 + S n)%nat by lia. apply (Hnth (S n)). }
    split.
    + simpl length. rewrite Nat.add_succ_r. exact Hinv2.
    + exists (evs1 ++ evs2). rewrite Htr2, Htr1, app_assoc. reflexivity.
Qed.

(** One candidate: the body of the loop over [i]. *)
Lemma candidate_body_laid_out i g acc st out st' :
  nth_error grasps i = Some g ->
  laid_out (trace st) (i, 0%nat, 0%nat) acc ->
  candidate_body self (Z.of_nat i) acc g st = Some (out, st') ->
  laid_out (trace st') (S i, 0%nat, 0%nat) out
  /\ exists evs, trace st' = trace st ++ evs.
Proof.
  intros Hg Hinv Hrun. unfold candidate_body in Hrun.
  assert (Hskip : laid_out (trace st ++ []) (S i, 0%nat, 0%nat) acc).
  { eapply laid_out_weaken; [|exact Hinv]. intros [[a b] c]; simpl; lia. }
  rewrite app_nil_r in Hskip.
  destruct (isInWorkspace self _ _ _) eqn:Ews; simpl in Hrun.
  - destruct (aperture_rejected self (width g)) eqn:Eap.
    + inv_ret Hrun. split; [exact Hskip | exists []; now rewrite app_nil_r].
    + edestruct angles_loop_laid_out with (j0 := 0%nat) (ths := sample_angles self)
        as (Hinv1 & evs & Htr);
        [reflexivity | exact Hg | exact (conj Ews Eap) | exact Hinv | exact Hrun |].
      split; [|exists evs; exact Htr].
      rewrite <- (app_nil_r (trace st')). eapply laid_out_weaken; [|exact Hinv1].
      intros [[a b] c]; simpl; lia.
  - inv_ret Hrun. split; [exact Hskip | exists []; now rewrite app_nil_r].
Qed.

(** The loop over [i], from the candidate of index [i0] on. *)
Lemma candidates_loop_laid_out gs : forall i0 acc st out st',
  (forall n, nth_error gs n = nth_error grasps (i0 + n)) ->
  laid_out (trace st) (i0, 0%nat, 0%nat) acc ->
  for_each_indexed (candidate_body self) (Z.of_nat i0) gs acc st = Some (out, st') ->
  laid_out (trace st') ((i0 + length gs)%nat, 0%nat, 0%nat) out
  /\ exists evs, trace st' = trace st ++ evs.
Proof.
  induction gs as [|g gs IH]; intros i0 acc st out st' Hnth Hinv Hrun.
  - simpl in Hrun. inv_ret Hrun. rewrite Nat.add_0_r.
    split; [exact Hinv | exists []; now rewrite app_nil_r].
  - cbn [for_each_indexed] in Hrun. inv_bind Hrun as acc1 s1 Hbody.
    assert (Hg : nth_error grasps i0 = Some g).
    { rewrite <- (Nat.add_0_r i0), <- Hnth. reflexivity. }
    edestruct candidate_body_laid_out as (Hinv1 & evs1 & Htr1);
      [exact Hg | exact Hinv | exact Hbody |].
    replace (Z.of_nat i0 + 1)%Z with (Z.of_nat (S i0)) in Hrun by lia.
    destruct (IH (S i0) acc1 s1 out st') as (Hinv2 & evs2 & Htr2); try assumption.
    { intros n. replace (S i0 + n)%nat with (i0 + S n)%nat by lia. apply (Hnth (S n)). }
    split.
    + simpl length. rewrite Nat.add_succ_r. exact Hinv2.
    + exists (evs1 ++ evs2). rewrite Htr2, Htr1, app_assoc. reflexivity.
Qed.

End OrderingLemmas.

Section OutputLayout.
Context {D : Type} `{Scalar D} `{Trig D} {W : Type}.
Variable self : Reaching D W.

(** The output of a run lies along strictly increasing places of the batch,
    and the run only adds to the trace. *)
Lemma selectFeasibleGrasps_layout grasps st out st' :
  selectFeasibleGrasps self grasps st = Some (out, st') ->
  ordered_output self grasps (trace st') out
  /\ exists evs, trace st' = trace st ++ evs.
Proof.
  intros Hrun. unfold selectFeasibleGrasps in Hrun.
  assert (Hinit : laid_out_of self grasps (trace st) (0%nat, 0%nat, 0%nat) []).
  { exists []. repeat split; constructor. }
  destruct (@candidates_loop_laid_out D _ _ W self grasps grasps 0%nat [] st out st'
              (fun n => eq_refl) Hinit Hrun) as ((keys & HF & HS & _) & Hevs).
  split; [exists keys; split; assumption | exact Hevs].
Qed.

End OutputLayout.

(** ** One rotated frame: IK calls and collision checks *)

Section FrameLemmas.
Context {D : Type} `{Scalar D} `{Trig D} {W : Type}.
Variable self : Reaching D W.

(** What the loop over the two orientations of a frame does, in full. *)
Lemma angle_body_spec i g ge acc theta st out st' :
  angle_body self i g ge acc theta st = Some (out, st') ->
  let rot := rotateGrasp ge theta in
  exists qa qb ika ikb sta stb,
    calculateHandOrientations self rot = Some [qa; qb]
    /\ let pa := createGraspPose self rot qa theta in
       let pb := createGraspPose self rot qb theta in
       let free := isCollisionFree self pa (approach_ rot) in
       let eva := [EvSolveIK pa ika]
                  ++ (if success_ ika then [EvCollision pa (approach_ rot) free]
                      else []) in
       let evb := [EvSolveIK pb ikb]
                  ++ (if success_ ikb && negb (success_ ika && free)
                      then [EvCollision pb (approach_ rot) free] else []) in
       solveIK self pa (default_attempts self) (default_timeout self) st
         = Some (ika, sta)
       /\ solveIK self pb (default_attempts self) (default_timeout self)
            (mkRunState (world sta) (trace st ++ eva)) = Some (ikb, stb)
       /\ isCollisionFree self pb (approach_ rot) = free
       /\ trace st' = trace st ++ eva ++ evb
       /\ out = acc
                ++ (if success_ ika && free
                    then [scored self i g rot theta qa ika] else [])
                ++ (if success_ ikb && free
                    then [scored self i g rot theta qb ikb] else []).
Proof.
  intros Hrun rot. unfold angle_body in Hrun. fold rot in Hrun.
  inv_bind Hrun as quats s0 Hq. unfold lift_option in Hq.
  destruct (calculateHandOrientations self rot) as [quats'|] eqn:Ecalc; [|discriminate].
  inversion Hq; subst quats' s0; clear Hq.
  destruct (calculateHandOrientations_two self rot Ecalc) as (R1 & R2 & _ & _ & Hqs).
  inv_bind Hrun as res s1 Hloop. rewrite Hqs in Hloop.
  unfold ret in Hrun. injection Hrun as Hres Hst. subst out st'.
  apply frame_loop_spec in Hloop. fold rot in Hloop.
  destruct Hloop as (ika & ikb & sta & stb & Ea & Eb & _ & Htr & Hout).
  exists (normalize (getRotation R1)), (normalize (getRotation R2)), ika, ikb, sta, stb.
  split; [rewrite <- Hqs; reflexivity|].
  cbv zeta. split; [exact Ea|]. split; [exact Eb|].
  split; [symmetry; apply isCollisionFree_position, createGraspPose_position|].
  split; [exact Htr | exact Hout].
Qed.

End FrameLemmas.

(** ** The loop over the sampled angles, frame by frame *)

Section AngleLoop.
Context {D : Type} `{Scalar D} `{Trig D} {W : Type}.
Variable self : Reaching D W.




(** What was worked through stays so when the run goes on. *)

Lemma frame_worked_mono i g theta tr out vs es :
  frame_worked self i g theta tr out ->
  frame_worked self i g theta (tr ++ vs) (out ++ es).
Proof.
  intros (qa & qb & ika & ikb & Hq & Ha & Hb & Hemit).
  exists qa, qb, ika, ikb. split; [exact Hq|]. cbv zeta.
  split; [apply in_or_app; left; exact Ha|].
  split; [apply in_or_app; left; exact Hb|].
  intros Hfree. destruct (Hemit Hfree) as (Ea & Eb).
  split; intros Hs; apply in_or_app; left; auto.
Qed.

Lemma angle_body_worked i g acc theta st out st' :
  angle_body self i g (GraspEigen_of_msg g) acc theta st = Some (out, st') ->
  (exists es vs, out = acc ++ es /\ trace st' = trace st ++ vs)
  /\ frame_worked self i g theta (trace st') out.
Proof.
  intros Hrun.
  destruct (angle_body_spec self i g (GraspEigen_of_msg g) acc theta st Hrun)
    as (qa & qb & ika & ikb & sta & stb & Hq & _ & _ & _ & Htr & Hout).
  split; [eexists _, _; split; [exact Hout | exact Htr]|].
  exists qa, qb, ika, ikb. split; [exact Hq|]. cbv zeta.
  rewrite Htr, Hout.
  split; [apply in_or_app; right; apply in_or_app; left; left; reflexivity|].
  split; [apply in_or_app; right; apply in_or_app; right; left; reflexivity|].
  intros Hfree. rewrite Hfree.
  split; intros Hs; rewrite Hs; cbn [andb];
    apply in_or_app; right; apply in_or_app.
  - left. left. reflexivity.
  - right. left. reflexivity.
Qed.

Lemma angles_loop_worked i g ths : forall acc st out st',
  for_each (angle_body self i g (GraspEigen_of_msg g)) ths acc st = Some (out, st') ->
  (exists es vs, out = acc ++ es /\ trace st' = trace st ++ vs)
  /\ forall j theta, nth_error ths j = Some theta ->
       frame_worked self i g theta (trace st') out.
Proof.
  induction ths as [|theta ths IH]; intros acc st out st' Hrun.
  - simpl in Hrun. unfold ret in Hrun. injection Hrun as <- <-. split.
    + exists [], []. now rewrite !app_nil_r.
    + intros [|j] t Hj; discriminate.
  - cbn [for_each] in Hrun. inv_bind Hrun as acc1 s1 Hbody.
    destruct (angle_body_worked _ _ _ _ _ Hbody) as ((e1 & v1 & Ho1 & Ht1) & Hw1).
    destruct (IH _ _ _ _ Hrun) as ((e2 & v2 & Ho2 & Ht2) & Hw2).
    split.
    + exists (e1 ++ e2), (v1 ++ v2). rewrite Ho2, Ho1, Ht2, Ht1, <- !app_assoc.
      split; reflexivity.
    + intros [|j] t Hj.
      * injection Hj as <-. rewrite Ho2, Ht2. apply frame_worked_mono. exact Hw1.
      * exact (Hw2 j t Hj).
Qed.

Lemma candidate_body_worked i acc g st out st' :
  candidate_body self i acc g st = Some (out, st') ->
  (exists es vs, out = acc ++ es /\ trace st' = trace st ++ vs)
  /\ (passes_prefilter self g ->
      forall j theta, nth_error (sample_angles self) j = Some theta ->
        frame_worked self i g theta (trace st') out).
Proof.
  intros Hrun. unfold candidate_body in Hrun.
  assert (Hskip : ret acc st = Some (out, st') ->
            (exists es vs, out = acc ++ es /\ trace st' = trace st ++ vs)).
  { unfold ret. intros E. injection E as <- <-. exists [], []. now rewrite !app_nil_r. }
  destruct (isInWorkspace self _ _ _) eqn:Ews; cbn [negb] in Hrun.
  - destruct (aperture_rejected self (width g)) eqn:Eap.
    + split; [exact (Hskip Hrun)|]. intros [_ Hap]. congruence.
    + destruct (angles_loop_worked _ _ _ _ _ Hrun) as (Hmono & Hw).
      split; [exact Hmono|]. intros _. exact Hw.
  - split; [exact (Hskip Hrun)|]. intros [Hws _]. congruence.
Qed.

Lemma candidates_loop_worked gs : forall i0 acc st out st',
  for_each_indexed (candidate_body self) i0 gs acc st = Some (out, st') ->
  (exists es vs, out = acc ++ es /\ trace st' = trace st ++ vs)
  /\ forall n g, nth_error gs n = Some g -> passes_prefilter self g ->
     forall j theta, nth_error (sample_angles self) j = Some theta ->
       frame_worked self (i0 + Z.of_nat n) g theta (trace st') out.
Proof.
  induction gs as [|g0 gs IH]; intros i0 acc st out st' Hrun.
  - simpl in Hrun. unfold ret in Hrun. injection Hrun as <- <-. split.
    + exists [], []. now rewrite !app_nil_r.
    + intros [|n] g Hn; discriminate.
  - cbn [for_each_indexed] in Hrun. inv_bind Hrun as acc1 s1 Hbody.
    destruct (candidate_body_worked _ _ _ _ Hbody) as ((e1 & v1 & Ho1 & Ht1) & Hw1).
    destruct (IH _ _ _ _ _ Hrun) as ((e2 & v2 & Ho2 & Ht2) & Hw2).
    split.
    + exists (e1 ++ e2), (v1 ++ v2). rewrite Ho2, Ho1, Ht2, Ht1, <- !app_assoc.
      split; reflexivity.
    + intros [|n] g Hn Hp j theta Hj.
      * injection Hn as <-. rewrite Ho2, Ht2. apply frame_worked_mono.
        replace (i0 + Z.of_nat 0)%Z with i0 by lia. exact (Hw1 Hp j theta Hj).
      * replace (i0 + Z.of_nat (S n))%Z with (i0 + 1 + Z.of_nat n)%Z by lia.
        exact (Hw2 n g Hn Hp j theta Hj).
Qed.

End AngleLoop.

(** ** [isCollisionFree] *)

Lemma int_wrap_small z : (INT_MIN <= z <= INT_MAX)%Z -> int_wrap z = z.
Proof.
  unfold INT_MIN, INT_MAX, int_wrap. intros Hz.
  rewrite Z.mod_small; lia.
Qed.

Section CollisionLemmas.
Context {D : Type} `{Scalar D} {W : Type}.
Variable self : Reaching D W.

(** The scan from a counter [k] on: it answers [false] exactly when, with
    the points still to come, the count passes the maximum. *)
Lemma collision_scan_false_iff cyl a points : forall k,
  (0 <= k <= max_colliding_points_ (params_ self))%Z ->
  (k + Z.of_nat (length (filter (inside_cylinder cyl a) points)) <= INT_MAX)%Z ->
  collision_scan self cyl a k points = false
  <-> (k + Z.of_nat (length (filter (inside_cylinder cyl a) points))
       > max_colliding_points_ (params_ self))%Z.
Proof.
  induction points as [|p rest IH]; intros k Hk Hmax; simpl in *.
  - split; [discriminate | lia].
  - destruct (inside_cylinder cyl a p); simpl in *.
    + rewrite int_wrap_small by (unfold INT_MIN; lia).
      destruct (k + 1 >? max_colliding_points_ (params_ self))%Z eqn:E.
      * apply Z.gtb_lt in E. split; [lia | reflexivity].
      * assert (k + 1 <= max_colliding_points_ (params_ self))%Z
          by (rewrite Z.gtb_ltb in E; apply Z.ltb_ge in E; exact E).
        rewrite IH by lia. lia.
    + apply IH; assumption.
Qed.

Lemma filter_length_le {A} (f : A -> bool) l : (length (filter f l) <= length l)%nat.
Proof.
  induction l as [|x l IH]; simpl; [lia|]. destruct (f x); simpl; lia.
Qed.

End CollisionLemmas.

(** C2.  [isCollisionFree] answers [false] exactly when the number of cloud
    points that satisfy the inside-cylinder test of the loop exceeds
    [max_colliding_points_] (a tolerated count, so not negative; the cloud is
    one the [int] loop index can walk); a count equal to the maximum is
    collision-free; and an empty cloud is always collision-free. *)
Theorem isCollisionFree_threshold {D : Type} `{Scalar D} {W : Type}
  (self : Reaching D W) (pose_st : PoseStamped D) (approach : Vec3 D) :
  ((0 <= max_colliding_points_ (params_ self))%Z ->
   (Z.of_nat (length (cloud_ self)) <= INT_MAX)%Z ->
   (isCollisionFree self pose_st approach = false
    <-> (Z.of_nat (count_inside self pose_st approach)
         > max_colliding_points_ (params_ self))%Z)
   /\ (Z.of_nat (count_inside self pose_st approach)
       = max_colliding_points_ (params_ self) ->
       isCollisionFree self pose_st approach = true))
  /\ (cloud_ self = [] -> isCollisionFree self pose_st approach = true).
Proof.
  split.
  - intros Hmax Hlen.
    assert (Hiff : isCollisionFree self pose_st approach = false
                   <-> (Z.of_nat (count_inside self pose_st approach)
                        > max_colliding_points_ (params_ self))%Z).
    { unfold isCollisionFree, count_inside.
      rewrite collision_scan_false_iff.
      - rewrite Z.add_0_l. reflexivity.
      - lia.
      - pose proof (filter_length_le
                      (inside_cylinder (cylinder pose_st approach) approach)
                      (cloud_ self)).
        lia. }
    split; [exact Hiff|].
    intros Heq. destruct (isCollisionFree self pose_st approach) eqn:E; [reflexivity|].
    destruct Hiff as [Hf _]. specialize (Hf eq_refl). lia.
  - intros Hempty. unfold isCollisionFree. rewrite Hempty. reflexivity.
Qed.

(** Three of the four example points are inside; the launch file tolerates
    one. *)
Lemma isCollisionFree_threshold_witness :
  isCollisionFree example_reaching example_pose example_approach = false
  <-> (Z.of_nat (count_inside example_reaching example_pose example_approach)
       > max_colliding_points_ (params_ example_reaching))%Z.
Proof.
  apply (proj1 (isCollisionFree_threshold example_reaching example_pose
                  example_approach)).
  - vm_compute. discriminate.
  - vm_compute. discriminate.
Defined.

(** ** [solveIK] *)

Section SolveIKLemmas.
Context {D : Type} `{Scalar D} {W : Type}.
Variable self : Reaching D W.

Lemma solveIK_moveit target attempts timeout st :
  planning_lib_ (params_ self) = MOVE_IT ->
  let '(resp, w') := compute_ik (ik_service_ self) (world st)
                       (moveit_request self target attempts timeout (world st)) in
  solveIK self target attempts timeout st =
  if (error_code_val resp =? NO_IK_SOLUTION)%Z
  then Some (mkIKSolution false [], mkRunState w' (trace st))
  else match extractJointPositions self resp with
       | Some joints => Some (mkIKSolution true joints, mkRunState w' (trace st))
       | None => None
       end.
Proof.
  intros Hlib. unfold solveIK, solveIKMoveIt, moveit_request. rewrite Hlib.
  unfold bind, read_world, call_service. cbn [world trace].
  destruct (compute_ik _ _ _) as [resp w'].
  destruct (error_code_val resp =? NO_IK_SOLUTION)%Z; [reflexivity|].
  unfold lift_option. destruct (extractJointPositions self resp); reflexivity.
Qed.

Lemma solveIK_openrave target attempts timeout st :
  planning_lib_ (params_ self) = OPEN_RAVE ->
  let '(resp, w') := ikfast_solver (ik_service_ self) (world st) (pose target) in
  solveIK self target attempts timeout st =
  Some (mkIKSolution (resp_success resp) (resp_solution resp),
        mkRunState w' (trace st)).
Proof.
  intros Hlib. unfold solveIK, solveIKOpenRave. rewrite Hlib.
  unfold bind, call_service.
  destruct (ikfast_solver _ _ _) as [resp w']. reflexivity.
Qed.

(** What [extractJointPositions] returns is the range [first .. last] of
    the joint vector. *)
Lemma extractJointPositions_range resp joints :
  extractJointPositions self resp = Some joints ->
  let first := ik_first_joint_index_ (params_ self) in
  let last := ik_last_joint_index_ (params_ self) in
  (0 <= first)%Z /\ (first - 1 <= last)%Z
  /\ (last < Z.of_nat (length (joint_state_position resp)))%Z
  /\ Z.of_nat (length joints) = (last - first + 1)%Z
  /\ forall i, (i < length joints)%nat ->
       nth_error joints i = nth_error (joint_state_position resp) (Z.to_nat first + i).
Proof.
  unfold extractJointPositions, int_checked. cbv zeta.
  set (first := ik_first_joint_index_ (params_ self)).
  set (last := ik_last_joint_index_ (params_ self)).
  destruct ((INT_MIN <=? last - first) && (last - first <=? INT_MAX))%Z; [|discriminate].
  destruct ((INT_MIN <=? last - first + 1) && (last - first + 1 <=? INT_MAX))%Z;
    [|discriminate].
  destruct ((0 <=? first) && (0 <=? last - first + 1)
            && (first + (last - first + 1)
                <=? Z.of_nat (length (joint_state_position resp))))%Z eqn:E;
    [|discriminate].
  apply andb_prop in E. destruct E as [E E3]. apply andb_prop in E. destruct E as [E1 E2].
  apply Z.leb_le in E1, E2, E3.
  intros Hj. inversion Hj; subst joints; clear Hj.
  assert (Hlen : length (firstn (Z.to_nat (last - first + 1))
                           (skipn (Z.to_nat first) (joint_state_position resp)))
                 = Z.to_nat (last - first + 1)).
  { rewrite length_firstn, length_skipn. lia. }
  repeat split; try lia.
  intros i Hi. rewrite Hlen in Hi.
  rewrite nth_error_firstn.
  destruct (Nat.ltb_spec i (Z.to_nat (last - first + 1))); [|lia].
  apply nth_error_skipn.
Qed.

End SolveIKLemmas.

(** C3, as the code has it.  The joint-space backend fails, with no joints,
    exactly when the response carries [NO_IK_SOLUTION]; on any other status
    it succeeds with the range [first .. last] of the response's joint
    vector, so for it a failure has no joints.  The closed-form backend hands
    on the flag and the vector of the response as they are. *)
Theorem solveIK_backends {D : Type} `{Scalar D} {W : Type} (self : Reaching D W)
  (target : PoseStamped D) (attempts : Z) (timeout : D) (st : RunState D W) :
  (planning_lib_ (params_ self) = MOVE_IT ->
   let answer := compute_ik (ik_service_ self) (world st)
                   (moveit_request self target attempts timeout (world st)) in
   let resp := fst answer in
   let st' := mkRunState (snd answer) (trace st) in
   (error_code_val resp = NO_IK_SOLUTION ->
    solveIK self target attempts timeout st = Some (mkIKSolution false [], st'))
   /\ (error_code_val resp <> NO_IK_SOLUTION ->
       forall joints, extractJointPositions self resp = Some joints ->
       solveIK self target attempts timeout st = Some (mkIKSolution true joints, st')
       /\ Z.of_nat (length joints)
          = (ik_last_joint_index_ (params_ self)
             - ik_first_joint_index_ (params_ self) + 1)%Z
       /\ forall i, (i < length joints)%nat ->
            nth_error joints i
            = nth_error (joint_state_position resp)
                (Z.to_nat (ik_first_joint_index_ (params_ self)) + i))
   /\ (forall ik st1, solveIK self target attempts timeout st = Some (ik, st1) ->
       (success_ ik = false <-> error_code_val resp = NO_IK_SOLUTION)
       /\ (success_ ik = false -> joint_positions_ ik = [])))
  /\ (planning_lib_ (params_ self) = OPEN_RAVE ->
      let answer := ikfast_solver (ik_service_ self) (world st) (pose target) in
      solveIK self target attempts timeout st
      = Some (mkIKSolution (resp_success (fst answer)) (resp_solution (fst answer)),
              mkRunState (snd answer) (trace st))).
Proof.
  split.
  - intros Hlib. pose proof (solveIK_moveit self target attempts timeout st Hlib) as Hs.
    destruct (compute_ik _ _ _) as [resp w']. cbn [fst snd].
    destruct (Z.eqb_spec (error_code_val resp) NO_IK_SOLUTION) as [Hno|Hyes].
    + split; [intros _; exact Hs|]. split; [intros Hc; contradiction|].
      intros ik st1 Hrun. rewrite Hs in Hrun. inversion Hrun; subst. simpl.
      split; [split; trivial | trivial].
    + split; [intros Hc; contradiction|]. split.
      * intros _ joints Hj. rewrite Hj in Hs. split; [exact Hs|].
        destruct (extractJointPositions_range self resp Hj) as (_ & _ & _ & Hl & Hn).
        split; assumption.
      * intros ik st1 Hrun. rewrite Hs in Hrun.
        destruct (extractJointPositions self resp); [|discriminate].
        inversion Hrun; subst. simpl.
        split; [split; [discriminate | contradiction] | discriminate].
  - intros Hlib. pose proof (solveIK_openrave self target attempts timeout st Hlib) as Hs.
    destruct (ikfast_solver _ _ _) as [resp w']. exact Hs.
Qed.

(** The launch file's range 8 .. 14 out of a 17-joint answer. *)
Lemma solveIK_backends_witness :
  solveIK example_moveit example_pose 1 (dlit 0.005) (mkRunState 0%nat [])
  = Some (mkIKSolution true (map float_of_Z [8; 9; 10; 11; 12; 13; 14]%Z),
          mkRunState 1%nat []).
Proof.
  apply (proj1 (proj1 (proj2 (proj1
           (solveIK_backends example_moveit example_pose 1 (dlit 0.005)
              (mkRunState 0%nat [])) eq_refl))
           ltac:(vm_compute; discriminate) _ eq_refl)).
Defined.

(** C3, as stated, fails: the closed-form backend returns a failure with a
    joint vector when the service answers so. *)
Lemma solveIK_joints_not_empty_on_failure :
  exists ik st',
    solveIK failing_openrave example_pose 1 (dlit 0.005) (mkRunState 0%nat [])
    = Some (ik, st')
    /\ ~ (joint_positions_ ik = [] <-> success_ ik = false).
Proof.
  exists (mkIKSolution false [dlit 0.5]), (mkRunState 1%nat []).
  split; [reflexivity|].
  simpl. intros [_ Hempty]. specialize (Hempty eq_refl). discriminate.
Qed.

(** ** [reorderHandAxes] *)

Section ReorderLemmas.
Context {D : Type} `{Scalar D} {W : Type}.
Variable self : Reaching D W.

Ltac axis_cases H i :=
  let Hi := fresh "Hao" in
  pose proof (H i ltac:(lia)) as Hi;
  let a := fresh "a" in
  let E := fresh "Ea" in
  remember (axis_order_ (params_ self) i) as a eqn:E;
  assert (a = 0 \/ a = 1 \/ a = 2)%Z as [-> | [-> | ->]] by lia.

(** With the three indices in range, the result exists, and each of its
    columns is the input column written there last, or zero. *)
Lemma reorderHandAxes_columns (Q : Mat3 D) :
  axis_order_in_range self ->
  exists R, reorderHandAxes self Q = Some R
    /\ forall c, (0 <= c <= 2)%Z ->
         get_col R c = Some (match last_writer self c with
                             | Some i => input_col Q i
                             | None => vzero
                             end).
Proof.
  intros Hr. unfold reorderHandAxes, last_writer.
  axis_cases Hr 0%nat; axis_cases Hr 1%nat; axis_cases Hr 2%nat;
    (eexists; split; [reflexivity|]);
    intros c Hc; assert (c = 0 \/ c = 1 \/ c = 2)%Z as [-> | [-> | ->]] by lia;
    reflexivity.
Qed.

End ReorderLemmas.

(** C10.  [reorderHandAxes] starts from the zero matrix and writes input
    column [i] to column [axis_order_[i]], for [i] = 0, 1, 2 in turn.  When
    [axis_order_] is a permutation of 0, 1, 2 the columns of the result are
    the input columns, permuted.  Nothing is validated: with a repeated index
    the function still returns a matrix, one column of which is all zero and
    one of which was overwritten by a later input column. *)
Theorem reorderHandAxes_permutes_or_overwrites {D : Type} `{Scalar D} {W : Type}
  (self : Reaching D W) (Q : Mat3 D) :
  let ao := axis_order_ (params_ self) in
  (axis_order_permutation self ->
   exists R, reorderHandAxes self Q = Some R
     /\ forall i, (i < 3)%nat -> get_col R (ao i) = Some (input_col Q i))
  /\ (axis_order_in_range self -> axis_order_repeats self ->
      exists R, reorderHandAxes self Q = Some R
        /\ (exists c, (0 <= c <= 2)%Z /\ get_col R c = Some vzero)
        /\ (exists i k, (i < k < 3)%nat /\ ao i = ao k
                        /\ get_col R (ao i) = Some (input_col Q k))).
Proof.
  intros ao. split.
  - intros (Hr & H01 & H02 & H12). fold ao in H01, H02, H12.
    destruct (reorderHandAxes_columns Q Hr) as (R & HR & Hcols).
    exists R. split; [exact HR|]. intros i Hi.
    rewrite (Hcols (ao i)) by (apply Hr; exact Hi).
    unfold last_writer. fold ao.
    assert (i = 0 \/ i = 1 \/ i = 2)%nat as [-> | [-> | ->]] by lia.
    + destruct (Z.eqb_spec (ao 2%nat) (ao 0%nat)); [congruence|].
      destruct (Z.eqb_spec (ao 1%nat) (ao 0%nat)); [congruence|].
      rewrite Z.eqb_refl. reflexivity.
    + destruct (Z.eqb_spec (ao 2%nat) (ao 1%nat)); [congruence|].
      rewrite Z.eqb_refl. reflexivity.
    + rewrite Z.eqb_refl. reflexivity.
  - intros Hr (i & j & Hij & Heq).
    destruct (reorderHandAxes_columns Q Hr) as (R & HR & Hcols).
    exists R. split; [exact HR|].
    pose proof (Hr 0%nat ltac:(lia)) as H0.
    pose proof (Hr 1%nat ltac:(lia)) as H1.
    pose proof (Hr 2%nat ltac:(lia)) as H2.
    fold ao in H0, H1, H2, Heq.
    split.
    + assert (Hfree : exists c, (0 <= c <= 2)%Z
                /\ ao 0%nat <> c /\ ao 1%nat <> c /\ ao 2%nat <> c).
      { assert (i = 0 /\ j = 1 \/ i = 0 /\ j = 2 \/ i = 1 /\ j = 2)%nat
          as [[-> ->] | [[-> ->] | [-> ->]]] by lia.
        - destruct (Z.eq_dec (ao 0%nat) 0), (Z.eq_dec (ao 2%nat) 0),
            (Z.eq_dec (ao 0%nat) 1), (Z.eq_dec (ao 2%nat) 1);
            first [exists 0%Z; lia | exists 1%Z; lia | exists 2%Z; lia].
        - destruct (Z.eq_dec (ao 0%nat) 0), (Z.eq_dec (ao 1%nat) 0),
            (Z.eq_dec (ao 0%nat) 1), (Z.eq_dec (ao 1%nat) 1);
            first [exists 0%Z; lia | exists 1%Z; lia | exists 2%Z; lia].
        - destruct (Z.eq_dec (ao 0%nat) 0), (Z.eq_dec (ao 1%nat) 0),
            (Z.eq_dec (ao 0%nat) 1), (Z.eq_dec (ao 1%nat) 1);
            first [exists 0%Z; lia | exists 1%Z; lia | exists 2%Z; lia]. }
      destruct Hfree as (c & Hc & N0 & N1 & N2).
      exists c. split; [exact Hc|]. rewrite (Hcols c Hc).
      unfold last_writer. fold ao.
      destruct (Z.eqb_spec (ao 2%nat) c); [contradiction|].
      destruct (Z.eqb_spec (ao 1%nat) c); [contradiction|].
      destruct (Z.eqb_spec (ao 0%nat) c); [contradiction|]. reflexivity.
    + assert (i = 0 /\ j = 1 \/ i = 0 /\ j = 2 \/ i = 1 /\ j = 2)%nat
        as [[-> ->] | [[-> ->] | [-> ->]]] by lia.
      * destruct (Z.eq_dec (ao 2%nat) (ao 0%nat)) as [E2|E2].
        -- exists 0%nat, 2%nat. split; [lia|]. split; [congruence|].
           rewrite (Hcols (ao 0%nat) H0). unfold last_writer. fold ao.
           rewrite E2, Z.eqb_refl. reflexivity.
        -- exists 0%nat, 1%nat. split; [lia|]. split; [exact Heq|].
           rewrite (Hcols (ao 0%nat) H0). unfold last_writer. fold ao.
           destruct (Z.eqb_spec (ao 2%nat) (ao 0%nat)); [contradiction|].
           rewrite <- Heq, Z.eqb_refl. reflexivity.
      * exists 0%nat, 2%nat. split; [lia|]. split; [exact Heq|].
        rewrite (Hcols (ao 0%nat) H0). unfold last_writer. fold ao.
        rewrite <- Heq, Z.eqb_refl. reflexivity.
      * exists 1%nat, 2%nat. split; [lia|]. split; [exact Heq|].
        rewrite (Hcols (ao 1%nat) H1). unfold last_writer. fold ao.
        rewrite <- Heq, Z.eqb_refl. reflexivity.
Qed.

(** The axis order 1, 1, 0: column 2 stays zero and column 1 holds input
    column 1, which overwrote input column 0. *)
Lemma reorderHandAxes_witness :
  exists R, reorderHandAxes repeated_axis_order example_matrix = Some R
    /\ (exists c, (0 <= c <= 2)%Z /\ get_col R c = Some vzero)
    /\ (exists i k, (i < k < 3)%nat
          /\ axis_order_ (params_ repeated_axis_order) i
             = axis_order_ (params_ repeated_axis_order) k
          /\ get_col R (axis_order_ (params_ repeated_axis_order) i)
             = Some (input_col example_matrix k)).
Proof.
  apply (proj2 (reorderHandAxes_permutes_or_overwrites repeated_axis_order
                  example_matrix)).
  - intros i Hi.
    assert (i = 0 \/ i = 1 \/ i = 2)%nat as [-> | [-> | ->]] by lia; simpl; lia.
  - exists 0%nat, 1%nat. split; [lia | reflexivity].
Defined.

(** ** Exact arithmetic: literals and rotations *)

Lemma Q2R_int (z : Z) : Q2R (z # 1) = IZR z.
Proof. unfold Q2R. simpl. rewrite Rinv_1, Rmult_1_r. reflexivity. Qed.

Lemma vec3_eq (a b : Vec3 R) :
  vx a = vx b -> vy a = vy b -> vz a = vz b -> a = b.
Proof. destruct a, b. simpl. intros -> -> ->. reflexivity. Qed.

(** Eigen's matrix of an angle and an axis, applied to a vector, is
    Rodrigues' formula. *)
Lemma angleAxisTransform_rotate_about (phi : R) (k v : Vec3 R) :
  angleAxisTransform phi k v = rotate_about k phi v.
Proof.
  apply vec3_eq; unfold angleAxisTransform, rotate_about, toRotationMatrix, mat_vec,
    m00, m01, m02, m10, m11, m12, m20, m21, m22, vadd, vscale, vcross, vdot, vzero;
    simpl; rewrite !Q2R_int; ring.
Qed.

(** About a unit axis, [rotate_about] is a rotation: the axis stays where it
    is, scalar products are kept, and a vector orthogonal to the axis makes
    the angle [phi] with its image. *)
Lemma rotate_about_is_rotation (k : Vec3 R) (phi : R) :
  vdot k k = 1%R ->
  rotate_about k phi k = k
  /\ (forall u v, vdot (rotate_about k phi u) (rotate_about k phi v) = vdot u v)
  /\ (forall v, vdot k v = 0%R ->
        vdot v (rotate_about k phi v) = (cos phi * vdot v v)%R).
Proof.
  intros Hk. pose proof (sin2_cos2 phi) as Hsc. unfold Rsqr in Hsc.
  destruct k as [kx ky kz]. unfold vdot in Hk. simpl in Hk.
  split; [|split].
  - apply vec3_eq; unfold rotate_about, vadd, vscale, vcross, vdot; simpl; nsatz.
  - intros [ux uy uz] [wx wy wz].
    unfold rotate_about, vadd, vscale, vcross, vdot; simpl. nsatz.
  - intros [wx wy wz] Hv.
    unfold rotate_about, vadd, vscale, vcross, vdot in *; simpl in *. nsatz.
Qed.

(** C6.  [rotateGrasp] returns the frame whose axis is the input axis and
    whose approach is the negated input approach, both rotated about the
    input binormal by [theta] degrees taken to radians; whose binormal is the
    new axis cross the new approach; and whose center is the input center.
    It is a total function.  The first part is the code at every scalar type;
    the second reads the rotation in exact arithmetic. *)
Theorem rotateGrasp_rotates :
  (forall (D : Type) (S : Scalar D) (T : Trig D) (g : GraspEigen D) (theta : D),
     let R := angleAxisTransform (dmul theta (ddiv dpi (dlit 180))) (binormal_ g) in
     axis_ (rotateGrasp g theta) = R (axis_ g)
     /\ approach_ (rotateGrasp g theta) = R (vscale (dlit (-1)) (approach_ g))
     /\ binormal_ (rotateGrasp g theta)
        = vcross (axis_ (rotateGrasp g theta)) (approach_ (rotateGrasp g theta))
     /\ center_ (rotateGrasp g theta) = center_ g)
  /\ (forall (g : GraspEigen R) (theta : R),
       axis_ (rotateGrasp g theta)
       = rotate_about (binormal_ g) (deg_to_rad theta) (axis_ g)
       /\ approach_ (rotateGrasp g theta)
          = rotate_about (binormal_ g) (deg_to_rad theta) (vneg (approach_ g))).
Proof.
  split.
  - intros D S T g theta R. unfold rotateGrasp. simpl. repeat split.
  - intros g theta. unfold rotateGrasp. cbn [axis_ approach_].
    rewrite !angleAxisTransform_rotate_about.
    assert (Hangle : dmul theta (ddiv dpi (dlit 180)) = deg_to_rad theta).
    { unfold deg_to_rad. simpl. rewrite Q2R_int. reflexivity. }
    rewrite Hangle. split; [reflexivity|].
    f_equal. apply vec3_eq; unfold vscale, vneg; simpl; rewrite Q2R_int; ring.
Qed.

(** ** [createGraspPose] *)

Lemma identity_quaternion_normalized : not_normalized identity_quaternion = false.
Proof.
  unfold not_normalized, QUATERNION_TOLERANCE, length2, identity_quaternion. simpl.
  apply Rltb_false.
  replace (0 * 0 + 0 * 0 + 0 * 0 + 1 * 1 - Q2R 1)%R with 0%R
    by (unfold Q2R; simpl; lra).
  rewrite Rabs_R0. unfold Q2R; simpl. lra.
Qed.

(** C7.  [createGraspPose] returns a pose stamped with the planning frame,
    whose position is the center of the frame moved by [hand_offset_] along
    the negated approach and whose orientation is the given quaternion, a
    properly normalized one being handed on by tf as it is.  In exact
    arithmetic the position is [center - offset * approach]. *)
Theorem createGraspPose_pose :
  (forall (D : Type) (S : Scalar D) (W : Type) (self : Reaching D W)
          (grasp : GraspEigen D) (quat : Quaternion D) (theta : D),
     not_normalized quat = false ->
     position (pose (createGraspPose self grasp quat theta))
     = vadd (center_ grasp)
            (vscale (hand_offset_ (params_ self))
                    (vscale (dlit (-1)) (approach_ grasp)))
     /\ orientation (pose (createGraspPose self grasp quat theta)) = quat
     /\ frame_id (header (createGraspPose self grasp quat theta))
        = planning_frame_ (params_ self))
  /\ (forall (W : Type) (self : Reaching R W)
             (grasp : GraspEigen R) (quat : Quaternion R) (theta : R),
       position (pose (createGraspPose self grasp quat theta))
       = vsub (center_ grasp) (vscale (hand_offset_ (params_ self)) (approach_ grasp))).
Proof.
  split.
  - intros D S W self grasp quat theta Hnorm.
    unfold createGraspPose. cbn [pose position orientation header frame_id].
    unfold quaternionTFToMsg. rewrite Hnorm. repeat split.
  - intros W self grasp quat theta.
    unfold createGraspPose. cbn [pose position].
    apply vec3_eq; unfold vadd, vsub, vscale; simpl; rewrite Q2R_int; ring.
Qed.

(** The launch file's standoff of 0.095 along z, away from the approach. *)
Lemma createGraspPose_pose_witness :
  position (pose (createGraspPose real_reaching real_frame identity_quaternion 0%R))
  = vadd (center_ real_frame)
         (vscale (hand_offset_ (params_ real_reaching))
                 (vscale (dlit (-1)) (approach_ real_frame)))
  /\ orientation (pose (createGraspPose real_reaching real_frame
                          identity_quaternion 0%R))
     = identity_quaternion
  /\ frame_id (header (createGraspPose real_reaching real_frame
                         identity_quaternion 0%R))
     = planning_frame_ (params_ real_reaching).
Proof.
  apply (proj1 createGraspPose_pose R real_scalar nat real_reaching real_frame
           identity_quaternion 0%R).
  exact identity_quaternion_normalized.
Defined.

(** ** [selectFeasibleGrasps] returns *)

Section Totality.
Context {D : Type} `{Scalar D} `{Trig D} {W : Type}.
Variable self : Reaching D W.
Hypothesis Hrange : axis_order_in_range self.
Hypothesis Hservice : ik_responses_cover_range self.

Lemma solveIK_total target attempts timeout st :
  exists ik st1, solveIK self target attempts timeout st = Some (ik, st1).
Proof.
  destruct (planning_lib_ (params_ self)) eqn:Hlib.
  - pose proof (solveIK_moveit self target attempts timeout st Hlib) as Hs.
    pose proof (Hservice Hlib (world st)
                  (moveit_request self target attempts timeout (world st))) as Hok.
    destruct (compute_ik _ _ _) as [resp w']. cbn [fst] in Hok.
    destruct (Z.eqb_spec (error_code_val resp) NO_IK_SOLUTION) as [Hno|Hyes].
    + eexists _, _. exact Hs.
    + destruct (extractJointPositions self resp) as [joints|].
      * eexists _, _. exact Hs.
      * exfalso. apply (Hok Hyes). reflexivity.
  - pose proof (solveIK_openrave self target attempts timeout st Hlib) as Hs.
    destruct (ikfast_solver _ _ _) as [resp w']. eexists _, _. exact Hs.
Qed.

Lemma for_each_total {A X} (body : A -> X -> M D W A) :
  (forall acc x st, exists r st', body acc x st = Some (r, st')) ->
  forall xs acc st, exists r st', for_each body xs acc st = Some (r, st').
Proof.
  intros Hbody. induction xs as [|x xs IH]; intros acc st; simpl.
  - eexists _, _. reflexivity.
  - destruct (Hbody acc x st) as (r & st1 & Hr).
    unfold bind. rewrite Hr. apply IH.
Qed.

Lemma for_each_indexed_total {A X} (body : Z -> A -> X -> M D W A) :
  (forall i acc x st, exists r st', body i acc x st = Some (r, st')) ->
  forall xs i acc st, exists r st', for_each_indexed body i xs acc st = Some (r, st').
Proof.
  intros Hbody. induction xs as [|x xs IH]; intros i acc st; simpl.
  - eexists _, _. reflexivity.
  - destruct (Hbody i acc x st) as (r & st1 & Hr).
    unfold bind. rewrite Hr. apply IH.
Qed.

Lemma orientation_body_total i g rot theta acc q st :
  exists r st', orientation_body self i g rot theta acc q st = Some (r, st').
Proof.
  destruct acc as [flag out]. rewrite orientation_body_eq.
  destruct (solveIK_total (createGraspPose self rot q theta)
              (default_attempts self) (default_timeout self) st) as (ik & st1 & ->).
  eexists _, _. reflexivity.
Qed.

Lemma angle_body_total i g ge acc theta st :
  exists r st', angle_body self i g ge acc theta st = Some (r, st').
Proof.
  unfold angle_body.
  destruct (reorderHandAxes_columns (first_hand_matrix (rotateGrasp ge theta)) Hrange)
    as (R1 & H1 & _).
  destruct (reorderHandAxes_columns (second_hand_matrix (rotateGrasp ge theta)) Hrange)
    as (R2 & H2 & _).
  unfold calculateHandOrientations. rewrite H1, H2. unfold lift_option.
  unfold bind at 1.
  destruct (for_each_total (orientation_body self i g (rotateGrasp ge theta) theta)
              (orientation_body_total i g (rotateGrasp ge theta) theta)
              ([] ++ [normalize (getRotation R1)] ++ [normalize (getRotation R2)])
              (false, acc) st) as (r & st' & Hr).
  unfold bind. rewrite Hr. eexists _, _. reflexivity.
Qed.

Lemma candidate_body_total i acc g st :
  exists r st', candidate_body self i acc g st = Some (r, st').
Proof.
  unfold candidate_body.
  destruct (isInWorkspace self _ _ _); simpl; [|eexists _, _; reflexivity].
  destruct (aperture_rejected self (width g)); [eexists _, _; reflexivity|].
  apply for_each_total. intros. apply angle_body_total.
Qed.

Lemma selectFeasibleGrasps_total grasps st :
  exists out st', selectFeasibleGrasps self grasps st = Some (out, st').
Proof.
  unfold selectFeasibleGrasps. apply for_each_indexed_total.
  intros. apply candidate_body_total.
Qed.

End Totality.

(** ** Angle sampling *)

Section AngleLemmas.
Context {D : Type} `{Scalar D}.

Lemma LinSpaced_nth (size : Z) (low high : D) (i : nat) :
  (1 < size)%Z -> (Z.of_nat i < size)%Z ->
  nth_error (LinSpaced size low high) i
  = Some (dadd low (dmul (dofZ (Z.of_nat i))
                         (ddiv (dsub high low) (dofZ (size - 1))))).
Proof.
  intros Hsize Hi. unfold LinSpaced.
  destruct (Z.eqb_spec size 1); [lia|].
  rewrite nth_error_map, nth_error_seq.
  destruct (Nat.ltb_spec i (Z.to_nat size)); [reflexivity | lia].
Qed.

Lemma LinSpaced_length (size : Z) (low high : D) :
  (1 <= size)%Z -> length (LinSpaced size low high) = Z.to_nat size.
Proof.
  intros Hsize. unfold LinSpaced.
  destruct (Z.eqb_spec size 1) as [->|]; [reflexivity|].
  rewrite length_map, length_seq. reflexivity.
Qed.

End AngleLemmas.





(** ** Hand orientations in exact arithmetic *)

Lemma sum_squares_pos (a b c d : R) :
  (0 < a \/ 0 < b \/ 0 < c \/ 0 < d)%R -> (0 < a * a + b * b + c * c + d * d)%R.
Proof. intros [Hp | [Hp | [Hp | Hp]]]; nra. Qed.

(** [normalize] makes a quaternion of non-zero length a unit quaternion. *)
Lemma normalize_unit (q : Quaternion R) :
  (0 < length2 q)%R -> length2 (normalize q) = 1%R.
Proof.
  intros Hpos. unfold normalize, qlength. cbn [dsqrt real_scalar ddiv dlit].
  set (L := length2 q) in *.
  assert (Hs : (0 < sqrt L)%R) by (apply sqrt_lt_R0; exact Hpos).
  assert (Hss : (sqrt L * sqrt L = L)%R) by (apply sqrt_sqrt; lra).
  unfold length2 at 1. cbn [qx qy qz qw dadd dmul real_scalar].
  replace (Q2R 1) with 1%R by (unfold Q2R; simpl; lra).
  transitivity (L * (1 / sqrt L * (1 / sqrt L)))%R.
  - unfold L, length2. simpl. ring.
  - rewrite <- Hss at 1. field. lra.
Qed.

(** The quaternion that tf reads off a matrix is never zero: one of its
    components is half a square root of a number that is at least 1. *)
Lemma getRotation_nonzero (m : Mat3 R) : (0 < length2 (getRotation m))%R.
Proof.
  assert (Hhalf : Q2R 0.5 = (1 / 2)%R) by (unfold Q2R; simpl; lra).
  assert (Hone : Q2R 1 = 1%R) by (unfold Q2R; simpl; lra).
  assert (Hzero : Q2R 0 = 0%R) by (unfold Q2R; simpl; lra).
  unfold getRotation. cbn [dltb dadd dsub dmul ddiv dsqrt dlit real_scalar].
  rewrite Hhalf, Hone, Hzero.
  destruct (Rltb 0 (m00 m + m11 m + m22 m)) eqn:Etr.
  - apply Rltb_true in Etr.
    assert (Hs : (0 < sqrt (m00 m + m11 m + m22 m + 1))%R)
      by (apply sqrt_lt_R0; lra).
    unfold length2. cbn [qx qy qz qw dadd dmul real_scalar].
    apply sum_squares_pos. right. right. right. lra.
  - apply Rltb_false in Etr.
    destruct (Rltb (m00 m) (m11 m)) eqn:E01;
      [destruct (Rltb (m11 m) (m22 m)) eqn:E12
      |destruct (Rltb (m00 m) (m22 m)) eqn:E02];
      repeat match goal with
             | E : Rltb _ _ = true |- _ => apply Rltb_true in E
             | E : Rltb _ _ = false |- _ => apply Rltb_false in E
             end;
      cbn [Nat.add Nat.modulo Nat.divmod fst snd Nat.sub mentry quat_of_temp];
      fold (m00 m) (m11 m) (m22 m);
      unfold length2; cbn [qx qy qz qw dadd dmul real_scalar];
      apply sum_squares_pos.
    + right. right. left.
      assert (0 < sqrt (m22 m - m00 m - m11 m + 1))%R by (apply sqrt_lt_R0; lra). lra.
    + right. left.
      assert (0 < sqrt (m11 m - m22 m - m00 m + 1))%R by (apply sqrt_lt_R0; lra). lra.
    + right. right. left.
      assert (0 < sqrt (m22 m - m00 m - m11 m + 1))%R by (apply sqrt_lt_R0; lra). lra.
    + left.
      assert (0 < sqrt (m00 m - m11 m - m22 m + 1))%R by (apply sqrt_lt_R0; lra). lra.
Qed.

Lemma launch_axis_order_in_range {D : Type} `{Scalar D} {W : Type}
  (lib : PlanningLibrary) cloud (svc : ServiceClient D W) att tout :
  axis_order_in_range (mkReaching (launch_parameters lib) cloud svc att tout).
Proof.
  intros i Hi.
  assert (i = 0 \/ i = 1 \/ i = 2)%nat as [-> | [-> | ->]] by lia; simpl; lia.
Qed.

(** [calculateHandOrientations] returns two quaternions, whatever the
    frame (and so whatever the angle it was rotated by).  The first is read
    off the matrix with the columns [-approach], [axis] and their cross
    product; the second off the matrix with the columns [T approach],
    [T axis] and their cross product, [T] the rotation by pi about the
    approach of the frame; each matrix has its columns reordered by
    [axis_order_], is turned into a quaternion and normalized.  In exact
    arithmetic both quaternions have length 1. *)
Lemma calculateHandOrientations_two_normalized :
  (forall (D : Type) (S : Scalar D) (T : Trig D) (W : Type)
          (self : Reaching D W) (grasp : GraspEigen D),
     (forall quats, calculateHandOrientations self grasp = Some quats ->
                    length quats = 2%nat)
     /\ (axis_order_in_range self ->
         exists R1 R2,
           reorderHandAxes self (first_hand_matrix grasp) = Some R1
           /\ reorderHandAxes self (second_hand_matrix grasp) = Some R2
           /\ calculateHandOrientations self grasp
              = Some [normalize (getRotation R1); normalize (getRotation R2)])
     /\ first_hand_matrix grasp
        = mkMat3 (vscale (dlit (-1)) (approach_ grasp)) (axis_ grasp)
                 (vcross (vscale (dlit (-1)) (approach_ grasp)) (axis_ grasp))
     /\ second_hand_matrix grasp
        = mkMat3 (angleAxisTransform dpi (approach_ grasp) (approach_ grasp))
                 (angleAxisTransform dpi (approach_ grasp) (axis_ grasp))
                 (vcross (angleAxisTransform dpi (approach_ grasp) (approach_ grasp))
                         (angleAxisTransform dpi (approach_ grasp) (axis_ grasp))))
  /\ (forall (W : Type) (self : Reaching R W) (grasp : GraspEigen R) quats,
       calculateHandOrientations self grasp = Some quats ->
       Forall (fun q => length2 q = 1%R) quats)
  /\ (forall (grasp : GraspEigen R) (v : Vec3 R),
       angleAxisTransform dpi (approach_ grasp) v
       = rotate_about (approach_ grasp) PI v).
Proof.
  split; [|split].
  - intros D S T W self grasp. split; [|split; [|split]].
    + intros quats Hq.
      destruct (calculateHandOrientations_two self grasp Hq) as (R1 & R2 & _ & _ & ->).
      reflexivity.
    + intros Hr.
      destruct (reorderHandAxes_columns (first_hand_matrix grasp) Hr) as (R1 & H1 & _).
      destruct (reorderHandAxes_columns (second_hand_matrix grasp) Hr) as (R2 & H2 & _).
      exists R1, R2. split; [exact H1|]. split; [exact H2|].
      unfold calculateHandOrientations. rewrite H1, H2. reflexivity.
    + reflexivity.
    + reflexivity.
  - intros W self grasp quats Hq.
    destruct (calculateHandOrientations_two self grasp Hq) as (R1 & R2 & _ & _ & ->).
    repeat constructor; apply normalize_unit, getRotation_nonzero.
  - intros grasp v. apply angleAxisTransform_rotate_about.
Qed.

(** The launch file's axis order 2, 0, 1 on a frame approached along z. *)
Lemma calculateHandOrientations_witness :
  exists R1 R2,
    reorderHandAxes real_reaching (first_hand_matrix real_frame) = Some R1
    /\ reorderHandAxes real_reaching (second_hand_matrix real_frame) = Some R2
    /\ calculateHandOrientations real_reaching real_frame
       = Some [normalize (getRotation R1); normalize (getRotation R2)].
Proof.
  apply (proj1 (proj2 (proj1 calculateHandOrientations_two_normalized
                         R real_scalar real_trig nat real_reaching real_frame))).
  apply launch_axis_order_in_range.
Defined.

(** ** The pre-filters *)

Lemma Forall2_In_r {A B} (P : A -> B -> Prop) l1 l2 b :
  Forall2 P l1 l2 -> In b l2 -> exists a, In a l1 /\ P a b.
Proof.
  induction 1 as [|x y l1 l2 Hxy HF IH]; intros Hin; simpl in *.
  - contradiction.
  - destruct Hin as [-> | Hin].
    + exists x. split; [left; reflexivity | exact Hxy].
    + destruct (IH Hin) as (a & Ha & HP). exists a. split; [right; exact Ha | exact HP].
Qed.

Section PrefilterLemmas.
Context {D : Type} {S : Scalar D} {W : Type}.
Variable self : Reaching D W.
Hypothesis laws : OrderLaws S.

Lemma outside_workspace_rejected p :
  outside_workspace self p -> isInWorkspace self (vx p) (vy p) (vz p) = false.
Proof.
  unfold outside_workspace, isInWorkspace.
  intros [Ho | [Ho | [Ho | [Ho | [Ho | Ho]]]]];
    apply (ltb_not_geb laws) in Ho; rewrite Ho;
    rewrite ?andb_false_r, ?andb_false_l; reflexivity.
Qed.

Lemma within_closed_leb lo x hi :
  within_closed lo x hi -> dleb lo x = true /\ dleb x hi = true.
Proof.
  intros [[Hlo | Hlo] [Hhi | Hhi]]; split;
    first [ apply (ltb_leb laws); assumption
          | apply (eqb_leb laws) in Hlo; tauto
          | apply (eqb_leb laws) in Hhi; tauto ].
Qed.

Lemma within_closed_not_ltb lo x hi :
  within_closed lo x hi -> dltb x lo = false /\ dltb hi x = false.
Proof.
  intros Hw. destruct (within_closed_leb Hw) as [Hlo Hhi]. split.
  - destruct (dltb x lo) eqn:E; [|reflexivity].
    apply (ltb_not_geb laws) in E. congruence.
  - destruct (dltb hi x) eqn:E; [|reflexivity].
    apply (ltb_not_geb laws) in E. congruence.
Qed.

Lemma prefiltered_not_passes `{Trig D} g :
  prefiltered self g -> ~ passes_prefilter self g.
Proof.
  intros [Ho | Ha] [Hws Hap].
  - apply outside_workspace_rejected in Ho. congruence.
  - unfold aperture_rejected in Hap. apply orb_false_elim in Hap.
    destruct Hap, Ha; congruence.
Qed.

End PrefilterLemmas.

(** C5.  A candidate whose surface center lies outside the workspace box on
    some axis, or whose width is below [min_aperture_] or above
    [max_aperture_], leaves the output and the run state as they were (no
    entry, no IK call, no collision check), and no entry of the output of
    [selectFeasibleGrasps] carries its index.  Both tests are on closed
    intervals: a surface center within the box, bounds included, passes the
    workspace test, and a width within the two apertures, bounds included,
    passes the aperture test. *)
Theorem prefilter_rejects_closed_intervals {D : Type} {S : Scalar D} {T : Trig D}
  {W : Type} (self : Reaching D W) :
  OrderLaws S ->
  (forall i acc g st,
     prefiltered self g -> candidate_body self i acc g st = Some (acc, st))
  /\ (forall grasps st out st' i g,
       selectFeasibleGrasps self grasps st = Some (out, st') ->
       nth_error grasps i = Some g ->
       prefiltered self g ->
       forall e, In e out -> gs_index e <> Z.of_nat i)
  /\ (forall p, inside_workspace self p ->
                isInWorkspace self (vx p) (vy p) (vz p) = true)
  /\ (forall w,
       within_closed (min_aperture_ (params_ self)) w (max_aperture_ (params_ self)) ->
       aperture_rejected self w = false).
Proof.
  intros laws. split; [|split; [|split]].
  - intros i acc g st [Ho | Ha]; unfold candidate_body.
    + rewrite (outside_workspace_rejected laws Ho). reflexivity.
    + destruct (isInWorkspace self _ _ _); [|reflexivity]. simpl.
      unfold aperture_rejected. destruct Ha as [-> | ->];
        rewrite ?orb_true_r; reflexivity.
  - intros grasps st out st' i g Hrun Hg Hpre e He Hidx.
    destruct (selectFeasibleGrasps_layout self grasps st Hrun) as ((keys & HF & _) & _).
    destruct (@Forall2_In_r _ _ _ _ _ _ HF He) as ([[i' j] o] & _ & Hentry).
    simpl in Hentry.
    destruct Hentry as (g' & theta & quats & q & ik & Hg' & Hp & _ & _ & _ & _ & _ & _ & ->).
    simpl in Hidx. apply Nat2Z.inj in Hidx. subst i'.
    rewrite Hg in Hg'. inversion Hg'; subst g'.
    exact (prefiltered_not_passes laws Hpre Hp).
  - intros p (Hx & Hy & Hz). unfold isInWorkspace.
    destruct (within_closed_leb laws Hx) as [-> ->].
    destruct (within_closed_leb laws Hy) as [-> ->].
    destruct (within_closed_leb laws Hz) as [-> ->]. reflexivity.
  - intros w Hw. unfold aperture_rejected.
    destruct (within_closed_not_ltb laws Hw) as [-> ->]. reflexivity.
Qed.

(** A surface center at z = -0.5 is below the launch workspace, whose floor
    is z = -0.23: the candidate is skipped. *)
Lemma prefilter_rejects_witness :
  candidate_body real_reaching 0 [] low_grasp (mkRunState 0%nat [])
  = Some ([], mkRunState 0%nat []).
Proof.
  apply (proj1 (prefilter_rejects_closed_intervals real_reaching real_order_laws)).
  left. unfold outside_workspace. right. right. right. right. left.
  apply Rltb_true. simpl. unfold Q2R. simpl. lra.
Defined.

(** ** The order of the output *)

Lemma StronglySorted_Forall2 {A B} (P : A -> B -> Prop)
  (RA : A -> A -> Prop) (RB : B -> B -> Prop) :
  (forall a1 a2 b1 b2, P a1 b1 -> P a2 b2 -> RA a1 a2 -> RB b1 b2) ->
  forall la lb, Forall2 P la lb -> StronglySorted RA la -> StronglySorted RB lb.
Proof.
  intros Hmono la lb HF. induction HF as [|a b la lb Hab HF IH]; intros HS.
  - constructor.
  - inversion HS as [|a' la' HS' Hall]; subst. constructor.
    + apply IH. exact HS'.
    + clear IH HS HS'. induction HF as [|a2 b2 la lb Hab2 HF IH2].
      * constructor.
      * inversion Hall; subst. constructor.
        -- eapply Hmono; eassumption.
        -- apply IH2. assumption.
Qed.

(** C8.  The output of [selectFeasibleGrasps] is laid out by candidate index
    in input order, within a candidate by the index of the sampled angle, and
    within an angle with orientation A (index 0, read off the matrix of the
    first hand orientation) before orientation B.  Each entry carries the
    index of its candidate, the pose built for its rotated frame and
    orientation, the approach of the rotated frame, the width of the
    candidate, the joints of a successful IK answer for that pose, and the
    score 0.  Entries are emitted: for every candidate of the batch that
    passes the pre-filters and every sampled angle, [solveIK] is called on the
    poses of both hand orientations of the rotated frame, and when the frame
    is collision-free each orientation whose call found a solution has its
    entry, with the index of the candidate, in the output.  And the call
    returns, when the axis order is in range and the joint-space service
    answers with vectors that cover the configured range. *)
Theorem selectFeasibleGrasps_output_order {D : Type} {S : Scalar D} {T : Trig D}
  {W : Type} (self : Reaching D W) (grasps : list (Grasp D)) (st : RunState D W) :
  (axis_order_in_range self -> ik_responses_cover_range self ->
   exists out st', selectFeasibleGrasps self grasps st = Some (out, st'))
  /\ (forall out st',
       selectFeasibleGrasps self grasps st = Some (out, st') ->
       ordered_output self grasps (trace st') out
       /\ (forall e, In e out -> gs_score e = dlit 0)
       /\ StronglySorted (fun a b => (gs_index a <= gs_index b)%Z) out
       /\ (forall i g j theta,
             nth_error grasps i = Some g ->
             passes_prefilter self g ->
             nth_error (sample_angles self) j = Some theta ->
             frame_worked self (Z.of_nat i) g theta (trace st') out)).
Proof.
  split.
  - intros Hrange Hservice. apply selectFeasibleGrasps_total; assumption.
  - intros out st' Hrun.
    destruct (selectFeasibleGrasps_layout self grasps st Hrun) as (Hord & _).
    split; [exact Hord|].
    destruct Hord as (keys & HF & HS). split; [|split].
    + intros e He.
      destruct (@Forall2_In_r _ _ _ _ _ _ HF He) as ([[i j] o] & _ & Hentry).
      simpl in Hentry.
      destruct Hentry as (g & theta & quats & q & ik & _ & _ & _ & _ & _ & _ & _ & _ & ->).
      reflexivity.
    + refine (@StronglySorted_Forall2 _ _ _ _ _ _ _ _ HF HS).
      intros [[i1 j1] o1] [[i2 j2] o2] e1 e2 H1 H2 Hlt. simpl in H1, H2, Hlt.
      destruct H1 as (g1 & t1 & qs1 & q1 & ik1 & _ & _ & _ & _ & _ & _ & _ & _ & ->).
      destruct H2 as (g2 & t2 & qs2 & q2 & ik2 & _ & _ & _ & _ & _ & _ & _ & _ & ->).
      simpl. lia.
    + intros i g j theta Hg Hp Hj. unfold selectFeasibleGrasps in Hrun.
      destruct (candidates_loop_worked _ _ _ _ _ Hrun) as (_ & Hw).
      exact (Hw i g Hg Hp j theta Hj).
Qed.

(** ** A frame that collides, in exact arithmetic *)

Ltac real_bool :=
  first [ apply Rltb_true | apply Rleb_true | apply Rltb_false | apply Rleb_false ];
  simpl; unfold Q2R; simpl; lra.

Lemma rotateGrasp_at_zero (g : GraspEigen R) :
  rotateGrasp g (dlit 0)
  = mkGraspEigen (center_ g) (vneg (approach_ g)) (axis_ g)
                 (vcross (axis_ g) (vneg (approach_ g))).
Proof.
  assert (Hangle : dmul (dlit 0) (ddiv dpi (dlit 180)) = 0%R).
  { simpl. unfold Q2R. simpl. lra. }
  assert (Hrot : forall v, angleAxisTransform 0%R (binormal_ g) v = v).
  { intros v. rewrite angleAxisTransform_rotate_about.
    apply vec3_eq; unfold rotate_about, vadd, vscale, vcross, vdot; simpl;
      rewrite cos_0, sin_0; ring. }
  unfold rotateGrasp. rewrite Hangle, !Hrot.
  assert (Hneg : vscale (dlit (-1)) (approach_ g) = vneg (approach_ g)).
  { apply vec3_eq; unfold vscale, vneg; simpl; rewrite Q2R_int; ring. }
  rewrite Hneg. reflexivity.
Qed.

Lemma reachable_grasp_passes : passes_prefilter colliding_reaching reachable_grasp.
Proof.
  split.
  - unfold isInWorkspace.
    repeat match goal with
           | |- context [dleb ?a ?b] =>
               let E := fresh in
               assert (E : dleb a b = true) by real_bool; rewrite E; clear E
           end.
    reflexivity.
  - unfold aperture_rejected.
    repeat match goal with
           | |- context [dltb ?a ?b] =>
               let E := fresh in
               assert (E : dltb a b = false) by real_bool; rewrite E; clear E
           end.
    reflexivity.
Qed.

(** Both cloud points lie inside the cylinder of the candidate's frame, and
    the launch file tolerates one. *)
Lemma colliding_frame_collides (q : Quaternion R) :
  let rot := rotateGrasp (GraspEigen_of_msg reachable_grasp) (dlit 0) in
  isCollisionFree colliding_reaching
    (createGraspPose colliding_reaching rot q (dlit 0)) (approach_ rot) = false.
Proof.
  intros rot. subst rot. rewrite rotateGrasp_at_zero.
  unfold isCollisionFree. cbn [cloud_ colliding_reaching collision_scan].
  assert (Hin : forall p, In p [vec 0.8 0 0.1; vec 0.8 0 0.12] ->
     inside_cylinder
       (cylinder
          (createGraspPose colliding_reaching
             (mkGraspEigen (center_ (GraspEigen_of_msg reachable_grasp))
                (vneg (approach_ (GraspEigen_of_msg reachable_grasp)))
                (axis_ (GraspEigen_of_msg reachable_grasp))
                (vcross (axis_ (GraspEigen_of_msg reachable_grasp))
                   (vneg (approach_ (GraspEigen_of_msg reachable_grasp)))))
             q (dlit 0))
          (vneg (approach_ (GraspEigen_of_msg reachable_grasp))))
       (vneg (approach_ (GraspEigen_of_msg reachable_grasp))) p = true).
  { intros p [<- | [<- | []]]; unfold inside_cylinder;
      repeat (apply andb_true_intro; split); real_bool. }
  rewrite !Hin by (simpl; tauto).
  reflexivity.
Qed.

Lemma openrave_responses_cover_range {D : Type} `{Scalar D} {W : Type}
  cloud (svc : ServiceClient D W) att tout :
  ik_responses_cover_range
    (mkReaching (launch_parameters OPEN_RAVE) cloud svc att tout).
Proof. intros Hlib. discriminate Hlib. Qed.

(** C1, as the code has it.  For a rotated frame, [solveIK] is called once
    for each of the two orientations, A then B, whatever the collision check
    answered.  The collision check is called only for an orientation whose IK
    succeeded, and it answers the same for both orientations of the frame.  A
    collision-free answer is memoized in the flag of the frame and reused:
    with it the check runs at most once for the frame, and when it was
    obtained for orientation A, orientation B is not checked.  A frame that
    collides gives no entry; a collision-free one gives an entry for each
    orientation whose IK succeeded. *)
Theorem collision_free_answer_memoized {D : Type} {S : Scalar D} {T : Trig D}
  {W : Type} (self : Reaching D W) (i : Z) (g : Grasp D) (ge : GraspEigen D)
  (acc : list (GraspScored D)) (theta : D) (st : RunState D W)
  (out : list (GraspScored D)) (st' : RunState D W) :
  angle_body self i g ge acc theta st = Some (out, st') ->
  let rot := rotateGrasp ge theta in
  exists qa qb ika ikb new,
    calculateHandOrientations self rot = Some [qa; qb]
    /\ trace st' = trace st ++ new
    /\ let pa := createGraspPose self rot qa theta in
       let pb := createGraspPose self rot qb theta in
       let free := isCollisionFree self pa (approach_ rot) in
       ik_calls new = [EvSolveIK pa ika; EvSolveIK pb ikb]
       /\ isCollisionFree self pb (approach_ rot) = free
       /\ (forall e, In e (collision_calls new) ->
             (e = EvCollision pa (approach_ rot) free /\ success_ ika = true)
             \/ (e = EvCollision pb (approach_ rot) free /\ success_ ikb = true))
       /\ (free = true -> (length (collision_calls new) <= 1)%nat)
       /\ (free = true -> success_ ika = true ->
           collision_calls new = [EvCollision pa (approach_ rot) true])
       /\ out = acc
                ++ (if success_ ika && free
                    then [scored self i g rot theta qa ika] else [])
                ++ (if success_ ikb && free
                    then [scored self i g rot theta qb ikb] else []).
Proof.
  intros Hrun rot.
  destruct (angle_body_spec self i g ge acc theta st Hrun)
    as (qa & qb & ika & ikb & sta & stb & Hq & Ea & Eb & Hfree & Htr & Hout).
  fold rot in Hq, Ea, Eb, Hfree, Htr, Hout.
  eexists qa, qb, ika, ikb, _. split; [exact Hq|]. split; [exact Htr|].
  cbv zeta. split; [|split; [exact Hfree|]].
  - unfold ik_calls. destruct (success_ ika), (success_ ikb),
      (isCollisionFree self (createGraspPose self rot qa theta) (approach_ rot));
      reflexivity.
  - split; [|split; [|split; [|exact Hout]]]; unfold collision_calls;
      destruct (success_ ika), (success_ ikb),
        (isCollisionFree self (createGraspPose self rot qa theta) (approach_ rot));
      simpl;
      solve [ intros e [<- | [<- | []]]; tauto
            | intros e [<- | []]; tauto
            | intros e []
            | intros; discriminate
            | intros; lia
            | intros; reflexivity ].
Qed.

Lemma colliding_axis_order : axis_order_in_range colliding_reaching.
Proof. apply launch_axis_order_in_range. Qed.

Lemma colliding_service : ik_responses_cover_range colliding_reaching.
Proof. apply openrave_responses_cover_range. Qed.

Lemma free_axis_order : axis_order_in_range free_reaching.
Proof. apply launch_axis_order_in_range. Qed.

Lemma free_service : ik_responses_cover_range free_reaching.
Proof. apply openrave_responses_cover_range. Qed.

(** The frame of the reachable candidate at the angle 0. *)
Lemma collision_free_answer_memoized_witness :
  exists out st' qa qb ika ikb new,
    angle_body colliding_reaching 0 reachable_grasp
      (GraspEigen_of_msg reachable_grasp) [] (dlit 0) (mkRunState 0%nat [])
    = Some (out, st')
    /\ calculateHandOrientations colliding_reaching
         (rotateGrasp (GraspEigen_of_msg reachable_grasp) (dlit 0)) = Some [qa; qb]
    /\ trace st' = [] ++ new
    /\ ik_calls new
       = [EvSolveIK (createGraspPose colliding_reaching
                       (rotateGrasp (GraspEigen_of_msg reachable_grasp) (dlit 0))
                       qa (dlit 0)) ika;
          EvSolveIK (createGraspPose colliding_reaching
                       (rotateGrasp (GraspEigen_of_msg reachable_grasp) (dlit 0))
                       qb (dlit 0)) ikb].
Proof.
  destruct (@angle_body_total R real_scalar real_trig nat colliding_reaching
              colliding_axis_order colliding_service
              0%Z reachable_grasp (GraspEigen_of_msg reachable_grasp) []
              (dlit 0) (mkRunState 0%nat []))
    as (out & st' & Hrun).
  destruct (collision_free_answer_memoized colliding_reaching 0 reachable_grasp
              (GraspEigen_of_msg reachable_grasp) [] (dlit 0) (mkRunState 0%nat [])
              Hrun)
    as (qa & qb & ika & ikb & new & Hq & Htr & Hik & _).
  exists out, st', qa, qb, ika, ikb, new.
  split; [exact Hrun|]. split; [exact Hq|]. split; [exact Htr | exact Hik].
Defined.

Lemma colliding_solveIK target st :
  solveIK colliding_reaching target (default_attempts colliding_reaching)
    (default_timeout colliding_reaching) st
  = Some (mkIKSolution true [dlit 0.1; dlit 0.2],
          mkRunState (S (world st)) (trace st)).
Proof.
  exact (solveIK_openrave colliding_reaching target
           (default_attempts colliding_reaching)
           (default_timeout colliding_reaching) st eq_refl).
Qed.

(** C1, as stated, fails.  One candidate and one angle make one rotated
    frame; IK succeeds for both orientations and the frame collides.  The
    collision checker runs for orientation A and again for orientation B,
    and orientation B is pose-tested against IK after the check of A
    reported the collision.  No entry is emitted. *)
Lemma collision_checked_again_for_orientation_B :
  exists out st' pa pb ika ikb a,
    selectFeasibleGrasps colliding_reaching [reachable_grasp] (mkRunState 0%nat [])
    = Some (out, st')
    /\ out = []
    /\ trace st' = [EvSolveIK pa ika; EvCollision pa a false;
                    EvSolveIK pb ikb; EvCollision pb a false]
    /\ length (collision_calls (trace st')) = 2%nat.
Proof.
  destruct (@selectFeasibleGrasps_total R real_scalar real_trig nat colliding_reaching
              colliding_axis_order colliding_service
              [reachable_grasp] (mkRunState 0%nat [])) as (out & st' & Hrun).
  pose proof Hrun as Hrun0.
  unfold selectFeasibleGrasps in Hrun. cbn [for_each_indexed] in Hrun.
  inv_bind Hrun as acc1 s1 Hcand. unfold ret in Hrun.
  injection Hrun as Hout Hst. subst acc1 s1.
  unfold candidate_body in Hcand.
  destruct reachable_grasp_passes as [Hws Hap]. rewrite Hws, Hap in Hcand.
  cbn [negb] in Hcand.
  change (sample_angles colliding_reaching) with [dlit 0 : R] in Hcand.
  cbn [for_each] in Hcand. inv_bind Hcand as acc2 s2 Hbody. unfold ret in Hcand.
  injection Hcand as Hout Hst. subst acc2 s2.
  apply angle_body_spec in Hbody.
  destruct Hbody as (qa & qb & ika & ikb & sta & stb & Hq & Ea & Eb & _ & Htr & Hres).
  rewrite colliding_solveIK in Ea, Eb.
  injection Ea as Hika Hsta. injection Eb as Hikb Hstb. subst ika ikb.
  rewrite colliding_frame_collides in Htr, Hres.
  cbn [success_ andb negb app trace] in Htr, Hres.
  eexists out, st', _, _, _, _, _.
  split; [exact Hrun0|]. split; [exact Hres|]. split; [exact Htr|].
  rewrite Htr. reflexivity.
Qed.

(** ** The statements at the concrete configurations *)






(** Decides the comparisons of a goal in exact arithmetic. *)
Ltac decide_real_tests :=
  repeat match goal with
         | |- context [dleb ?a ?b] =>
             let E := fresh in
             first [ assert (E : dleb a b = true) by real_bool
                   | assert (E : dleb a b = false) by real_bool ];
             rewrite E; clear E
         | |- context [dltb ?a ?b] =>
             let E := fresh in
             first [ assert (E : dltb a b = true) by real_bool
                   | assert (E : dltb a b = false) by real_bool ];
             rewrite E; clear E
         end.

Lemma far_grasp_passes : passes_prefilter free_reaching far_grasp.
Proof.
  split.
  - unfold isInWorkspace. decide_real_tests. reflexivity.
  - unfold aperture_rejected. decide_real_tests. reflexivity.
Qed.

Lemma low_grasp_outside :
  isInWorkspace free_reaching (vx (surface_center low_grasp))
    (vy (surface_center low_grasp)) (vz (surface_center low_grasp)) = false.
Proof. unfold isInWorkspace. decide_real_tests. reflexivity. Qed.

Lemma free_solveIK target st :
  solveIK free_reaching target (default_attempts free_reaching)
    (default_timeout free_reaching) st
  = Some (mkIKSolution true [dlit 0.1; dlit 0.2],
          mkRunState (S (world st)) (trace st)).
Proof.
  exact (solveIK_openrave free_reaching target
           (default_attempts free_reaching)
           (default_timeout free_reaching) st eq_refl).
Qed.

(** With the empty cloud and the service that always answers, a candidate
    that passes the pre-filters gives two entries, one per hand orientation
    of its one rotated frame. *)
Lemma free_candidate_entries i acc g st out st' :
  passes_prefilter free_reaching g ->
  candidate_body free_reaching i acc g st = Some (out, st') ->
  exists e1 e2,
    out = acc ++ [e1; e2]
    /\ gs_index e1 = i /\ gs_index e2 = i
    /\ gs_width e1 = width g /\ gs_width e2 = width g.
Proof.
  intros [Hws Hap] Hrun. unfold candidate_body in Hrun.
  rewrite Hws, Hap in Hrun. cbn [negb] in Hrun.
  change (sample_angles free_reaching) with [dlit 0 : R] in Hrun.
  cbn [for_each] in Hrun. inv_bind Hrun as acc1 s1 Hbody.
  unfold ret in Hrun. injection Hrun as Hout Hst. subst acc1 s1.
  apply angle_body_spec in Hbody.
  destruct Hbody as (qa & qb & ika & ikb & sta & stb & _ & Ea & Eb & _ & _ & Hres).
  rewrite free_solveIK in Ea, Eb.
  injection Ea as Hika _. injection Eb as Hikb _. subst ika ikb.
  cbn [success_ andb] in Hres.
  change (isCollisionFree free_reaching _ _) with true in Hres.
  eexists _, _. split; [exact Hres|]. repeat split.
Qed.

Lemma free_batch_entries out st' :
  selectFeasibleGrasps free_reaching [reachable_grasp; low_grasp; far_grasp]
    (mkRunState 0%nat []) = Some (out, st') ->
  map (@gs_index R) out = [0; 0; 2; 2]%Z
  /\ map (@gs_width R) out
     = [width reachable_grasp; width reachable_grasp; width far_grasp; width far_grasp].
Proof.
  intros Hrun. unfold selectFeasibleGrasps in Hrun. cbn [for_each_indexed] in Hrun.
  inv_bind Hrun as acc1 s1 H1. inv_bind Hrun as acc2 s2 H2.
  inv_bind Hrun as acc3 s3 H3. unfold ret in Hrun. injection Hrun as -> _.
  apply (@free_candidate_entries _ _ _ _ _ _ reachable_grasp_passes) in H1.
  destruct H1 as (a1 & a2 & -> & Ia1 & Ia2 & Wa1 & Wa2).
  unfold candidate_body in H2. rewrite low_grasp_outside in H2. cbn [negb] in H2.
  unfold ret in H2. injection H2 as <- _.
  apply (@free_candidate_entries _ _ _ _ _ _ far_grasp_passes) in H3.
  destruct H3 as (b1 & b2 & -> & Ib1 & Ib2 & Wb1 & Wb2).
  cbn [app map]. rewrite Ia1, Ia2, Ib1, Ib2, Wa1, Wa2, Wb1, Wb2.
  split; reflexivity.
Qed.

(** A batch of a reachable candidate, a candidate below the workspace and a
    second reachable candidate, with an empty cloud: two entries for the
    candidate of index 0 and two for the candidate of index 2, each with the
    width of its candidate; and the frame of the candidate of index 2 was
    worked through. *)
Lemma selectFeasibleGrasps_output_order_witness :
  exists out st',
    selectFeasibleGrasps free_reaching [reachable_grasp; low_grasp; far_grasp]
      (mkRunState 0%nat []) = Some (out, st')
    /\ map (@gs_index R) out = [0; 0; 2; 2]%Z
    /\ map (@gs_width R) out
       = [width reachable_grasp; width reachable_grasp;
          width far_grasp; width far_grasp]
    /\ ordered_output free_reaching [reachable_grasp; low_grasp; far_grasp]
         (trace st') out
    /\ (forall e, In e out -> gs_score e = dlit 0)
    /\ StronglySorted (fun a b => (gs_index a <= gs_index b)%Z) out
    /\ frame_worked free_reaching 2 far_grasp (dlit 0) (trace st') out.
Proof.
  destruct (proj1 (selectFeasibleGrasps_output_order free_reaching
                     [reachable_grasp; low_grasp; far_grasp] (mkRunState 0%nat []))
              free_axis_order free_service) as (out & st' & Hrun).
  destruct (proj2 (selectFeasibleGrasps_output_order free_reaching
                     [reachable_grasp; low_grasp; far_grasp] (mkRunState 0%nat []))
              out st' Hrun) as (Hord & Hscore & Hsorted & Hworked).
  destruct (free_batch_entries Hrun) as (Hidx & Hwidth).
  exists out, st'. repeat (split; [assumption|]).
  apply (Hworked 2%nat far_grasp 0%nat (dlit 0)).
  - reflexivity.
  - exact far_grasp_passes.
  - reflexivity.
Defined.

(** For a unit approach orthogonal to the axis, the matrix of the second
    hand orientation has the columns [approach], [-axis] and their cross
    product: its first column is the approach itself, where the matrix of
    the first hand orientation has [-approach]. *)
Remark second_hand_matrix_orthonormal (g : GraspEigen R) :
  vdot (approach_ g) (approach_ g) = 1%R ->
  vdot (approach_ g) (axis_ g) = 0%R ->
  second_hand_matrix g
  = mkMat3 (approach_ g) (vneg (axis_ g)) (vcross (approach_ g) (vneg (axis_ g)))
  /\ col0 (first_hand_matrix g) = vneg (approach_ g).
Proof.
  intros Hunit Horth.
  assert (Ha : angleAxisTransform dpi (approach_ g) (approach_ g) = approach_ g).
  { rewrite angleAxisTransform_rotate_about.
    destruct (approach_ g) as [ax ay az]. unfold vdot in Hunit. simpl in Hunit.
    apply vec3_eq; unfold rotate_about, vadd, vscale, vcross, vdot; simpl;
      rewrite cos_PI, sin_PI; nsatz. }
  assert (Hx : angleAxisTransform dpi (approach_ g) (axis_ g) = vneg (axis_ g)).
  { rewrite angleAxisTransform_rotate_about.
    destruct (approach_ g) as [ax ay az], (axis_ g) as [xx xy xz].
    unfold vdot in Horth. simpl in Horth.
    apply vec3_eq; unfold rotate_about, vadd, vscale, vcross, vdot, vneg; simpl;
      rewrite cos_PI, sin_PI; nsatz. }
  split.
  - unfold second_hand_matrix. rewrite Ha, Hx. reflexivity.
  - unfold first_hand_matrix. cbn [col0].
    apply vec3_eq; unfold vscale, vneg; simpl; rewrite Q2R_int; ring.
Qed.

(** ** The second hand orientation *)

(** The matrix of the first hand orientation turned by 180 degrees about
    the approach: the approach column stays, the two others are negated. *)
Lemma half_turn_first_hand_matrix (g : GraspEigen R) :
  vdot (approach_ g) (approach_ g) = 1%R ->
  vdot (approach_ g) (axis_ g) = 0%R ->
  half_turn_about (approach_ g) (first_hand_matrix g)
  = mkMat3 (vneg (approach_ g)) (vneg (axis_ g)) (vcross (approach_ g) (axis_ g)).
Proof.
  intros Hunit Horth. unfold half_turn_about, first_hand_matrix.
  cbn [col0 col1 col2].
  destruct (approach_ g) as [ax ay az], (axis_ g) as [xx xy xz].
  unfold vdot in Hunit, Horth. simpl in Hunit, Horth.
  f_equal; apply vec3_eq;
    unfold rotate_about, vadd, vscale, vcross, vdot, vneg; simpl;
    rewrite cos_PI, sin_PI, ?Q2R_int; nsatz.
Qed.

(** The same matrix turned by 180 degrees about its own third column. *)
Lemma half_turn_third_column (g : GraspEigen R) :
  vdot (approach_ g) (approach_ g) = 1%R ->
  vdot (axis_ g) (axis_ g) = 1%R ->
  vdot (approach_ g) (axis_ g) = 0%R ->
  half_turn_about (col2 (first_hand_matrix g)) (first_hand_matrix g)
  = mkMat3 (approach_ g) (vneg (axis_ g)) (vcross (approach_ g) (vneg (axis_ g))).
Proof.
  intros Hunit Hax Horth. unfold half_turn_about, first_hand_matrix.
  cbn [col0 col1 col2].
  destruct (approach_ g) as [ax ay az], (axis_ g) as [xx xy xz].
  unfold vdot in Hunit, Hax, Horth. simpl in Hunit, Hax, Horth.
  f_equal; apply vec3_eq;
    unfold rotate_about, vadd, vscale, vcross, vdot, vneg; simpl;
    rewrite cos_PI, sin_PI, ?Q2R_int; nsatz.
Qed.

Lemma unit_not_opposite (v : Vec3 R) : vdot v v = 1%R -> v <> vneg v.
Proof.
  intros Hunit Heq. destruct v as [x y z]. unfold vneg, vdot in *. simpl in *.
  injection Heq as Hx Hy Hz. nra.
Qed.

(** The frame approached along z with its axis along y. *)
Lemma real_frame_unit :
  vdot (approach_ real_frame) (approach_ real_frame) = 1%R
  /\ vdot (axis_ real_frame) (axis_ real_frame) = 1%R
  /\ vdot (approach_ real_frame) (axis_ real_frame) = 0%R.
Proof. repeat split; unfold vdot, real_frame, vec; simpl; unfold Q2R; simpl; lra. Qed.

Lemma Q2R_0 : Q2R 0 = 0%R.
Proof. unfold Q2R; simpl; lra. Qed.

Lemma Q2R_1 : Q2R 1 = 1%R.
Proof. unfold Q2R; simpl; lra. Qed.

Lemma Q2R_half : Q2R 0.5 = (1 / 2)%R.
Proof. unfold Q2R; simpl; lra. Qed.

(** The scalar part of a normalized quaternion vanishes with that of the
    quaternion. *)
Lemma qw_normalize (q : Quaternion R) :
  (0 < length2 q)%R -> (qw (normalize q) = 0%R <-> qw q = 0%R).
Proof.
  intros Hpos. unfold normalize, qlength. cbn [qw dsqrt real_scalar ddiv dlit dmul].
  rewrite Q2R_1.
  assert (Hs : (0 < sqrt (length2 q))%R) by (apply sqrt_lt_R0; exact Hpos).
  assert (Hi : (0 < 1 / sqrt (length2 q))%R) by (apply Rdiv_lt_0_compat; lra).
  split; intros Hq; nra.
Qed.

(** Decides the tests of [getRotation] on a matrix of numbers. *)
Ltac decide_Rltb :=
  repeat match goal with
         | |- context [Rltb ?a ?b] =>
             first [ rewrite (proj2 (Rltb_true a b)) by lra
                   | rewrite (proj2 (Rltb_false a b)) by lra ]
         end.

(** The second quaternion that the code returns for the frame approached
    along z, with the axis order of the launch file, has a scalar part. *)
Lemma real_frame_second_orientation :
  exists q1 q2,
    calculateHandOrientations real_reaching real_frame = Some [q1; q2]
    /\ qw q2 <> 0%R.
Proof.
  destruct real_frame_unit as (Ha & Hx & Hax).
  destruct (second_hand_matrix_orthonormal real_frame Ha Hax) as (H2 & _).
  unfold calculateHandOrientations. rewrite H2.
  unfold reorderHandAxes.
  cbn [real_reaching params_ launch_parameters axis_order_ nth first_hand_matrix
       col0 col1 col2 mzero].
  simpl set_col.
  eexists _, _. split; [reflexivity|].
  rewrite qw_normalize by apply getRotation_nonzero.
  unfold getRotation. cbn [dltb dadd dsub dmul ddiv dsqrt dlit real_scalar].
  unfold m00, m11, m22, m21, m12, m02, m20, m10, m01, vneg, vcross, real_frame, vec.
  cbn [col0 col1 col2 vx vy vz approach_ axis_ dlit dmul dsub real_scalar].
  rewrite !Q2R_0, !Q2R_1, Q2R_half.
  decide_Rltb. cbn [qw].
  assert (0 < sqrt (- 0 + (1 * - 0 - 0 * - 0) + 1 + 1))%R by (apply sqrt_lt_R0; lra).
  lra.
Qed.

(** The quaternion of the first hand orientation turned by 180 degrees about
    the approach has none. *)
Lemma real_frame_described_orientation :
  exists expected,
    described_second_orientation real_reaching real_frame = Some expected
    /\ qw expected = 0%R.
Proof.
  destruct real_frame_unit as (Ha & Hx & Hax).
  unfold described_second_orientation.
  rewrite (half_turn_first_hand_matrix real_frame Ha Hax).
  unfold reorderHandAxes.
  cbn [real_reaching params_ launch_parameters axis_order_ nth
       col0 col1 col2 mzero].
  simpl set_col.
  eexists. split; [reflexivity|].
  rewrite qw_normalize by apply getRotation_nonzero.
  unfold getRotation. cbn [dltb dadd dsub dmul ddiv dsqrt dlit real_scalar].
  unfold m00, m11, m22, m21, m12, m02, m20, m10, m01, vneg, vcross, real_frame, vec.
  cbn [col0 col1 col2 vx vy vz approach_ axis_ dlit dmul dsub real_scalar].
  rewrite !Q2R_0, !Q2R_1, Q2R_half.
  decide_Rltb.
  cbn [quat_of_temp qw mentry Nat.add Nat.modulo Nat.divmod fst snd Nat.sub
       col0 col1 col2 vx vy vz].
  apply Rmult_eq_0_compat_r. lra.
Qed.

(** C9, where the code leaves its description.  In exact arithmetic, for a
    unit approach orthogonal to a unit axis: the matrix of the first hand
    orientation, [-approach], [axis], [(-approach) x axis], turned by 180
    degrees about the approach has the columns [-approach], [-axis],
    [approach x axis].  The matrix that [calculateHandOrientations] builds
    for the second hand orientation has the columns [approach], [-axis],
    [approach x (-axis)]: its first and its third column are the opposite of
    those, so it is another matrix, namely the first one turned by 180
    degrees about its own third column.  For the frame approached along z
    with the axis order of the launch file, the second quaternion returned has
    a scalar part that is not 0 where the quaternion of the described
    rotation has the scalar part 0. *)
Theorem second_hand_orientation_not_about_approach :
  (forall g : GraspEigen R,
     vdot (approach_ g) (approach_ g) = 1%R ->
     vdot (axis_ g) (axis_ g) = 1%R ->
     vdot (approach_ g) (axis_ g) = 0%R ->
     let R1 := first_hand_matrix g in
     let described := half_turn_about (approach_ g) R1 in
     described = mkMat3 (vneg (approach_ g)) (vneg (axis_ g))
                        (vcross (approach_ g) (axis_ g))
     /\ second_hand_matrix g
        = mkMat3 (approach_ g) (vneg (axis_ g)) (vcross (approach_ g) (vneg (axis_ g)))
     /\ col0 (second_hand_matrix g) = vneg (col0 described)
     /\ col1 (second_hand_matrix g) = col1 described
     /\ col2 (second_hand_matrix g) = vneg (col2 described)
     /\ second_hand_matrix g <> described
     /\ second_hand_matrix g = half_turn_about (col2 R1) R1)
  /\ (exists q1 q2 expected,
        calculateHandOrientations real_reaching real_frame = Some [q1; q2]
        /\ described_second_orientation real_reaching real_frame = Some expected
        /\ qw q2 <> 0%R /\ qw expected = 0%R /\ q2 <> expected).
Proof.
  split.
  - intros g Ha Hx Hax R1 described. subst R1 described.
    rewrite (half_turn_first_hand_matrix g Ha Hax).
    rewrite (half_turn_third_column g Ha Hx Hax).
    destruct (second_hand_matrix_orthonormal g Ha Hax) as (HQ & _).
    rewrite HQ. cbn [col0 col1 col2].
    split; [reflexivity|]. split; [reflexivity|].
    split; [apply vec3_eq; unfold vneg; simpl; ring|].
    split; [reflexivity|].
    split; [apply vec3_eq; unfold vcross, vneg; simpl; ring|].
    split; [|reflexivity].
    intros Heq. apply (f_equal (@col0 R)) in Heq. cbn [col0] in Heq.
    exact (unit_not_opposite Ha Heq).
  - destruct real_frame_second_orientation as (q1 & q2 & Hq & Hw).
    destruct real_frame_described_orientation as (expected & He & Hw0).
    exists q1, q2, expected.
    split; [exact Hq|]. split; [exact He|]. split; [exact Hw|]. split; [exact Hw0|].
    intros ->. contradiction.
Qed.

(** The frame approached along z with its axis along y. *)
Lemma second_hand_orientation_witness :
  half_turn_about (approach_ real_frame) (first_hand_matrix real_frame)
  = mkMat3 (vneg (approach_ real_frame)) (vneg (axis_ real_frame))
           (vcross (approach_ real_frame) (axis_ real_frame))
  /\ second_hand_matrix real_frame
     = mkMat3 (approach_ real_frame) (vneg (axis_ real_frame))
              (vcross (approach_ real_frame) (vneg (axis_ real_frame)))
  /\ second_hand_matrix real_frame
     <> half_turn_about (approach_ real_frame) (first_hand_matrix real_frame).
Proof.
  destruct real_frame_unit as (Ha & Hx & Hax).
  destruct (proj1 second_hand_orientation_not_about_approach real_frame Ha Hx Hax)
    as (Hd & HQ & _ & _ & _ & Hne & _).
  split; [exact Hd|]. split; [exact HQ | exact Hne].
Defined.

(** * Further properties of the code *)

Unset Implicit Arguments.

(** ** [isCollisionFree]: any maximum, order of the cloud, early exit *)

Section CollisionScanLemmas.
Context {D : Type} `{Scalar D} {W : Type}.
Variable self : Reaching D W.

(** The scan from any counter and for any maximum: it answers [false]
    exactly when a point inside is still to come and the count passes the
    maximum. *)
Lemma collision_scan_false_any cyl a points : forall k,
  (INT_MIN <= k)%Z ->
  (k + Z.of_nat (length (filter (inside_cylinder cyl a) points)) <= INT_MAX)%Z ->
  collision_scan self cyl a k points = false
  <-> (1 <= length (filter (inside_cylinder cyl a) points))%nat
      /\ (k + Z.of_nat (length (filter (inside_cylinder cyl a) points))
          > max_colliding_points_ (params_ self))%Z.
Proof.
  induction points as [|p rest IH]; intros k Hk Hmax; simpl in *.
  - split; [discriminate | lia].
  - destruct (inside_cylinder cyl a p); simpl in *.
    + rewrite int_wrap_small by lia.
      destruct (k + 1 >? max_colliding_points_ (params_ self))%Z eqn:E.
      * apply Z.gtb_lt in E. split; [lia | reflexivity].
      * assert (k + 1 <= max_colliding_points_ (params_ self))%Z
          by (rewrite Z.gtb_ltb in E; apply Z.ltb_ge in E; exact E).
        rewrite IH by lia. lia.
    + apply IH; assumption.
Qed.

(** Points outside the cylinder are passed over. *)
Lemma collision_scan_filter cyl a points : forall k,
  collision_scan self cyl a k (filter (inside_cylinder cyl a) points)
  = collision_scan self cyl a k points.
Proof.
  induction points as [|p rest IH]; intros k; simpl.
  - reflexivity.
  - destruct (inside_cylinder cyl a p) eqn:E; simpl.
    + rewrite E. destruct (int_wrap (k + 1) >? _)%Z; [reflexivity | apply IH].
    + apply IH.
Qed.

(** Once the scan has answered [false], later points are not looked at. *)
Lemma collision_scan_prefix cyl a points more : forall k,
  collision_scan self cyl a k points = false ->
  collision_scan self cyl a k (points ++ more) = false.
Proof.
  induction points as [|p rest IH]; intros k; simpl.
  - discriminate.
  - destruct (inside_cylinder cyl a p).
    + destruct (int_wrap (k + 1) >? _)%Z; [reflexivity | apply IH].
    + apply IH.
Qed.

End CollisionScanLemmas.

Lemma filter_length_Permutation {A} (f : A -> bool) (l l' : list A) :
  Permutation l l' -> length (filter f l) = length (filter f l').
Proof.
  induction 1 as [|x l l' HP IH|x y l|l l' l'' HP1 IH1 HP2 IH2]; simpl.
  - reflexivity.
  - destruct (f x); simpl; congruence.
  - destruct (f x), (f y); reflexivity.
  - congruence.
Qed.

Lemma isCollisionFree_by_count {D : Type} `{Scalar D} {W : Type}
  (self : Reaching D W) (pose_st : PoseStamped D) (approach : Vec3 D) :
  (Z.of_nat (length (cloud_ self)) <= INT_MAX)%Z ->
  isCollisionFree self pose_st approach = false
  <-> (1 <= count_inside self pose_st approach)%nat
      /\ (Z.of_nat (count_inside self pose_st approach)
          > max_colliding_points_ (params_ self))%Z.
Proof.
  intros Hlen. unfold isCollisionFree, count_inside.
  pose proof (filter_length_le
                (inside_cylinder (cylinder pose_st approach) approach)
                (cloud_ self)) as Hle.
  rewrite collision_scan_false_any.
  - rewrite Z.add_0_l. reflexivity.
  - unfold INT_MIN. lia.
  - lia.
Qed.

(** X1.  Whatever [max_colliding_points_] is, negative too: on a cloud the
    [int] index can walk, [isCollisionFree] answers [false] exactly when at
    least one point is inside the cylinder and the number of points inside
    exceeds the maximum.  So with a negative maximum a pose is collision-free
    exactly when no point is inside. *)
Theorem isCollisionFree_any_maximum {D : Type} `{Scalar D} {W : Type}
  (self : Reaching D W) (pose_st : PoseStamped D) (approach : Vec3 D) :
  (Z.of_nat (length (cloud_ self)) <= INT_MAX)%Z ->
  (isCollisionFree self pose_st approach = false
   <-> (1 <= count_inside self pose_st approach)%nat
       /\ (Z.of_nat (count_inside self pose_st approach)
           > max_colliding_points_ (params_ self))%Z)
  /\ ((max_colliding_points_ (params_ self) < 0)%Z ->
      (isCollisionFree self pose_st approach = true
       <-> count_inside self pose_st approach = 0%nat)).
Proof.
  intros Hlen. pose proof (isCollisionFree_by_count self pose_st approach Hlen) as Hiff.
  split; [exact Hiff|].
  intros Hneg. destruct (isCollisionFree self pose_st approach).
  - split; [intros _ | reflexivity].
    destruct (count_inside self pose_st approach) as [|n]; [reflexivity|].
    assert (true = false) by (apply Hiff; lia). discriminate.
  - split; [discriminate|]. intros Hzero.
    destruct Hiff as [Hf _]. specialize (Hf eq_refl). lia.
Qed.

(** One point inside and the tolerance -1. *)
Lemma isCollisionFree_any_maximum_witness :
  isCollisionFree negative_tolerance example_pose example_approach = false
  <-> (1 <= count_inside negative_tolerance example_pose example_approach)%nat
      /\ (Z.of_nat (count_inside negative_tolerance example_pose example_approach)
          > max_colliding_points_ (params_ negative_tolerance))%Z.
Proof.
  apply (isCollisionFree_any_maximum negative_tolerance example_pose example_approach).
  vm_compute. discriminate.
Defined.

(** X2.  The answer of [isCollisionFree] does not depend on the order of the
    points in the cloud. *)
Theorem isCollisionFree_order_of_cloud {D : Type} `{Scalar D} {W : Type}
  (self : Reaching D W) (cloud' : list (Vec3 D))
  (pose_st : PoseStamped D) (approach : Vec3 D) :
  Permutation (cloud_ self) cloud' ->
  (Z.of_nat (length (cloud_ self)) <= INT_MAX)%Z ->
  isCollisionFree (with_cloud self cloud') pose_st approach
  = isCollisionFree self pose_st approach.
Proof.
  intros Hperm Hlen.
  assert (Hlen' : (Z.of_nat (length (cloud_ (with_cloud self cloud'))) <= INT_MAX)%Z).
  { simpl. rewrite <- (Permutation_length Hperm). exact Hlen. }
  assert (Hcount : count_inside (with_cloud self cloud') pose_st approach
                   = count_inside self pose_st approach).
  { unfold count_inside. simpl. symmetry. apply filter_length_Permutation, Hperm. }
  pose proof (isCollisionFree_by_count self pose_st approach Hlen) as H1.
  pose proof (isCollisionFree_by_count (with_cloud self cloud') pose_st approach Hlen')
    as H2.
  rewrite Hcount in H2. change (params_ (with_cloud self cloud')) with (params_ self) in H2.
  destruct (isCollisionFree self pose_st approach) eqn:E1;
    destruct (isCollisionFree (with_cloud self cloud') pose_st approach) eqn:E2;
    try reflexivity.
  - symmetry. apply H1, H2. reflexivity.
  - apply H2, H1. reflexivity.
Qed.

(** The example cloud, reversed. *)
Lemma isCollisionFree_order_of_cloud_witness :
  isCollisionFree (with_cloud example_reaching (rev example_cloud))
                  example_pose example_approach
  = isCollisionFree example_reaching example_pose example_approach.
Proof.
  apply (isCollisionFree_order_of_cloud example_reaching (rev example_cloud)
           example_pose example_approach).
  - apply Permutation_rev.
  - vm_compute. discriminate.
Defined.

(** X3.  Points outside the cylinder never influence the answer: with them
    removed from the cloud, [isCollisionFree] answers the same. *)
Theorem isCollisionFree_ignores_outside_points {D : Type} `{Scalar D} {W : Type}
  (self : Reaching D W) (pose_st : PoseStamped D) (approach : Vec3 D) :
  isCollisionFree
    (with_cloud self
       (filter (inside_cylinder (cylinder pose_st approach) approach) (cloud_ self)))
    pose_st approach
  = isCollisionFree self pose_st approach.
Proof.
  unfold isCollisionFree. cbn [cloud_ with_cloud].
  rewrite <- (collision_scan_filter self (cylinder pose_st approach) approach
                (cloud_ self) 0).
  reflexivity.
Qed.

(** X4.  Early exit: a collision found on a cloud stays a collision when
    points are appended to the cloud. *)
Theorem isCollisionFree_early_exit {D : Type} `{Scalar D} {W : Type}
  (self : Reaching D W) (more : list (Vec3 D))
  (pose_st : PoseStamped D) (approach : Vec3 D) :
  isCollisionFree self pose_st approach = false ->
  isCollisionFree (with_cloud self (cloud_ self ++ more)) pose_st approach = false.
Proof.
  unfold isCollisionFree. cbn [cloud_ with_cloud]. intros Hfalse.
  exact (collision_scan_prefix self (cylinder pose_st approach) approach
           (cloud_ self) more 0 Hfalse).
Qed.

(** The first three example points already collide; the fourth changes
    nothing. *)
Lemma isCollisionFree_early_exit_witness :
  isCollisionFree (with_cloud example_prefix (cloud_ example_prefix ++ [vec 0.04 0 0]))
                  example_pose example_approach = false.
Proof.
  apply (isCollisionFree_early_exit example_prefix [vec 0.04 0 0]
           example_pose example_approach).
  vm_compute. reflexivity.
Defined.

Lemma collision_scan_threshold {D : Type} `{Scalar D} {W : Type}
  (self : Reaching D W) (m : Z) cyl a points :
  (max_colliding_points_ (params_ self) <= m)%Z ->
  forall k,
    collision_scan self cyl a k points = true ->
    collision_scan (with_max_colliding_points self m) cyl a k points = true.
Proof.
  intros Hm. induction points as [|p rest IH]; intros k; simpl.
  - reflexivity.
  - destruct (inside_cylinder cyl a p); [|apply IH].
    destruct (int_wrap (k + 1) >? max_colliding_points_ (params_ self))%Z eqn:E;
      [discriminate|].
    assert (E' : (int_wrap (k + 1) >? m)%Z = false).
    { rewrite Z.gtb_ltb in *. apply Z.ltb_ge in E. apply Z.ltb_ge. lia. }
    rewrite E'. apply IH.
Qed.

(** X5.  A pose that is collision-free under a tolerance is collision-free
    under every larger one. *)
Theorem isCollisionFree_larger_tolerance {D : Type} `{Scalar D} {W : Type}
  (self : Reaching D W) (m : Z) (pose_st : PoseStamped D) (approach : Vec3 D) :
  (max_colliding_points_ (params_ self) <= m)%Z ->
  isCollisionFree self pose_st approach = true ->
  isCollisionFree (with_max_colliding_points self m) pose_st approach = true.
Proof.
  intros Hm Hfree. unfold isCollisionFree in *.
  cbn [cloud_ with_max_colliding_points].
  apply collision_scan_threshold; assumption.
Qed.

(** Three points inside are tolerated with the maximum 3, and so with 5. *)
Lemma isCollisionFree_larger_tolerance_witness :
  isCollisionFree
    (with_max_colliding_points (with_max_colliding_points example_reaching 3) 5)
    example_pose example_approach = true.
Proof.
  apply (isCollisionFree_larger_tolerance
           (with_max_colliding_points example_reaching 3) 5
           example_pose example_approach).
  - vm_compute. discriminate.
  - vm_compute. reflexivity.
Defined.

(** ** The counted region, in exact arithmetic *)

(** X6.  For a unit approach [a] and the axial coordinate
    [t = a . (p - position)] of a cloud point [p], the test of the loop holds
    exactly when [t] lies strictly between -0.055 and 0 and the squared
    distance of [p] from the axis, [|p - position|^2 - t^2], is at most
    0.0036.  The counted region is the slab of the cylinder between the upper
    cap and the supporting plane; the test against the lower cap, at
    [t = -0.1], never decides. *)
Theorem inside_cylinder_region (pose_st : PoseStamped R) (a p : Vec3 R) :
  vdot a a = 1%R ->
  let c0 := position (pose pose_st) in
  let t := vdot a (vsub p c0) in
  inside_cylinder (cylinder pose_st a) a p = true
  <-> (-0.055 < t < 0
       /\ vdot (vsub p c0) (vsub p c0) - t * t <= 0.0036)%R.
Proof.
  intros Hunit c0 t.
  destruct a as [ax ay az], p as [px py pz], (position (pose pose_st)) as [cx cy cz] eqn:Ec.
  unfold vdot in Hunit. cbn [vx vy vz dadd dmul real_scalar] in Hunit.
  unfold inside_cylinder, cylinder. rewrite Ec.
  cbn [cyl_n cyl_s cyl_c0 cyl_c1 cyl_c cyl_r2].
  rewrite !andb_true_iff.
  cbn [dltb dleb real_scalar]. rewrite !Rltb_true, Rleb_true.
  subst c0 t.
  unfold squaredNorm, vdot, vsub, vadd, vscale. cbn [vx vy vz dadd dsub dmul dlit real_scalar].
  unfold Q2R. cbn [Qnum Qden].
  set (T := (ax * (px - cx) + ay * (py - cy) + az * (pz - cz))%R).
  set (U := (ax * ax + ay * ay + az * az)%R) in Hunit.
  match goal with |- (((?n < _ /\ _ < _) /\ _ < ?l) /\ ?r <= ?r2)%R <-> _ =>
    assert (E1 : n = (- T - 55 / 1000 * U)%R) by (subst T U; field);
    assert (E3 : l = (T + 1 / 10 * U)%R) by (subst T U; field);
    assert (E4 : r = ((px - cx) * (px - cx) + (py - cy) * (py - cy)
                      + (pz - cz) * (pz - cz)
                      + 2 * (5 / 100 - T - 5 / 100 * U) * T
                      + (5 / 100 - T - 5 / 100 * U) * (5 / 100 - T - 5 / 100 * U) * U)%R)
      by (subst T U; field);
    assert (E5 : r2 = (36 / 10000)%R) by lra
  end.
  rewrite E1, E3, E4, E5, Hunit. clear E1 E3 E4 E5.
  split; intros Hc; repeat split; nra.
Qed.

(** The point 0.02 before the origin on the x axis, approached along -x. *)
Lemma inside_cylinder_region_witness :
  inside_cylinder (cylinder origin_pose (vec (-1) 0 0)) (vec (-1) 0 0) (vec 0.02 0 0)
  = true
  <-> (-0.055 < vdot (vec (-1) 0 0) (vsub (vec 0.02 0 0) (position (pose origin_pose))) < 0
       /\ vdot (vsub (vec 0.02 0 0) (position (pose origin_pose)))
               (vsub (vec 0.02 0 0) (position (pose origin_pose)))
          - vdot (vec (-1) 0 0) (vsub (vec 0.02 0 0) (position (pose origin_pose)))
            * vdot (vec (-1) 0 0) (vsub (vec 0.02 0 0) (position (pose origin_pose)))
          <= 0.0036)%R.
Proof.
  apply (inside_cylinder_region origin_pose (vec (-1) 0 0) (vec 0.02 0 0)).
  unfold vdot, vec. simpl. unfold Q2R. simpl. lra.
Defined.

(** ** [extractJointPositions] and [solveIK]: when there is a result *)

(** X7.  [extractJointPositions] reads inside the joint vector of the
    response exactly when [0 <= first], [first - 1 <= last], [last] is below
    the length of the vector, and the number of joints [last - first + 1] is
    an [int]; otherwise the iterator range leaves the vector.  The empty
    range [last = first - 1] gives the empty joint sequence. *)
Theorem extractJointPositions_defined {D : Type} `{Scalar D} {W : Type}
  (self : Reaching D W) (resp : GetPositionIK_Response D) :
  let first := ik_first_joint_index_ (params_ self) in
  let last := ik_last_joint_index_ (params_ self) in
  let n := Z.of_nat (length (joint_state_position resp)) in
  (extractJointPositions self resp <> None
   <-> (0 <= first /\ first - 1 <= last /\ last < n
        /\ last - first + 1 <= INT_MAX)%Z)
  /\ ((0 <= first <= n)%Z -> last = (first - 1)%Z ->
      extractJointPositions self resp = Some []).
Proof.
  intros first last n. unfold extractJointPositions, int_checked.
  fold first. fold last. fold n. unfold INT_MIN, INT_MAX. split.
  - destruct ((- 2 ^ 31 <=? last - first) && (last - first <=? 2 ^ 31 - 1))%Z eqn:E1.
    + apply andb_prop in E1. destruct E1 as [E1a E1b].
      apply Z.leb_le in E1a, E1b.
      destruct ((- 2 ^ 31 <=? last - first + 1)
                && (last - first + 1 <=? 2 ^ 31 - 1))%Z eqn:E2.
      * apply andb_prop in E2. destruct E2 as [E2a E2b].
        apply Z.leb_le in E2a, E2b.
        destruct ((0 <=? first) && (0 <=? last - first + 1)
                  && (first + (last - first + 1) <=? n))%Z eqn:E3.
        -- apply andb_prop in E3. destruct E3 as [E3 E3c].
           apply andb_prop in E3. destruct E3 as [E3a E3b].
           apply Z.leb_le in E3a, E3b, E3c.
           split; [intros _; lia | discriminate].
        -- split; [intros Hc; contradiction Hc; reflexivity|].
           intros (H1 & H2 & H3 & H4).
           assert (Ht : ((0 <=? first) && (0 <=? last - first + 1)
                         && (first + (last - first + 1) <=? n))%Z = true).
           { rewrite !andb_true_iff, !Z.leb_le. lia. }
           congruence.
      * split; [intros Hc; contradiction Hc; reflexivity|].
        intros (H1 & H2 & H3 & H4).
        apply andb_false_iff in E2. rewrite !Z.leb_gt in E2. lia.
    + split; [intros Hc; contradiction Hc; reflexivity|].
      intros (H1 & H2 & H3 & H4).
      apply andb_false_iff in E1. rewrite !Z.leb_gt in E1. lia.
  - intros Hfirst Hlast. rewrite Hlast.
    replace (first - 1 - first)%Z with (-1)%Z by lia. cbn [Z.add Z.leb Z.compare andb].
    assert (Ht : ((0 <=? first) && (0 <=? 0) && (first + 0 <=? n))%Z = true).
    { rewrite !andb_true_iff, !Z.leb_le. lia. }
    simpl. simpl in Ht. rewrite Ht. reflexivity.
Qed.

(** X8.  [solveIK] reads outside the response exactly when the joint-space
    backend receives a status other than "no solution" (a timeout or a
    failure of another kind, say) together with a joint vector that does not
    cover the configured range: every such status is taken for a success.
    The closed-form backend always has a result. *)
Theorem solveIK_undefined {D : Type} `{Scalar D} {W : Type} (self : Reaching D W)
  (target : PoseStamped D) (attempts : Z) (timeout : D) (st : RunState D W) :
  let resp := fst (compute_ik (ik_service_ self) (world st)
                     (moveit_request self target attempts timeout (world st))) in
  solveIK self target attempts timeout st = None
  <-> planning_lib_ (params_ self) = MOVE_IT
      /\ error_code_val resp <> NO_IK_SOLUTION
      /\ extractJointPositions self resp = None.
Proof.
  intros resp. destruct (planning_lib_ (params_ self)) eqn:Hlib.
  - pose proof (solveIK_moveit self target attempts timeout st Hlib) as Hs.
    subst resp. destruct (compute_ik _ _ _) as [resp w']. cbn [fst].
    rewrite Hs.
    destruct (Z.eqb_spec (error_code_val resp) NO_IK_SOLUTION) as [Hno|Hyes].
    + split; [discriminate | intros (_ & Hc & _); contradiction].
    + destruct (extractJointPositions self resp).
      * split; [discriminate | intros (_ & _ & Hc); discriminate].
      * split; [intros _; repeat split; assumption | reflexivity].
  - pose proof (solveIK_openrave self target attempts timeout st Hlib) as Hs.
    destruct (ikfast_solver _ _ _) as [r w']. rewrite Hs.
    split; [discriminate | intros (Hc & _); discriminate].
Qed.

(** The launch range 8 .. 14 and a timed-out answer without joints. *)
Lemma solveIK_undefined_witness :
  solveIK timed_out_moveit example_pose 1 (dlit 0.005) (mkRunState 0%nat []) = None.
Proof.
  apply (proj2 (solveIK_undefined timed_out_moveit example_pose 1 (dlit 0.005)
                  (mkRunState 0%nat []))).
  split; [reflexivity|]. split; [vm_compute; discriminate | reflexivity].
Defined.

(** ** [selectFeasibleGrasps], frame by frame *)

Section FramewiseInduction.
Context {D : Type} `{Scalar D} `{Trig D} {W : Type}.
Variable self : Reaching D W.

(** A property [Q n es vs] of the entries [es] and the events [vs] that [n]
    rotated frames add: it holds of a run as soon as it holds of nothing, of
    every single frame, and is kept when runs are put one after the other. *)
Variable Q : nat -> list (GraspScored D) -> list (Event D) -> Prop.
Hypothesis Q_nothing : Q 0 [] [].
Hypothesis Q_append : forall n m e1 v1 e2 v2,
  Q n e1 v1 -> Q m e2 v2 -> Q (n + m) (e1 ++ e2) (v1 ++ v2).
Hypothesis Q_frame : forall i g ge acc theta st out st',
  angle_body self i g ge acc theta st = Some (out, st') ->
  exists es vs, out = acc ++ es /\ trace st' = trace st ++ vs /\ Q 1 es vs.

Lemma angles_loop_frames i g ge ths : forall acc st out st',
  for_each (angle_body self i g ge) ths acc st = Some (out, st') ->
  exists es vs, out = acc ++ es /\ trace st' = trace st ++ vs
                /\ Q (length ths) es vs.
Proof.
  induction ths as [|theta ths IH]; intros acc st out st' Hrun.
  - simpl in Hrun. unfold ret in Hrun. injection Hrun as <- <-.
    exists [], []. rewrite !app_nil_r. repeat split. exact Q_nothing.
  - cbn [for_each] in Hrun. apply bind_Some in Hrun.
    destruct Hrun as (acc1 & s1 & Hbody & Hrest).
    destruct (Q_frame _ _ _ _ _ _ _ _ Hbody) as (e1 & v1 & -> & Htr1 & HQ1).
    destruct (IH _ _ _ _ Hrest) as (e2 & v2 & -> & Htr2 & HQ2).
    exists (e1 ++ e2), (v1 ++ v2).
    rewrite Htr2, Htr1, <- !app_assoc. repeat split.
    exact (Q_append 1 (length ths) e1 v1 e2 v2 HQ1 HQ2).
Qed.

Lemma candidate_body_frames i g acc st out st' :
  candidate_body self i acc g st = Some (out, st') ->
  exists es vs, out = acc ++ es /\ trace st' = trace st ++ vs
                /\ Q (if passes_prefilter_b self g
                      then length (sample_angles self) else 0) es vs.
Proof.
  unfold candidate_body, passes_prefilter_b. intros Hrun.
  destruct (isInWorkspace self _ _ _); cbn [negb andb] in *.
  - destruct (aperture_rejected self (width g)); cbn [negb] in *.
    + unfold ret in Hrun. injection Hrun as <- <-.
      exists [], []. rewrite !app_nil_r. repeat split. exact Q_nothing.
    + exact (angles_loop_frames _ _ _ _ _ _ _ _ Hrun).
  - unfold ret in Hrun. injection Hrun as <- <-.
    exists [], []. rewrite !app_nil_r. repeat split. exact Q_nothing.
Qed.

Lemma candidates_loop_frames gs : forall i acc st out st',
  for_each_indexed (candidate_body self) i gs acc st = Some (out, st') ->
  exists es vs, out = acc ++ es /\ trace st' = trace st ++ vs
                /\ Q (frames_of self gs) es vs.
Proof.
  unfold frames_of.
  induction gs as [|g gs IH]; intros i acc st out st' Hrun.
  - simpl in Hrun. unfold ret in Hrun. injection Hrun as <- <-.
    exists [], []. rewrite !app_nil_r. repeat split. exact Q_nothing.
  - cbn [for_each_indexed] in Hrun. apply bind_Some in Hrun.
    destruct Hrun as (acc1 & s1 & Hbody & Hrest).
    destruct (candidate_body_frames _ _ _ _ _ _ Hbody) as (e1 & v1 & -> & Htr1 & HQ1).
    destruct (IH _ _ _ _ _ Hrest) as (e2 & v2 & -> & Htr2 & HQ2).
    exists (e1 ++ e2), (v1 ++ v2).
    rewrite Htr2, Htr1, <- !app_assoc. repeat split.
    cbn [filter]. destruct (passes_prefilter_b self g); cbn [length Nat.mul].
    + exact (Q_append _ _ e1 v1 e2 v2 HQ1 HQ2).
    + exact (Q_append 0 _ e1 v1 e2 v2 HQ1 HQ2).
Qed.

Lemma selectFeasibleGrasps_frames grasps st out st' :
  selectFeasibleGrasps self grasps st = Some (out, st') ->
  exists vs, trace st' = trace st ++ vs /\ Q (frames_of self grasps) out vs.
Proof.
  intros Hrun. unfold selectFeasibleGrasps in Hrun.
  destruct (candidates_loop_frames _ _ _ _ _ _ Hrun) as (es & vs & -> & Htr & HQ).
  exists vs. split; [exact Htr | exact HQ].
Qed.

End FramewiseInduction.

(** X9.  Every entry of the output refers to a candidate of the batch: its
    index lies within the batch, the candidate at that index passed the
    workspace test and the aperture test, and the entry carries its width. *)
Theorem selectFeasibleGrasps_entries_of_batch {D : Type} {S : Scalar D} {T : Trig D}
  {W : Type} (self : Reaching D W) (grasps : list (Grasp D))
  (st : RunState D W) (out : list (GraspScored D)) (st' : RunState D W) :
  selectFeasibleGrasps self grasps st = Some (out, st') ->
  Forall (fun e =>
            (0 <= gs_index e < Z.of_nat (length grasps))%Z
            /\ exists g, nth_error grasps (Z.to_nat (gs_index e)) = Some g
                         /\ passes_prefilter_b self g = true
                         /\ gs_width e = width g) out.
Proof.
  intros Hrun.
  destruct (selectFeasibleGrasps_layout self grasps st Hrun) as ((keys & HF & _) & _).
  apply Forall_forall. intros e He.
  destruct (@Forall2_In_r _ _ _ _ _ _ HF He) as ([[i j] o] & _ & Hentry).
  simpl in Hentry.
  destruct Hentry as (g & theta & quats & q & ik & Hg & [Hws Hap] & _ & _ & _ & _ & _ & _ & ->).
  cbn [gs_index gs_width scored].
  assert (Hi : (i < length grasps)%nat) by (apply nth_error_Some; congruence).
  split; [lia|]. exists g. rewrite Nat2Z.id.
  split; [exact Hg|]. split; [|reflexivity].
  unfold passes_prefilter_b. rewrite Hws, Hap. reflexivity.
Qed.

(** The run on the reachable candidate with an empty cloud. *)
Lemma selectFeasibleGrasps_entries_of_batch_witness :
  exists out st',
    selectFeasibleGrasps free_reaching [reachable_grasp] (mkRunState 0%nat [])
    = Some (out, st')
    /\ Forall (fun e =>
                 (0 <= gs_index e < 1)%Z
                 /\ exists g, nth_error [reachable_grasp] (Z.to_nat (gs_index e)) = Some g
                              /\ passes_prefilter_b free_reaching g = true
                              /\ gs_width e = width g) out.
Proof.
  destruct (@selectFeasibleGrasps_total R real_scalar real_trig nat free_reaching
              free_axis_order free_service
              [reachable_grasp] (mkRunState 0%nat [])) as (out & st' & Hrun).
  exists out, st'. split; [exact Hrun|].
  exact (selectFeasibleGrasps_entries_of_batch free_reaching [reachable_grasp]
           (mkRunState 0%nat []) out st' Hrun).
Defined.

(** X10.  No entry of the output is a pose that the collision checker
    rejects: [isCollisionFree] holds of the pose and the approach of every
    entry. *)
Theorem selectFeasibleGrasps_entries_collision_free {D : Type} {S : Scalar D}
  {T : Trig D} {W : Type} (self : Reaching D W) (grasps : list (Grasp D))
  (st : RunState D W) (out : list (GraspScored D)) (st' : RunState D W) :
  selectFeasibleGrasps self grasps st = Some (out, st') ->
  Forall (fun e => isCollisionFree self (gs_pose e) (gs_approach e) = true) out.
Proof.
  intros Hrun.
  destruct (selectFeasibleGrasps_frames self
              (fun _ es _ =>
                 Forall (fun e => isCollisionFree self (gs_pose e) (gs_approach e) = true)
                        es)) with (grasps := grasps) (st := st) (out := out) (st' := st')
    as (vs & _ & HQ).
  - constructor.
  - intros n m e1 v1 e2 v2 H1 H2. apply Forall_app. split; assumption.
  - intros i g ge acc theta s0 o s1 Hbody.
    destruct (angle_body_spec self i g ge acc theta s0 Hbody)
      as (qa & qb & ika & ikb & sta & stb & _ & _ & _ & Hfree & Htr & Hout).
    eexists _, _. split; [exact Hout|]. split; [exact Htr|].
    apply Forall_app. split.
    + destruct (success_ ika); cbn [andb]; [|constructor].
      destruct (isCollisionFree self
                  (createGraspPose self (rotateGrasp ge theta) qa theta) _) eqn:E;
        constructor; [|constructor].
      cbn [gs_pose gs_approach scored]. exact E.
    + destruct (success_ ikb); cbn [andb]; [|constructor].
      destruct (isCollisionFree self
                  (createGraspPose self (rotateGrasp ge theta) qa theta) _) eqn:E;
        constructor; [|constructor].
      cbn [gs_pose gs_approach scored]. exact Hfree.
  - exact Hrun.
  - exact HQ.
Qed.

Lemma selectFeasibleGrasps_entries_collision_free_witness :
  exists out st',
    selectFeasibleGrasps free_reaching [reachable_grasp] (mkRunState 0%nat [])
    = Some (out, st')
    /\ Forall (fun e => isCollisionFree free_reaching (gs_pose e) (gs_approach e) = true)
              out.
Proof.
  destruct (@selectFeasibleGrasps_total R real_scalar real_trig nat free_reaching
              free_axis_order free_service
              [reachable_grasp] (mkRunState 0%nat [])) as (out & st' & Hrun).
  exists out, st'. split; [exact Hrun|].
  exact (selectFeasibleGrasps_entries_collision_free free_reaching [reachable_grasp]
           (mkRunState 0%nat []) out st' Hrun).
Defined.

(** X11.  The search is exhaustive: a run calls [solveIK] exactly twice for
    every rotated frame (one frame per sampled angle of each candidate that
    passes the pre-filters), whatever the answers are.  The collision checks
    and the entries of the output are each at most as many as the calls to
    [solveIK] that found a solution. *)
Theorem selectFeasibleGrasps_call_counts {D : Type} {S : Scalar D} {T : Trig D}
  {W : Type} (self : Reaching D W) (grasps : list (Grasp D))
  (st : RunState D W) (out : list (GraspScored D)) (st' : RunState D W) :
  selectFeasibleGrasps self grasps st = Some (out, st') ->
  exists new,
    trace st' = trace st ++ new
    /\ length (ik_calls new) = (2 * frames_of self grasps)%nat
    /\ (length (collision_calls new) <= length (successful_ik_calls new))%nat
    /\ (length out <= length (successful_ik_calls new))%nat
    /\ (length (successful_ik_calls new) <= 2 * frames_of self grasps)%nat.
Proof.
  intros Hrun.
  destruct (selectFeasibleGrasps_frames self
              (fun n es vs =>
                 length (ik_calls vs) = (2 * n)%nat
                 /\ (length (collision_calls vs) <= length (successful_ik_calls vs))%nat
                 /\ (length es <= length (successful_ik_calls vs))%nat
                 /\ (length (successful_ik_calls vs) <= 2 * n)%nat))
    with (grasps := grasps) (st := st) (out := out) (st' := st')
    as (vs & Htr & HQ).
  - simpl. lia.
  - intros n m e1 v1 e2 v2 (A1 & B1 & C1 & D1) (A2 & B2 & C2 & D2).
    unfold ik_calls, collision_calls, successful_ik_calls in *.
    rewrite !filter_app, !length_app. lia.
  - intros i g ge acc theta s0 o s1 Hbody.
    destruct (angle_body_spec self i g ge acc theta s0 Hbody)
      as (qa & qb & ika & ikb & sta & stb & _ & _ & _ & _ & Htr & Hout).
    eexists _, _. split; [exact Hout|]. split; [exact Htr|].
    unfold ik_calls, collision_calls, successful_ik_calls.
    rewrite !filter_app, !length_app.
    destruct (success_ ika) eqn:Sa, (success_ ikb) eqn:Sb,
      (isCollisionFree self (createGraspPose self (rotateGrasp ge theta) qa theta)
         (approach_ (rotateGrasp ge theta)));
      cbn [andb negb filter app length is_ik_event is_collision_event];
      rewrite ?Sa, ?Sb; cbn [length]; lia.
  - exact Hrun.
  - exists vs. split; [exact Htr | exact HQ].
Qed.

Lemma selectFeasibleGrasps_call_counts_witness :
  exists out st' new,
    selectFeasibleGrasps free_reaching [reachable_grasp] (mkRunState 0%nat [])
    = Some (out, st')
    /\ trace st' = [] ++ new
    /\ length (ik_calls new) = (2 * frames_of free_reaching [reachable_grasp])%nat.
Proof.
  destruct (@selectFeasibleGrasps_total R real_scalar real_trig nat free_reaching
              free_axis_order free_service
              [reachable_grasp] (mkRunState 0%nat [])) as (out & st' & Hrun).
  destruct (selectFeasibleGrasps_call_counts free_reaching [reachable_grasp]
              (mkRunState 0%nat []) out st' Hrun) as (new & Htr & Hik & _).
  exists out, st', new. split; [exact Hrun|]. split; [exact Htr | exact Hik].
Defined.









(** ** [selectFeasibleGrasps] on a concatenated batch *)

Section BatchComposition.
Context {D : Type} `{Scalar D} `{Trig D} {W : Type}.
Variable self : Reaching D W.

Lemma orientation_loop_moved i n g rot theta pre qs : forall flag acc st,
  for_each (orientation_body self (i + n) g rot theta) qs
           (flag, pre ++ map (shift_index n) acc) st
  = match for_each (orientation_body self i g rot theta) qs (flag, acc) st with
    | Some ((f, out), st') => Some ((f, pre ++ map (shift_index n) out), st')
    | None => None
    end.
Proof.
  induction qs as [|q qs IH]; intros flag acc st.
  - reflexivity.
  - cbn [for_each]. unfold bind. rewrite !orientation_body_eq.
    destruct (solveIK self _ _ _ st) as [[ik st1]|]; [|reflexivity].
    rewrite <- IH. f_equal. f_equal.
    rewrite map_app, app_assoc. f_equal.
    destruct (success_ ik && (flag || isCollisionFree self _ _)); reflexivity.
Qed.

Lemma angle_body_moved i n g ge pre acc theta st :
  angle_body self (i + n) g ge (pre ++ map (shift_index n) acc) theta st
  = moved_result pre n (angle_body self i g ge acc theta st).
Proof.
  unfold angle_body, bind, lift_option.
  destruct (calculateHandOrientations self (rotateGrasp ge theta)) as [quats|];
    [|reflexivity].
  rewrite orientation_loop_moved.
  destruct (for_each _ quats (false, acc) st) as [[[f out] st']|]; reflexivity.
Qed.

Lemma angles_loop_moved i n g ge pre ths : forall acc st,
  for_each (angle_body self (i + n) g ge) ths (pre ++ map (shift_index n) acc) st
  = moved_result pre n (for_each (angle_body self i g ge) ths acc st).
Proof.
  induction ths as [|theta ths IH]; intros acc st.
  - reflexivity.
  - cbn [for_each]. unfold bind. rewrite angle_body_moved.
    destruct (angle_body self i g ge acc theta st) as [[out st1]|]; [|reflexivity].
    cbn [moved_result]. apply IH.
Qed.

Lemma candidate_body_moved i n pre acc g st :
  candidate_body self (i + n) (pre ++ map (shift_index n) acc) g st
  = moved_result pre n (candidate_body self i acc g st).
Proof.
  unfold candidate_body.
  destruct (isInWorkspace self _ _ _); cbn [negb]; [|reflexivity].
  destruct (aperture_rejected self (width g)); [reflexivity|].
  apply angles_loop_moved.
Qed.

Lemma candidates_loop_moved n pre gs : forall i acc st,
  for_each_indexed (candidate_body self) (i + n) gs
                   (pre ++ map (shift_index n) acc) st
  = moved_result pre n (for_each_indexed (candidate_body self) i gs acc st).
Proof.
  induction gs as [|g gs IH]; intros i acc st.
  - reflexivity.
  - cbn [for_each_indexed]. unfold bind. rewrite candidate_body_moved.
    destruct (candidate_body self i acc g st) as [[out st1]|]; [|reflexivity].
    cbn [moved_result].
    replace (i + n + 1)%Z with (i + 1 + n)%Z by lia. apply IH.
Qed.

Lemma for_each_indexed_app {A X} (body : Z -> A -> X -> M D W A) xs ys :
  forall i acc st,
  for_each_indexed body i (xs ++ ys) acc st
  = match for_each_indexed body i xs acc st with
    | Some (acc', s1) => for_each_indexed body (i + Z.of_nat (length xs)) ys acc' s1
    | None => None
    end.
Proof.
  induction xs as [|x xs IH]; intros i acc st.
  - cbn [app for_each_indexed length]. unfold ret.
    replace (i + Z.of_nat 0)%Z with i by lia. reflexivity.
  - cbn [app for_each_indexed]. unfold bind.
    destruct (body i acc x st) as [[a s1]|]; [|reflexivity].
    rewrite IH. cbn [length].
    replace (i + 1 + Z.of_nat (length xs))%Z with (i + Z.of_nat (S (length xs)))%Z
      by lia.
    reflexivity.
Qed.

End BatchComposition.

(** X14.  Filtering a concatenated batch is filtering its two parts one
    after the other, the second from the state the first leaves: the output
    is the output of the first part followed by the output of the second
    part with the candidate indices moved by the length of the first part;
    and there is no result exactly when one of the two runs has none. *)
Theorem selectFeasibleGrasps_app {D : Type} {S : Scalar D} {T : Trig D}
  {W : Type} (self : Reaching D W) (grasps1 grasps2 : list (Grasp D))
  (st : RunState D W) :
  selectFeasibleGrasps self (grasps1 ++ grasps2) st
  = match selectFeasibleGrasps self grasps1 st with
    | Some (out1, st1) =>
        match selectFeasibleGrasps self grasps2 st1 with
        | Some (out2, st2) =>
            Some (out1 ++ map (shift_index (Z.of_nat (length grasps1))) out2, st2)
        | None => None
        end
    | None => None
    end.
Proof.
  unfold selectFeasibleGrasps. rewrite for_each_indexed_app.
  destruct (for_each_indexed (candidate_body self) 0 grasps1 [] st)
    as [[out1 st1]|]; [|reflexivity].
  pose proof (candidates_loop_moved self (Z.of_nat (length grasps1)) out1 grasps2
                0 [] st1) as Hmoved.
  cbn [map] in Hmoved. rewrite app_nil_r in Hmoved. rewrite Hmoved.
  reflexivity.
Qed.

(** ** The constructor *)

Lemma wait_for_service_spec {W : Type} (node : StartupNode W) (name : string)
  (fuel : nat) : forall (w w' : W) (n : nat),
  wait_for_service node name fuel w = Some (w', n)
  <-> (n < fuel)%nat
      /\ w' = after_sleeps node n w
      /\ service_exists node name (after_sleeps node n w) = true
      /\ forall m, (m < n)%nat ->
           service_exists node name (after_sleeps node m w) = false.
Proof.
  induction fuel as [|fuel IH]; intros w w' n; cbn [wait_for_service].
  - split; [discriminate | intros (Hn & _); lia].
  - destruct (service_exists node name w) eqn:E.
    + split.
      * intros Hs. injection Hs as <- <-. cbn [after_sleeps].
        repeat split; [lia | exact E | intros m Hm; lia].
      * intros (Hn & -> & Hex & Hbefore). destruct n as [|n]; [reflexivity|].
        specialize (Hbefore 0%nat ltac:(lia)). cbn [after_sleeps] in Hbefore.
        congruence.
    + destruct (wait_for_service node name fuel (sleep_one_second node w))
        as [[w1 n1]|] eqn:Erec.
      * apply IH in Erec. destruct Erec as (Hn1 & -> & Hex & Hbefore). split.
        -- intros Hs. injection Hs as <- <-. cbn [after_sleeps].
           repeat split; [lia | exact Hex |].
           intros [|m] Hm; cbn [after_sleeps]; [exact E | apply Hbefore; lia].
        -- intros (Hn & -> & Hex' & Hbefore'). destruct n as [|n].
           ++ cbn [after_sleeps] in Hex'. congruence.
           ++ cbn [after_sleeps] in *.
              assert (n = n1).
              { destruct (Nat.lt_trichotomy n n1) as [Hlt | [Heq | Hgt]];
                  [|exact Heq|].
                - specialize (Hbefore n Hlt). congruence.
                - specialize (Hbefore' (S n1) ltac:(lia)).
                  cbn [after_sleeps] in Hbefore'. congruence. }
              subst n1. reflexivity.
      * split; [discriminate|].
        intros (Hn & -> & Hex & Hbefore). destruct n as [|n].
        -- cbn [after_sleeps] in Hex. congruence.
        -- cbn [after_sleeps] in Hex.
           assert (Hsome : wait_for_service node name fuel (sleep_one_second node w)
                           = Some (after_sleeps node n (sleep_one_second node w), n)).
           { apply IH. repeat split; [lia | exact Hex |].
             intros m Hm. apply (Hbefore (S m)). lia. }
           congruence.
Qed.

(** X15.  The constructor polls the service of the configured backend
    ("/compute_ik" for the joint-space backend, "/ikfast_solver" for the
    closed-form one) once per second.  It returns after [n] sleeps exactly
    when the service is advertised after [n] seconds and not before; when
    the service never comes up it returns for no number of polls. *)
Theorem Reaching_constructor_waits {D W : Type} (node : StartupNode W)
  (params : Parameters D) (w : W) :
  let name := ik_service_name (planning_lib_ params) in
  (forall fuel w' n,
     Reaching_constructor node params fuel w = Some (w', n)
     <-> (n < fuel)%nat
         /\ w' = after_sleeps node n w
         /\ service_exists node name (after_sleeps node n w) = true
         /\ forall m, (m < n)%nat ->
              service_exists node name (after_sleeps node m w) = false)
  /\ ((forall m, service_exists node name (after_sleeps node m w) = false) ->
      forall fuel, Reaching_constructor node params fuel w = None).
Proof.
  intros name. split.
  - intros fuel w' n. unfold Reaching_constructor. apply wait_for_service_spec.
  - intros Hnever fuel. unfold Reaching_constructor. fold name.
    destruct (wait_for_service node name fuel w) as [[w' n]|] eqn:E; [|reflexivity].
    apply wait_for_service_spec in E. destruct E as (_ & _ & Hex & _).
    rewrite Hnever in Hex. discriminate.
Qed.

(** The closed-form service comes up at second 3: three sleeps. *)
Lemma Reaching_constructor_waits_witness :
  Reaching_constructor late_node (launch_parameters (D := float) OPEN_RAVE) 10 0%nat
  = Some (3%nat, 3%nat).
Proof.
  apply (proj1 (Reaching_constructor_waits late_node
                  (launch_parameters (D := float) OPEN_RAVE) 0%nat)).
  repeat split; [lia|].
  intros m Hm.
  assert (m = 0 \/ m = 1 \/ m = 2)%nat as [-> | [-> | ->]] by lia; reflexivity.
Defined.

(** ** Angles, frames and matrices in exact arithmetic *)

(** X16.  In exact arithmetic, whatever the number of additional grasps:
    at least one angle is sampled, every sampled angle lies between -15 and
    15 degrees, the angles are strictly increasing, and they are symmetric
    about 0 (the angle at index [i] from the end is minus the angle at index
    [i]). *)
Theorem sample_angles_range {W : Type} (self : Reaching R W) :
  (num_additional_grasps_ (params_ self) < INT_MAX)%Z ->
  sample_angles self <> []
  /\ (forall theta, In theta (sample_angles self) -> -15 <= theta <= 15)%R
  /\ (forall i j ti tj, (i < j)%nat ->
        nth_error (sample_angles self) i = Some ti ->
        nth_error (sample_angles self) j = Some tj -> (ti < tj)%R)
  /\ (forall i ti, nth_error (sample_angles self) i = Some ti ->
        nth_error (sample_angles self) (length (sample_angles self) - 1 - i)
        = Some (- ti)%R).
Proof.
  intros Hk. set (k := num_additional_grasps_ (params_ self)) in *.
  destruct (Z.gtb_spec k 0) as [Hpos|Hnonpos].
  - assert (Hlen : length (sample_angles self) = S (Z.to_nat k)).
    { unfold sample_angles. fold k. destruct (Z.gtb_spec k 0); [|lia].
      rewrite LinSpaced_length by lia. lia. }
    assert (Hnth : forall i, (i <= Z.to_nat k)%nat ->
              nth_error (sample_angles self) i = Some (-15 + 30 * INR i / IZR k)%R).
    { intros i Hi. unfold sample_angles. fold k.
      destruct (Z.gtb_spec k 0); [|lia].
      rewrite LinSpaced_nth by lia.
      replace (1 + k - 1)%Z with k by lia. f_equal. simpl.
      rewrite !Q2R_int, <- INR_IZR_INZ.
      assert (IZR k <> 0)%R by (apply not_0_IZR; lia).
      field. assumption. }
    assert (Hkpos : (0 < IZR k)%R) by (apply IZR_lt; exact Hpos).
    assert (HkINR : IZR k = INR (Z.to_nat k))
      by (rewrite INR_IZR_INZ, Z2Nat.id by lia; reflexivity).
    assert (Hidx : forall i t, nth_error (sample_angles self) i = Some t ->
              (i <= Z.to_nat k)%nat /\ t = (-15 + 30 * INR i / IZR k)%R).
    { intros i t Hi.
      assert (i < length (sample_angles self))%nat
        by (apply nth_error_Some; congruence).
      assert (Hle : (i <= Z.to_nat k)%nat) by lia.
      rewrite (Hnth i Hle) in Hi. injection Hi as <-. split; [exact Hle | reflexivity]. }
    split; [|split; [|split]].
    + intros Hnil. rewrite Hnil in Hlen. discriminate.
    + intros theta Hin. apply In_nth_error in Hin. destruct Hin as (i & Hi).
      destruct (Hidx i theta Hi) as (Hle & ->).
      assert (0 <= INR i)%R by apply pos_INR.
      assert (INR i <= IZR k)%R by (rewrite HkINR; apply le_INR; exact Hle).
      assert (0 <= INR i / IZR k <= 1)%R.
      { split.
        - apply Rmult_le_pos; [assumption | left; apply Rinv_0_lt_compat; assumption].
        - apply (Rmult_le_reg_r (IZR k)); [assumption|].
          unfold Rdiv. rewrite Rmult_assoc, Rinv_l by lra. lra. }
      unfold Rdiv in *. rewrite Rmult_assoc. lra.
    + intros i j ti tj Hij Hi Hj.
      destruct (Hidx i ti Hi) as (_ & ->). destruct (Hidx j tj Hj) as (_ & ->).
      assert (INR i < INR j)%R by (apply lt_INR; exact Hij).
      assert (INR i / IZR k < INR j / IZR k)%R.
      { unfold Rdiv. apply Rmult_lt_compat_r;
          [apply Rinv_0_lt_compat; assumption | assumption]. }
      unfold Rdiv in *. rewrite !Rmult_assoc. lra.
    + intros i ti Hi. destruct (Hidx i ti Hi) as (Hle & ->).
      rewrite Hlen. replace (S (Z.to_nat k) - 1 - i)%nat with (Z.to_nat k - i)%nat by lia.
      rewrite Hnth by lia. f_equal.
      rewrite minus_INR by exact Hle. rewrite <- HkINR. field. lra.
  - assert (Hs : sample_angles self = [0%R]).
    { unfold sample_angles. fold k. destruct (Z.gtb_spec k 0); [lia|].
      simpl. rewrite Q2R_int. reflexivity. }
    rewrite Hs. split; [discriminate|]. split; [|split].
    + intros theta [<- | []]. lra.
    + intros [|i] [|j] ti tj Hij Hi Hj; try lia; simpl in Hj;
        destruct j; discriminate.
    + intros [|i] ti Hi; simpl in *; [injection Hi as <-; f_equal; lra|].
      destruct i; discriminate.
Qed.

(** The launch file samples the one angle 0. *)
Lemma sample_angles_range_witness :
  sample_angles real_reaching <> []
  /\ (forall theta, In theta (sample_angles real_reaching) -> -15 <= theta <= 15)%R.
Proof.
  destruct (sample_angles_range real_reaching) as (Hne & Hrange & _).
  - unfold INT_MAX. simpl. lia.
  - split; [exact Hne | exact Hrange].
Defined.

Lemma vcross_orthonormal (u v : Vec3 R) :
  vdot u u = 1%R -> vdot v v = 1%R -> vdot u v = 0%R ->
  orthonormal u v (vcross u v).
Proof.
  destruct u as [ux uy uz], v as [wx wy wz].
  unfold orthonormal, vdot, vcross. simpl. intros Hu Hv Huv.
  repeat split; try assumption; nsatz.
Qed.

Lemma vdot_vneg (u v : Vec3 R) : vdot (vneg u) (vneg v) = vdot u v.
Proof. unfold vdot, vneg. simpl. ring. Qed.

Lemma vscale_minus_one (v : Vec3 R) : vscale (dlit (-1)) v = vneg v.
Proof. apply vec3_eq; unfold vscale, vneg; simpl; rewrite Q2R_int; ring. Qed.

(** X17.  In exact arithmetic [rotateGrasp] keeps a frame orthonormal: for
    a unit binormal and a unit axis orthogonal to a unit approach, the axis,
    the approach and the binormal of the result have length 1 and are
    orthogonal to one another, whatever the angle. *)
Theorem rotateGrasp_orthonormal (g : GraspEigen R) (theta : R) :
  vdot (binormal_ g) (binormal_ g) = 1%R ->
  vdot (axis_ g) (axis_ g) = 1%R ->
  vdot (approach_ g) (approach_ g) = 1%R ->
  vdot (axis_ g) (approach_ g) = 0%R ->
  orthonormal (axis_ (rotateGrasp g theta)) (approach_ (rotateGrasp g theta))
              (binormal_ (rotateGrasp g theta)).
Proof.
  intros Hb Hx Ha Hxa. unfold rotateGrasp. cbn [axis_ approach_ binormal_].
  rewrite !angleAxisTransform_rotate_about, vscale_minus_one.
  destruct (@rotate_about_is_rotation (binormal_ g)
              (dmul theta (ddiv dpi (dlit 180))) Hb) as (_ & Hdot & _).
  apply vcross_orthonormal.
  - rewrite Hdot. exact Hx.
  - rewrite Hdot, vdot_vneg. exact Ha.
  - rewrite Hdot. unfold vdot, vneg in *. simpl in *. lra.
Qed.

(** The frame approached along z, rotated by 10 degrees. *)
Lemma rotateGrasp_orthonormal_witness :
  orthonormal (axis_ (rotateGrasp real_frame 10%R))
              (approach_ (rotateGrasp real_frame 10%R))
              (binormal_ (rotateGrasp real_frame 10%R)).
Proof.
  apply (rotateGrasp_orthonormal real_frame 10%R);
    unfold vdot, real_frame, vec; simpl; unfold Q2R; simpl; lra.
Defined.

Lemma det3_orthonormal_cross (u v : Vec3 R) :
  vdot u u = 1%R -> vdot v v = 1%R -> vdot u v = 0%R ->
  det3 (mkMat3 u v (vcross u v)) = 1%R.
Proof.
  destruct u as [ux uy uz], v as [wx wy wz].
  unfold det3, vdot, vcross. simpl. intros Hu Hv Huv. nsatz.
Qed.

(** X18.  In exact arithmetic, for a unit approach orthogonal to a unit
    axis, the matrices of both hand orientations are rotation matrices
    (orthonormal columns, determinant 1).  They have the same third column
    and opposite first and second columns: the second hand orientation is
    the first one turned by 180 degrees about its third axis, and its first
    axis points along [approach] where the first one's points along
    [-approach]. *)
Theorem hand_matrices_opposite (g : GraspEigen R) :
  vdot (approach_ g) (approach_ g) = 1%R ->
  vdot (axis_ g) (axis_ g) = 1%R ->
  vdot (approach_ g) (axis_ g) = 0%R ->
  let R1 := first_hand_matrix g in
  let R2 := second_hand_matrix g in
  orthonormal (col0 R1) (col1 R1) (col2 R1) /\ det3 R1 = 1%R
  /\ orthonormal (col0 R2) (col1 R2) (col2 R2) /\ det3 R2 = 1%R
  /\ col0 R2 = vneg (col0 R1) /\ col1 R2 = vneg (col1 R1) /\ col2 R2 = col2 R1
  /\ col0 R1 = vneg (approach_ g) /\ col0 R2 = approach_ g.
Proof.
  intros Ha Hx Hax R1 R2.
  destruct (second_hand_matrix_orthonormal g Ha Hax) as (H2 & H1).
  subst R1 R2. rewrite H2. unfold first_hand_matrix. rewrite vscale_minus_one.
  cbn [col0 col1 col2].
  assert (Hna : vdot (vneg (approach_ g)) (vneg (approach_ g)) = 1%R)
    by (rewrite vdot_vneg; exact Ha).
  assert (Hnx : vdot (vneg (axis_ g)) (vneg (axis_ g)) = 1%R)
    by (rewrite vdot_vneg; exact Hx).
  assert (Hnax : vdot (vneg (approach_ g)) (axis_ g) = 0%R)
    by (unfold vdot, vneg in *; simpl in *; lra).
  assert (Hanx : vdot (approach_ g) (vneg (axis_ g)) = 0%R)
    by (unfold vdot, vneg in *; simpl in *; lra).
  split; [apply vcross_orthonormal; assumption|].
  split; [apply det3_orthonormal_cross; assumption|].
  split; [apply vcross_orthonormal; assumption|].
  split; [apply det3_orthonormal_cross; assumption|].
  split; [apply vec3_eq; unfold vneg; simpl; ring|].
  split; [reflexivity|].
  split; [apply vec3_eq; unfold vcross, vneg; simpl; ring|].
  split; reflexivity.
Qed.

(** The frame approached along z with its axis along y. *)
Lemma hand_matrices_opposite_witness :
  col0 (second_hand_matrix real_frame) = vneg (col0 (first_hand_matrix real_frame))
  /\ col2 (second_hand_matrix real_frame) = col2 (first_hand_matrix real_frame).
Proof.
  destruct (hand_matrices_opposite real_frame)
    as (_ & _ & _ & _ & H0 & _ & H2 & _);
    try (unfold vdot, real_frame, vec; simpl; unfold Q2R; simpl; lra).
  split; [exact H0 | exact H2].
Defined.

(** X19.  In exact arithmetic, with an axis order that is a permutation of
    0, 1, 2, [reorderHandAxes] keeps the determinant of its argument when the
    permutation is cyclic (as 2, 0, 1 of the launch file) and negates it
    otherwise: an exchange of two axes turns a rotation matrix into a
    reflection, which is then handed to the quaternion conversion. *)
Theorem reorderHandAxes_determinant {W : Type} (self : Reaching R W) (Q R' : Mat3 R) :
  axis_order_permutation self ->
  reorderHandAxes self Q = Some R' ->
  (axis_order_cyclic self -> det3 R' = det3 Q)
  /\ (~ axis_order_cyclic self -> det3 R' = (- det3 Q)%R).
Proof.
  intros (Hr & H01 & H02 & H12) HR.
  pose proof (Hr 0%nat ltac:(lia)) as R0.
  pose proof (Hr 1%nat ltac:(lia)) as R1.
  pose proof (Hr 2%nat ltac:(lia)) as R2.
  unfold axis_order_cyclic, reorderHandAxes in *. cbv zeta.
  destruct Q as [[a0 a1 a2] [b0 b1 b2] [c0 c1 c2]].
  remember (axis_order_ (params_ self) 0%nat) as x0.
  remember (axis_order_ (params_ self) 1%nat) as x1.
  remember (axis_order_ (params_ self) 2%nat) as x2.
  assert (x0 = 0 \/ x0 = 1 \/ x0 = 2)%Z as [-> | [-> | ->]] by lia;
    assert (x1 = 0 \/ x1 = 1 \/ x1 = 2)%Z as [-> | [-> | ->]] by lia;
    assert (x2 = 0 \/ x2 = 1 \/ x2 = 2)%Z as [-> | [-> | ->]] by lia;
    try congruence;
    cbn in HR; injection HR as <-;
    (split; [intros Hc | intros Hn]);
    try (unfold det3, vdot, vcross; simpl; ring);
    try (exfalso; lia);
    try (exfalso; apply Hn; lia).
Qed.

Lemma exchanged_axis_order_permutation : axis_order_permutation exchanged_axis_order.
Proof.
  split; [|repeat split; discriminate].
  intros i Hi.
  assert (i = 0 \/ i = 1 \/ i = 2)%nat as [-> | [-> | ->]] by lia; simpl; lia.
Qed.

(** The axis order 1, 0, 2 exchanges the first two columns. *)
Lemma reorderHandAxes_determinant_witness :
  det3 (mkMat3 (col1 (first_hand_matrix real_frame))
               (col0 (first_hand_matrix real_frame))
               (col2 (first_hand_matrix real_frame)))
  = (- det3 (first_hand_matrix real_frame))%R.
Proof.
  apply (proj2 (reorderHandAxes_determinant exchanged_axis_order
                  (first_hand_matrix real_frame) _
                  exchanged_axis_order_permutation eq_refl)).
  unfold axis_order_cyclic. simpl. lia.
Defined.

Lemma unit_quaternion_normalized (q : Quaternion R) :
  length2 q = 1%R -> not_normalized q = false.
Proof.
  intros Hunit. unfold not_normalized, QUATERNION_TOLERANCE.
  cbn [dltb dabs dsub dlit real_scalar]. apply Rltb_false. rewrite Hunit.
  replace (1 - Q2R 1)%R with 0%R by (unfold Q2R; simpl; lra).
  rewrite Rabs_R0. unfold Q2R. simpl. lra.
Qed.

Lemma calculateHandOrientations_defined {D : Type} `{Scalar D} `{Trig D} {W : Type}
  (self : Reaching D W) (grasp : GraspEigen D) :
  axis_order_in_range self ->
  exists quats, calculateHandOrientations self grasp = Some quats.
Proof.
  intros Hr.
  destruct (reorderHandAxes_columns (first_hand_matrix grasp) Hr) as (R1 & H1 & _).
  destruct (reorderHandAxes_columns (second_hand_matrix grasp) Hr) as (R2 & H2 & _).
  unfold calculateHandOrientations. rewrite H1, H2. eexists. reflexivity.
Qed.

(** X20.  [calculateHandOrientations] and [createGraspPose] fit together:
    in exact arithmetic every quaternion that [calculateHandOrientations]
    returns passes the normalization test of the message conversion, so the
    pose built from it carries that quaternion unchanged. *)
Theorem hand_orientation_kept_in_pose {W : Type} (self : Reaching R W)
  (rot : GraspEigen R) (theta : R) (quats : list (Quaternion R)) :
  calculateHandOrientations self rot = Some quats ->
  Forall (fun q => not_normalized q = false
                   /\ orientation (pose (createGraspPose self rot q theta)) = q)
         quats.
Proof.
  intros Hq.
  destruct (calculateHandOrientations_two self rot Hq) as (R1 & R2 & _ & _ & ->).
  assert (Hn : forall m, not_normalized (normalize (getRotation m)) = false).
  { intros m. apply unit_quaternion_normalized, normalize_unit, getRotation_nonzero. }
  repeat constructor; try apply Hn;
    unfold createGraspPose, quaternionTFToMsg; cbn [pose orientation];
    rewrite Hn; reflexivity.
Qed.

Lemma hand_orientation_kept_in_pose_witness :
  exists quats,
    calculateHandOrientations real_reaching real_frame = Some quats
    /\ Forall (fun q => not_normalized q = false
                        /\ orientation (pose (createGraspPose real_reaching real_frame
                                                 q 0%R)) = q) quats.
Proof.
  destruct (calculateHandOrientations_defined real_reaching real_frame
              (launch_axis_order_in_range OPEN_RAVE _ _ _ _)) as (quats & Hq).
  exists quats. split; [exact Hq|].
  exact (hand_orientation_kept_in_pose real_reaching real_frame 0%R quats Hq).
Defined.

(** ** NaN in binary64 *)

Lemma float_nan_compare (x : float) :
  PrimFloat.ltb nan x = false /\ PrimFloat.ltb x nan = false
  /\ PrimFloat.leb nan x = false /\ PrimFloat.leb x nan = false.
Proof.
  rewrite !ltb_spec, !leb_spec. unfold SFltb, SFleb.
  change (Prim2SF nan) with S754_nan.
  destruct (Prim2SF x) as [s|s| |s m e]; simpl; repeat split; reflexivity.
Qed.

(** X21.  In binary64, a candidate whose surface center has a NaN coordinate
    is rejected by the workspace test, but a candidate whose width is NaN is
    not rejected by the aperture test: both comparisons of the test are
    false on NaN. *)
Theorem nan_workspace_and_aperture {W : Type} (self : Reaching float W) (x y z : float) :
  isInWorkspace self nan y z = false
  /\ isInWorkspace self x nan z = false
  /\ isInWorkspace self x y nan = false
  /\ aperture_rejected self nan = false.
Proof.
  unfold isInWorkspace, aperture_rejected. cbn [dleb dltb float_scalar].
  repeat split.
  - destruct (float_nan_compare (workspace_ (params_ self) 0%nat)) as (_ & _ & _ & ->).
    reflexivity.
  - destruct (float_nan_compare (workspace_ (params_ self) 2%nat)) as (_ & _ & _ & ->).
    rewrite ?andb_false_r. reflexivity.
  - destruct (float_nan_compare (workspace_ (params_ self) 4%nat)) as (_ & _ & _ & ->).
    rewrite ?andb_false_r. reflexivity.
  - destruct (float_nan_compare (min_aperture_ (params_ self))) as (-> & _).
    destruct (float_nan_compare (max_aperture_ (params_ self))) as (_ & -> & _).
    reflexivity.
Qed.

(** ** Batches that the pre-filters empty *)

Lemma candidates_loop_none_passes {D : Type} `{Scalar D} `{Trig D} {W : Type}
  (self : Reaching D W) (grasps : list (Grasp D)) :
  (forall g, In g grasps -> passes_prefilter_b self g = false) ->
  forall i acc st,
    for_each_indexed (candidate_body self) i grasps acc st = Some (acc, st).
Proof.
  induction grasps as [|g grasps IH]; intros Hnone i acc st.
  - reflexivity.
  - cbn [for_each_indexed]. unfold bind.
    assert (Hg : candidate_body self i acc g st = Some (acc, st)).
    { pose proof (Hnone g (or_introl eq_refl)) as Hp.
      unfold passes_prefilter_b in Hp. unfold candidate_body.
      destruct (isInWorkspace self _ _ _); cbn [negb andb] in *; [|reflexivity].
      destruct (aperture_rejected self (width g)); [reflexivity | discriminate]. }
    rewrite Hg. apply IH. intros g' Hin. apply Hnone. right. exact Hin.
Qed.

(** X22.  A batch none of whose candidates passes the pre-filters (the empty
    batch among them) returns at once, whatever the service and the axis
    order are: the output is empty and the state, world and trace, is
    untouched.  In exact arithmetic this is so for every batch when the
    configuration has an empty interval: a workspace bound above its upper
    bound, or [min_aperture_] above [max_aperture_]. *)
Theorem selectFeasibleGrasps_none_passes :
  (forall (D : Type) (S : Scalar D) (T : Trig D) (W : Type) (self : Reaching D W)
          (grasps : list (Grasp D)) (st : RunState D W),
     (forall g, In g grasps -> passes_prefilter_b self g = false) ->
     selectFeasibleGrasps self grasps st = Some ([], st))
  /\ (forall (W : Type) (self : Reaching R W) (grasps : list (Grasp R))
             (st : RunState R W),
       let ws := workspace_ (params_ self) in
       (ws 1%nat < ws 0%nat \/ ws 3%nat < ws 2%nat \/ ws 5%nat < ws 4%nat
        \/ max_aperture_ (params_ self) < min_aperture_ (params_ self))%R ->
       selectFeasibleGrasps self grasps st = Some ([], st)).
Proof.
  split.
  - intros D S T W self grasps st Hnone. unfold selectFeasibleGrasps.
    apply candidates_loop_none_passes. exact Hnone.
  - intros W self grasps st ws Hempty. unfold selectFeasibleGrasps.
    apply candidates_loop_none_passes. intros g _.
    unfold passes_prefilter_b, isInWorkspace, aperture_rejected.
    cbn [dleb dltb real_scalar]. fold ws.
    destruct Hempty as [Hx | [Hy | [Hz | Hw]]].
    + destruct (Rleb (ws 0%nat) (vx (surface_center g))) eqn:E1; [|reflexivity].
      destruct (Rleb (vx (surface_center g)) (ws 1%nat)) eqn:E2; [|reflexivity].
      apply Rleb_true in E1, E2. lra.
    + destruct (Rleb (ws 2%nat) (vy (surface_center g))) eqn:E1;
        [|rewrite ?andb_false_r; reflexivity].
      destruct (Rleb (vy (surface_center g)) (ws 3%nat)) eqn:E2;
        [|rewrite ?andb_false_r; reflexivity].
      apply Rleb_true in E1, E2. lra.
    + destruct (Rleb (ws 4%nat) (vz (surface_center g))) eqn:E1;
        [|rewrite ?andb_false_r; reflexivity].
      destruct (Rleb (vz (surface_center g)) (ws 5%nat)) eqn:E2;
        [|rewrite ?andb_false_r; reflexivity].
      apply Rleb_true in E1, E2. lra.
    + destruct (Rltb (width g) (min_aperture_ (params_ self))) eqn:E1;
        [cbn [orb negb]; apply andb_false_r|].
      destruct (Rltb (max_aperture_ (params_ self)) (width g)) eqn:E2;
        [cbn [orb negb]; apply andb_false_r|].
      apply Rltb_false in E1, E2. lra.
Qed.

(** The reachable candidate under the exchanged apertures. *)
Lemma selectFeasibleGrasps_none_passes_witness :
  selectFeasibleGrasps empty_aperture_interval [reachable_grasp] (mkRunState 0%nat [])
  = Some ([], mkRunState 0%nat []).
Proof.
  apply (proj2 selectFeasibleGrasps_none_passes nat empty_aperture_interval
           [reachable_grasp] (mkRunState 0%nat [])).
  right. right. right. simpl. unfold Q2R. simpl. lra.
Defined.
